(** * sjtu::linked_hashmap: an insertion-ordered hash map

    A shallow embedding of [src/linked_hashmap.hpp].  The container is a
    pointer structure: every [Node] sits on the heap and takes part in two
    doubly linked lists at once, the order list ([prev]/[next]) and the chain
    of its bucket ([hash_prev]/[hash_next]).  The embedding keeps the
    pointers: a heap of nodes, a store of container objects, and the member
    functions as computations over both, statement by statement.

    - A pointer is an address or [None] for [nullptr]; reading or writing
      through a null or dangling pointer, indexing outside the bucket array
      and [%] by zero are undefined behaviour and end the computation in
      [Undefined].
    - [size_t] is [N] with the wrap-around at 2^64 written out.
    - A [while] loop over pointers gets as many steps as there are nodes on
      the heap, plus one; a loop that needs more does not end ([Diverge]).
    - [new] is taken to succeed and returns an address that is not in use.
    - The bucket array is the value of the field [hash_table], [None] while
      the field is [nullptr]; only nodes live on the heap, so [new[]] and
      [delete[]] of the array show as assignments to the field and nothing
      is said about the storage of the array.

    The invariant [Rep] ties the memory to the list of entries a client
    sees; each member function is proved to return on a memory that
    satisfies it and to re-establish it.  The claims come next, then
    further properties of the member functions (the heap over the lifetime
    of a container, iteration in both directions, writing through
    references, copies), and last an instantiation at numbers on which every
    theorem is run. *)

From stdpp Require Import base option numbers list gmap.

Local Open Scope N_scope.

(** ** Memory *)

(** A pointer is an address or [nullptr]; [None] is [nullptr]. *)
Abbreviation ptr := (option positive) (only parsing).

(** [size_t] is an unsigned 64-bit integer: arithmetic wraps. *)
Definition SIZE_MAX1 : N := 2 ^ 64.
Definition wrap (x : N) : N := x mod SIZE_MAX1.

(** exceptions.hpp: the two exception classes the container throws. *)
Inductive exception : Type :=
| invalid_iterator
| index_out_of_bound.

(** [class iterator] and [class const_iterator]: the node the cursor is at
    and the container it belongs to. *)
Module iterator.
Record t : Type := mk { node : ptr; map : ptr }.
End iterator.

Module const_iterator.
Record t : Type := mk { node : ptr; map : ptr }.
End const_iterator.

Section linked_hashmap.

Context {Key T : Type}.
(** The template parameters [Hash] and [Equal], and [T()]. *)
Variable hash_func : Key → N.
Variable equal_func : Key → Key → bool.
Variable T_default : T.

(** [struct Node]; [data] is the [pair<const Key, T>]. *)
Record Node : Type := mkNode {
  data : Key * T;
  prev : ptr;
  next : ptr;
  hash_prev : ptr;
  hash_next : ptr;
}.

(** [Node(const value_type& d)] *)
Definition Node_new (d : Key * T) : Node := mkNode d None None None None.

Definition set_prev (p : ptr) (n : Node) : Node :=
  mkNode (data n) p (next n) (hash_prev n) (hash_next n).
Definition set_next (p : ptr) (n : Node) : Node :=
  mkNode (data n) (prev n) p (hash_prev n) (hash_next n).
Definition set_hash_prev (p : ptr) (n : Node) : Node :=
  mkNode (data n) (prev n) (next n) p (hash_next n).
Definition set_hash_next (p : ptr) (n : Node) : Node :=
  mkNode (data n) (prev n) (next n) (hash_prev n) p.

(** The data members of [linked_hashmap].  [hash_table] is the bucket array
    ([None] while it is [nullptr]). *)
Record linked_hashmap : Type := mkMap {
  head : ptr;
  tail : ptr;
  hash_table : option (list ptr);
  table_size : N;
  element_count : N;
}.

Definition set_head (p : ptr) (m : linked_hashmap) : linked_hashmap :=
  mkMap p (tail m) (hash_table m) (table_size m) (element_count m).
Definition set_tail (p : ptr) (m : linked_hashmap) : linked_hashmap :=
  mkMap (head m) p (hash_table m) (table_size m) (element_count m).
Definition set_hash_table (t : option (list ptr)) (m : linked_hashmap) : linked_hashmap :=
  mkMap (head m) (tail m) t (table_size m) (element_count m).
Definition set_table_size (s : N) (m : linked_hashmap) : linked_hashmap :=
  mkMap (head m) (tail m) (hash_table m) s (element_count m).
Definition set_element_count (c : N) (m : linked_hashmap) : linked_hashmap :=
  mkMap (head m) (tail m) (hash_table m) (table_size m) c.

(** The memory: the nodes on the heap and the container objects, each at its
    address ([this]). *)
Record world : Type := World {
  nodes : gmap positive Node;
  maps : gmap positive linked_hashmap;
}.

(** ** Computations

    A member function reads and writes the memory and ends in one of four
    ways: it returns, it throws (the memory at the throw is kept), it runs
    into undefined behaviour (a null or dangling pointer is dereferenced, an
    index is out of bounds, a division by zero), or a loop does not end. *)
Inductive outcome (A : Type) : Type :=
| Ok (a : A) (w : world)
| Throw (e : exception) (w : world)
| Undefined
| Diverge.
Arguments Ok {A} a w.
Arguments Throw {A} e w.
Arguments Undefined {A}.
Arguments Diverge {A}.

Definition M (A : Type) : Type := world → outcome A.

Definition ret {A} (a : A) : M A := λ w, Ok a w.
Definition bind {A B} (c : M A) (k : A → M B) : M B :=
  λ w, match c w with
       | Ok a w' => k a w'
       | Throw e w' => Throw e w'
       | Undefined => Undefined
       | Diverge => Diverge
       end.
Definition throw {A} (e : exception) : M A := λ w, Throw e w.
Definition undefined {A} : M A := λ _, Undefined.
Definition diverge {A} : M A := λ _, Diverge.

Notation "'let*' x := c 'in' k" := (bind c (λ x, k))
  (at level 10, x name, c at level 100, k at level 200, only parsing).
Notation "c ;; k" := (bind c (λ _, k))
  (at level 100, k at level 200, right associativity, only parsing).

(** [*p] for a node pointer. *)
Definition load_node (p : ptr) : M Node := λ w,
  match p with
  | Some a => match nodes w !! a with Some n => Ok n w | None => Undefined end
  | None => Undefined
  end.

(** [p->field = v], as a function on the node. *)
Definition modify_node (p : ptr) (f : Node → Node) : M unit := λ w,
  match p with
  | Some a =>
      match nodes w !! a with
      | Some n => Ok tt (World (<[a := f n]> (nodes w)) (maps w))
      | None => Undefined
      end
  | None => Undefined
  end.

(** [new Node(value)]: an address that is not in use. *)
Definition new_Node (d : Key * T) : M positive := λ w,
  let a := fresh (dom (nodes w)) in
  Ok a (World (<[a := Node_new d]> (nodes w)) (maps w)).

(** [delete p] for a node that is allocated. *)
Definition delete_node (a : positive) : M unit := λ w,
  match nodes w !! a with
  | Some _ => Ok tt (World (delete a (nodes w)) (maps w))
  | None => Undefined
  end.

(** [*this] *)
Definition load_map (this : positive) : M linked_hashmap := λ w,
  match maps w !! this with Some m => Ok m w | None => Undefined end.

(** [this->field = v], as a function on the object. *)
Definition modify_map (this : positive) (f : linked_hashmap → linked_hashmap) : M unit := λ w,
  match maps w !! this with
  | Some m => Ok tt (World (nodes w) (<[this := f m]> (maps w)))
  | None => Undefined
  end.

(** [hash_table[i]] *)
Definition table_get (this : positive) (i : N) : M ptr :=
  let* m := load_map this in
  match hash_table m with
  | Some t => match t !! N.to_nat i with Some p => ret p | None => undefined end
  | None => undefined
  end.

(** [hash_table[i] = p] *)
Definition table_set (this : positive) (i : N) (p : ptr) : M unit :=
  let* m := load_map this in
  match hash_table m with
  | Some t =>
      if decide (N.to_nat i < length t)%nat
      then modify_map this (set_hash_table (Some (<[N.to_nat i := p]> t)))
      else undefined
  | None => undefined
  end.

(** [hash_func(key) % size] *)
Definition bucket (key : Key) (size : N) : M N :=
  if decide (size = 0) then undefined else ret (hash_func key mod size).

(** A loop over pointers that runs for more steps than there are nodes on
    the heap has come back to a node it has seen: it does not end. *)
Definition fuel : M nat := λ w, Ok (S (size (nodes w))) w.

(** ** Private member functions *)

Definition INITIAL_SIZE : N := 16.

Definition initialize_table (this : positive) (size : N) : M unit :=
  modify_map this (set_table_size size) ;;
  modify_map this (set_hash_table (Some (replicate (N.to_nat size) None))).

(** The inner [while] of [clear_table]: deletes one chain. *)
Fixpoint clear_chain (k : nat) (current : ptr) : M unit :=
  match current with
  | None => ret tt
  | Some c =>
      match k with
      | O => diverge
      | S k' =>
          let* n := load_node current in
          delete_node c ;;
          clear_chain k' (hash_next n)
      end
  end.

(** The [for] of [clear_table]: the chains of the buckets from [i], [n]
    of them. *)
Fixpoint clear_buckets (this : positive) (k : nat) (n : nat) (i : N) : M unit :=
  match n with
  | O => ret tt
  | S n' =>
      let* current := table_get this i in
      clear_chain k current ;;
      clear_buckets this k n' (wrap (i + 1))
  end.

Definition clear_table (this : positive) : M unit :=
  let* m := load_map this in
  match hash_table m with
  | Some _ =>
      let* k := fuel in
      clear_buckets this k (N.to_nat (table_size m)) 0 ;;
      modify_map this (set_hash_table None)
  | None => ret tt
  end.

(** The [while] of [rehash]: pushes every node of the order list on the
    front of its chain in [new_table]. *)
Fixpoint rehash_loop (k : nat) (new_size : N) (new_table : list ptr) (current : ptr)
  : M (list ptr) :=
  match current with
  | None => ret new_table
  | Some c =>
      match k with
      | O => diverge
      | S k' =>
          let* n := load_node current in
          let* index := bucket (fst (data n)) new_size in
          modify_node current (set_hash_prev None) ;;
          match new_table !! N.to_nat index with
          | None => undefined
          | Some b =>
              modify_node current (set_hash_next b) ;;
              (match b with
               | Some _ => modify_node b (set_hash_prev current)
               | None => ret tt
               end) ;;
              let* n' := load_node current in
              rehash_loop k' new_size (<[N.to_nat index := current]> new_table) (next n')
          end
      end
  end.

Definition rehash (this : positive) : M unit :=
  let* m := load_map this in
  let new_size := wrap (table_size m * 2) in
  let new_table := replicate (N.to_nat new_size) None in
  let* k := fuel in
  let* new_table' := rehash_loop k new_size new_table (head m) in
  modify_map this (set_hash_table (Some new_table')) ;;
  modify_map this (set_table_size new_size).

(** The [while] of [find_node] along one chain. *)
Fixpoint find_loop (k : nat) (key : Key) (current : ptr) : M ptr :=
  match current with
  | None => ret None
  | Some _ =>
      match k with
      | O => diverge
      | S k' =>
          let* n := load_node current in
          if equal_func (fst (data n)) key then ret current
          else find_loop k' key (hash_next n)
      end
  end.

Definition find_node (this : positive) (key : Key) : M ptr :=
  let* m := load_map this in
  let* index := bucket key (table_size m) in
  let* current := table_get this index in
  let* k := fuel in
  find_loop k key current.

Definition remove_from_list (this : positive) (node : ptr) : M unit :=
  let* n := load_node node in
  (match prev n with
   | Some _ => modify_node (prev n) (set_next (next n))
   | None => modify_map this (set_head (next n))
   end) ;;
  let* n := load_node node in
  match next n with
  | Some _ => modify_node (next n) (set_prev (prev n))
  | None => modify_map this (set_tail (prev n))
  end.

Definition remove_from_hash (this : positive) (node : ptr) : M unit :=
  let* n := load_node node in
  let* m := load_map this in
  let* index := bucket (fst (data n)) (table_size m) in
  (match hash_prev n with
   | Some _ => modify_node (hash_prev n) (set_hash_next (hash_next n))
   | None => table_set this index (hash_next n)
   end) ;;
  let* n := load_node node in
  match hash_next n with
  | Some _ => modify_node (hash_next n) (set_hash_prev (hash_prev n))
  | None => ret tt
  end.

(** ** Iterators *)

(** [iterator::operator++(int)]: the cursor after the step and the returned
    copy of the cursor before it. *)
Definition iterator_post_incr (it : iterator.t) : M (iterator.t * iterator.t) :=
  match iterator.node it, iterator.map it with
  | Some _, Some _ =>
      let temp := it in
      let* n := load_node (iterator.node it) in
      ret (iterator.mk (next n) (iterator.map it), temp)
  | _, _ => throw invalid_iterator
  end.

(** [iterator::operator++()] *)
Definition iterator_pre_incr (it : iterator.t) : M iterator.t :=
  match iterator.node it, iterator.map it with
  | Some _, Some _ =>
      let* n := load_node (iterator.node it) in
      ret (iterator.mk (next n) (iterator.map it))
  | _, _ => throw invalid_iterator
  end.

(** [iterator::operator--(int)] *)
Definition iterator_post_decr (it : iterator.t) : M (iterator.t * iterator.t) :=
  match iterator.map it with
  | None => throw invalid_iterator
  | Some owner =>
      let temp := it in
      match iterator.node it with
      | Some _ =>
          let* n := load_node (iterator.node it) in
          ret (iterator.mk (prev n) (iterator.map it), temp)
      | None =>
          let* m := load_map owner in
          ret (iterator.mk (tail m) (iterator.map it), temp)
      end
  end.

(** [iterator::operator--()] *)
Definition iterator_pre_decr (it : iterator.t) : M iterator.t :=
  match iterator.map it with
  | None => throw invalid_iterator
  | Some owner =>
      match iterator.node it with
      | Some _ =>
          let* n := load_node (iterator.node it) in
          ret (iterator.mk (prev n) (iterator.map it))
      | None =>
          let* m := load_map owner in
          ret (iterator.mk (tail m) (iterator.map it))
      end
  end.

(** [iterator::operator*]: the reference to [node->data], as the address of
    the node. *)
Definition iterator_deref (it : iterator.t) : M positive :=
  match iterator.node it with
  | None => throw invalid_iterator
  | Some a => ret a
  end.

(** [iterator::operator->], which is [noexcept]: the pointer to
    [node->data], or [nullptr]. *)
Definition iterator_arrow (it : iterator.t) : M ptr :=
  match iterator.node it with
  | None => ret None
  | Some a => ret (Some a)
  end.

(** [iterator::operator==] and [operator!=] *)
Definition iterator_eq (it rhs : iterator.t) : bool :=
  bool_decide (iterator.node it = iterator.node rhs)
  && bool_decide (iterator.map it = iterator.map rhs).
Definition iterator_ne (it rhs : iterator.t) : bool := negb (iterator_eq it rhs).

(** [const_iterator(const iterator &other)] *)
Definition const_iterator_of (other : iterator.t) : const_iterator.t :=
  const_iterator.mk (iterator.node other) (iterator.map other).

Definition const_iterator_post_incr (it : const_iterator.t)
  : M (const_iterator.t * const_iterator.t) :=
  match const_iterator.node it, const_iterator.map it with
  | Some _, Some _ =>
      let temp := it in
      let* n := load_node (const_iterator.node it) in
      ret (const_iterator.mk (next n) (const_iterator.map it), temp)
  | _, _ => throw invalid_iterator
  end.

Definition const_iterator_pre_incr (it : const_iterator.t) : M const_iterator.t :=
  match const_iterator.node it, const_iterator.map it with
  | Some _, Some _ =>
      let* n := load_node (const_iterator.node it) in
      ret (const_iterator.mk (next n) (const_iterator.map it))
  | _, _ => throw invalid_iterator
  end.

Definition const_iterator_post_decr (it : const_iterator.t)
  : M (const_iterator.t * const_iterator.t) :=
  match const_iterator.map it with
  | None => throw invalid_iterator
  | Some owner =>
      let temp := it in
      match const_iterator.node it with
      | Some _ =>
          let* n := load_node (const_iterator.node it) in
          ret (const_iterator.mk (prev n) (const_iterator.map it), temp)
      | None =>
          let* m := load_map owner in
          ret (const_iterator.mk (tail m) (const_iterator.map it), temp)
      end
  end.

Definition const_iterator_pre_decr (it : const_iterator.t) : M const_iterator.t :=
  match const_iterator.map it with
  | None => throw invalid_iterator
  | Some owner =>
      match const_iterator.node it with
      | Some _ =>
          let* n := load_node (const_iterator.node it) in
          ret (const_iterator.mk (prev n) (const_iterator.map it))
      | None =>
          let* m := load_map owner in
          ret (const_iterator.mk (tail m) (const_iterator.map it))
      end
  end.

Definition const_iterator_deref (it : const_iterator.t) : M positive :=
  match const_iterator.node it with
  | None => throw invalid_iterator
  | Some a => ret a
  end.

Definition const_iterator_arrow (it : const_iterator.t) : M ptr :=
  match const_iterator.node it with
  | None => ret None
  | Some a => ret (Some a)
  end.

Definition const_iterator_eq (it rhs : const_iterator.t) : bool :=
  bool_decide (const_iterator.node it = const_iterator.node rhs)
  && bool_decide (const_iterator.map it = const_iterator.map rhs).
Definition const_iterator_ne (it rhs : const_iterator.t) : bool :=
  negb (const_iterator_eq it rhs).

(** The comparisons of an [iterator] with a [const_iterator], either way
    round. *)
Definition iterator_eq_const (it : iterator.t) (rhs : const_iterator.t) : bool :=
  bool_decide (iterator.node it = const_iterator.node rhs)
  && bool_decide (iterator.map it = const_iterator.map rhs).
Definition iterator_ne_const (it : iterator.t) (rhs : const_iterator.t) : bool :=
  negb (iterator_eq_const it rhs).
Definition const_iterator_eq_iterator (it : const_iterator.t) (rhs : iterator.t) : bool :=
  bool_decide (const_iterator.node it = iterator.node rhs)
  && bool_decide (const_iterator.map it = iterator.map rhs).
Definition const_iterator_ne_iterator (it : const_iterator.t) (rhs : iterator.t) : bool :=
  negb (const_iterator_eq_iterator it rhs).

(** ** Public member functions *)

(** [linked_hashmap()]: the object at [this] comes into being. *)
Definition construct (this : positive) : M unit :=
  (λ w, Ok tt (World (nodes w) (<[this := mkMap None None None 0 0]> (maps w)))) ;;
  initialize_table this INITIAL_SIZE.

(** [begin()], [end()], [cbegin()], [cend()] *)
Definition begin (this : positive) : M iterator.t :=
  let* m := load_map this in ret (iterator.mk (head m) (Some this)).
Definition end_ (this : positive) : M iterator.t :=
  ret (iterator.mk None (Some this)).
Definition cbegin (this : positive) : M const_iterator.t :=
  let* m := load_map this in ret (const_iterator.mk (head m) (Some this)).
Definition cend (this : positive) : M const_iterator.t :=
  ret (const_iterator.mk None (Some this)).

(** [empty()] and [size()] *)
Definition empty (this : positive) : M bool :=
  let* m := load_map this in ret (bool_decide (element_count m = 0)).
Definition size (this : positive) : M N :=
  let* m := load_map this in ret (element_count m).

(** The [while] of [clear]: deletes the nodes of the order list. *)
Fixpoint clear_loop (k : nat) (current : ptr) : M unit :=
  match current with
  | None => ret tt
  | Some c =>
      match k with
      | O => diverge
      | S k' =>
          let* n := load_node current in
          delete_node c ;;
          clear_loop k' (next n)
      end
  end.

(** The [for] of [clear]: [hash_table[i] = nullptr] for [i] from [i0], [n]
    times. *)
Fixpoint clear_slots (this : positive) (n : nat) (i : N) : M unit :=
  match n with
  | O => ret tt
  | S n' => table_set this i None ;; clear_slots this n' (wrap (i + 1))
  end.

Definition clear (this : positive) : M unit :=
  let* m := load_map this in
  let* k := fuel in
  clear_loop k (head m) ;;
  modify_map this (set_head None) ;;
  modify_map this (set_tail None) ;;
  modify_map this (set_element_count 0) ;;
  let* m := load_map this in
  clear_slots this (N.to_nat (table_size m)) 0.

(** [element_count >= table_size * 0.75].  Both sides are doubles in the
    source; below 2^53 the conversions and the product by 0.75 of a multiple
    of 4 are exact, and the comparison is that of the integers. *)
Definition load_reached (m : linked_hashmap) : bool :=
  bool_decide (3 * table_size m ≤ 4 * element_count m).

Definition insert (this : positive) (value : Key * T) : M (iterator.t * bool) :=
  let* existing := find_node this (fst value) in
  match existing with
  | Some _ => ret (iterator.mk existing (Some this), false)
  | None =>
      let* m := load_map this in
      (if load_reached m then rehash this else ret tt) ;;
      let* new_node := new_Node value in
      let* m := load_map this in
      (match head m with
       | None =>
           modify_map this (set_head (Some new_node)) ;;
           modify_map this (set_tail (Some new_node))
       | Some _ =>
           modify_node (tail m) (set_next (Some new_node)) ;;
           modify_node (Some new_node) (set_prev (tail m)) ;;
           modify_map this (set_tail (Some new_node))
       end) ;;
      let* m := load_map this in
      let* index := bucket (fst value) (table_size m) in
      let* b := table_get this index in
      modify_node (Some new_node) (set_hash_next b) ;;
      (match b with
       | Some _ => modify_node b (set_hash_prev (Some new_node))
       | None => ret tt
       end) ;;
      table_set this index (Some new_node) ;;
      modify_map this (λ m, set_element_count (wrap (element_count m + 1)) m) ;;
      ret (iterator.mk (Some new_node) (Some this), true)
  end.

(** The [while] of the copy constructor and of [operator=]. *)
Fixpoint copy_loop (k : nat) (this : positive) (current : ptr) : M unit :=
  match current with
  | None => ret tt
  | Some _ =>
      match k with
      | O => diverge
      | S k' =>
          let* n := load_node current in
          insert this (data n) ;;
          let* n' := load_node current in
          copy_loop k' this (next n')
      end
  end.

(** [linked_hashmap(const linked_hashmap &other)] *)
Definition construct_copy (this other : positive) : M unit :=
  (λ w, Ok tt (World (nodes w) (<[this := mkMap None None None 0 0]> (maps w)))) ;;
  let* o := load_map other in
  initialize_table this (table_size o) ;;
  let* o := load_map other in
  let* k := fuel in
  copy_loop k this (head o).

(** [operator=]; the result is [*this]. *)
Definition operator_assign (this other : positive) : M positive :=
  if decide (this = other) then ret this
  else
    clear this ;;
    clear_table this ;;
    let* o := load_map other in
    initialize_table this (table_size o) ;;
    let* o := load_map other in
    let* k := fuel in
    copy_loop k this (head o) ;;
    ret this.

(** [~linked_hashmap()] *)
Definition destructor (this : positive) : M unit :=
  clear this ;;
  clear_table this.

(** [at(key)]: the reference to [node->data.second], as the address of the
    node. *)
Definition at_ (this : positive) (key : Key) : M positive :=
  let* node := find_node this key in
  match node with
  | None => throw index_out_of_bound
  | Some a => ret a
  end.

(** [operator[](key)] *)
Definition operator_index (this : positive) (key : Key) : M positive :=
  let* node := find_node this key in
  match node with
  | Some a => ret a
  | None =>
      let new_pair := (key, T_default) in
      insert this new_pair ;;
      let* node := find_node this key in
      match node with
      | Some a => ret a
      | None => undefined
      end
  end.

(** [operator[](key) const] *)
Definition operator_index_const (this : positive) (key : Key) : M positive :=
  at_ this key.

Definition erase (this : positive) (pos : iterator.t) : M unit :=
  match iterator.node pos with
  | None => throw invalid_iterator
  | Some a =>
      if decide (iterator.map pos = Some this) then
        remove_from_hash this (iterator.node pos) ;;
        remove_from_list this (iterator.node pos) ;;
        delete_node a ;;
        modify_map this (λ m, set_element_count (wrap (element_count m + SIZE_MAX1 - 1)) m)
      else throw invalid_iterator
  end.

Definition count (this : positive) (key : Key) : M N :=
  let* node := find_node this key in
  ret (match node with Some _ => 1 | None => 0 end).

Definition find (this : positive) (key : Key) : M iterator.t :=
  let* node := find_node this key in
  match node with
  | Some _ => ret (iterator.mk node (Some this))
  | None => end_ this
  end.

Definition find_const (this : positive) (key : Key) : M const_iterator.t :=
  let* node := find_node this key in
  match node with
  | Some _ => ret (const_iterator.mk node (Some this))
  | None => cend this
  end.

(** Reading through a reference: [r.first], [r.second] for the reference an
    iterator or [at] has returned. *)
Definition read (r : positive) : M (Key * T) :=
  let* n := load_node (Some r) in ret (data n).

(** Writing through a reference: [r.second = v].  The key of the pair is
    [const]. *)
Definition set_second (v : T) (n : Node) : Node :=
  mkNode (fst (data n), v) (prev n) (next n) (hash_prev n) (hash_next n).
Definition write (r : positive) (v : T) : M unit :=
  modify_node (Some r) (set_second v).

(** The loop [for (it = begin(); it != end(); ++it) out.push_back( *it )]. *)
Fixpoint collect (k : nat) (this : positive) (it : iterator.t) : M (list (Key * T)) :=
  let* e := end_ this in
  if iterator_ne it e then
    match k with
    | O => diverge
    | S k' =>
        let* r := iterator_deref it in
        let* d := read r in
        let* it' := iterator_pre_incr it in
        let* rest := collect k' this it' in
        ret (d :: rest)
    end
  else ret [].

Definition traverse (this : positive) : M (list (Key * T)) :=
  let* it := begin this in
  let* k := fuel in
  collect k this it.

(** The loop
    [for (it = end(); it != begin(); ) { --it; out.push_back( *it ); }]. *)
Fixpoint collect_back (k : nat) (this : positive) (it : iterator.t)
  : M (list (Key * T)) :=
  let* b := begin this in
  if iterator_ne it b then
    match k with
    | O => diverge
    | S k' =>
        let* it' := iterator_pre_decr it in
        let* r := iterator_deref it' in
        let* d := read r in
        let* rest := collect_back k' this it' in
        ret (d :: rest)
    end
  else ret [].

Definition traverse_back (this : positive) : M (list (Key * T)) :=
  let* it := end_ this in
  let* k := fuel in
  collect_back k this it.

(** The loop of [traverse] on a [const] container:
    [for (it = cbegin(); it != cend(); ++it) out.push_back( *it )]. *)
Fixpoint const_collect (k : nat) (this : positive) (it : const_iterator.t)
  : M (list (Key * T)) :=
  let* e := cend this in
  if const_iterator_ne it e then
    match k with
    | O => diverge
    | S k' =>
        let* r := const_iterator_deref it in
        let* d := read r in
        let* it' := const_iterator_pre_incr it in
        let* rest := const_collect k' this it' in
        ret (d :: rest)
    end
  else ret [].

Definition const_traverse (this : positive) : M (list (Key * T)) :=
  let* it := cbegin this in
  let* k := fuel in
  const_collect k this it.

(** ** The representation invariant *)

(** The pointer to the first node of [l], or [q] past an empty [l]; the
    pointer to its last node, or [p] before an empty [l]. *)
Definition first_or (l : list positive) (q : ptr) : ptr :=
  match l with [] => q | a :: _ => Some a end.
Definition last_or (p : ptr) (l : list positive) : ptr :=
  match last l with Some b => Some b | None => p end.

(** A doubly linked segment through the nodes [l], for either pair of link
    fields: [gp] of the first node is [p], [gn] of the last node is [q], and
    neighbours point at each other. *)
Fixpoint dll (gp gn : Node → ptr) (h : gmap positive Node)
    (p : ptr) (l : list positive) (q : ptr) : Prop :=
  match l with
  | [] => True
  | a :: l' =>
      ∃ n, h !! a = Some n ∧ gp n = p ∧ gn n = first_or l' q
           ∧ dll gp gn h (Some a) l' q
  end.

(** An entry of the container as the client sees it: the address of its
    node and the key/value pair stored there. *)
Abbreviation entry := (positive * (Key * T))%type (only parsing).

(** The first entry, in insertion order, whose key [equal_func] takes for
    [key]. *)
Fixpoint locate (s : list entry) (key : Key) : option entry :=
  match s with
  | [] => None
  | e :: s' => if equal_func (fst (snd e)) key then Some e else locate s' key
  end.

(** The first node of a chain whose key [equal_func] takes for [key]. *)
Fixpoint chain_find (h : gmap positive Node) (c : list positive) (key : Key) : ptr :=
  match c with
  | [] => None
  | a :: c' =>
      match h !! a with
      | Some n => if equal_func (fst (data n)) key then Some a else chain_find h c' key
      | None => None
      end
  end.

(** The bucket array [t] of [size] slots holds the entries [s]: slot [i]
    heads the chain [ch i], which links exactly the nodes whose key hashes
    to [i]. *)
Record buckets (h : gmap positive Node) (size : N) (t : list ptr)
    (ch : N → list positive) (s : list entry) : Prop := mk_buckets {
  bk_length : length t = N.to_nat size;
  bk_head : ∀ i, i < size → t !! N.to_nat i = Some (first_or (ch i) None);
  bk_chain : ∀ i, i < size → dll hash_prev hash_next h None (ch i) None;
  bk_nodup : ∀ i, NoDup (ch i);
  bk_member : ∀ i a, i < size →
              a ∈ ch i ↔ ∃ d, (a, d) ∈ s ∧ hash_func (fst d) mod size = i;
}.

(** The heap [h] and the object [m] hold the entries [s], in this order,
    with the chain [ch i] in bucket [i]. *)
Record rep (h : gmap positive Node) (m : linked_hashmap)
    (s : list entry) (ch : N → list positive) : Prop := mk_rep {
  rep_head : head m = first_or (s.*1) None;
  rep_tail : tail m = last_or None (s.*1);
  rep_nodup : NoDup (s.*1);
  rep_order : dll prev next h None (s.*1) None;
  rep_data : ∀ a d, (a, d) ∈ s → data <$> h !! a = Some d;
  rep_keys : ∀ a1 d1 a2 d2, (a1, d1) ∈ s → (a2, d2) ∈ s →
             equal_func (fst d1) (fst d2) = true → a1 = a2;
  rep_count : element_count m = N.of_nat (length s);
  rep_cap : ∃ e : N, table_size m = 16 * 2 ^ e;
  rep_range : table_size m < SIZE_MAX1;
  rep_load : 4 * element_count m ≤ 3 * table_size m;
  rep_table : ∃ t, hash_table m = Some t ∧ buckets h (table_size m) t ch s;
}.

(** The container at [this] holds the entries [s]. *)
Definition Rep (w : world) (this : positive) (s : list entry) : Prop :=
  ∃ m ch, maps w !! this = Some m ∧ rep (nodes w) m s ch.

(** The capacity of the container at [this]. *)
Definition capacity (w : world) (this : positive) : option N :=
  table_size <$> maps w !! this.

(** ** Assumptions on the template parameters *)

(** [Equal] is an equivalence and [Hash] respects it. *)
Record lawful : Prop := {
  equal_refl : ∀ k, equal_func k k = true;
  equal_sym : ∀ k1 k2, equal_func k1 k2 = true → equal_func k2 k1 = true;
  equal_trans : ∀ k1 k2 k3,
    equal_func k1 k2 = true → equal_func k2 k3 = true → equal_func k1 k3 = true;
  hash_equal : ∀ k1 k2, equal_func k1 k2 = true → hash_func k1 = hash_func k2;
}.

(** ** Client code *)

(** Client code: a sequence of calls of [insert]. *)
Fixpoint insert_all (this : positive) (values : list (Key * T)) : M unit :=
  match values with
  | [] => ret tt
  | value :: rest => insert this value ;; insert_all this rest
  end.

(** A call on a container, and a history of calls. *)
Inductive op : Type :=
| Insert (value : Key * T)
| EraseKey (key : Key)
| Clear
| Index (key : Key).

(** [EraseKey key] is [it = find(key); if (it != end()) erase(it);]. *)
Definition run_op (this : positive) (o : op) : M unit :=
  match o with
  | Insert value => insert this value ;; ret tt
  | EraseKey key =>
      let* it := find this key in
      let* e := end_ this in
      if iterator_ne it e then erase this it else ret tt
  | Clear => clear this
  | Index key => operator_index this key ;; ret tt
  end.

Fixpoint run (this : positive) (ops : list op) : M unit :=
  match ops with
  | [] => ret tt
  | o :: rest => run_op this o ;; run this rest
  end.

(** ** Notions the specification speaks of *)

(** No two keys of the list are equal for [equal_func]. *)
Definition distinct_keys (keys : list Key) : Prop :=
  ∀ i j k1 k2, keys !! i = Some k1 → keys !! j = Some k2 →
               equal_func k1 k2 = true → i = j.

(** The keys of [values] are new to [s] and differ from each other. *)
Definition all_new (s : list entry) (values : list (Key * T)) : Prop :=
  (∀ value, value ∈ values → locate s (fst value) = None)
  ∧ distinct_keys (values.*1).

(** The container at [this] has room for [n] more entries: its sizes stay
    below 2^53, where the comparison of [insert] is exact, and [size_t]
    does not wrap. *)
Definition room (w : world) (this : positive) (n : nat) : Prop :=
  ∃ m, maps w !! this = Some m
       ∧ 3 * table_size m ≤ 2 ^ 54
       ∧ 8 * (element_count m + N.of_nat n) ≤ 2 ^ 54.

(** If [insert] has to grow the table of the container at [this], doubling
    its size does not wrap. *)
Definition can_grow (w : world) (this : positive) : Prop :=
  ∀ m, maps w !! this = Some m →
       3 * table_size m ≤ 4 * element_count m → table_size m * 2 < SIZE_MAX1.

(** The capacity after [n] insertions of new keys into a container of
    capacity [c] that holds [k] entries. *)
Fixpoint capacity_after (c k : N) (n : nat) : N :=
  match n with
  | O => c
  | S n' => capacity_after (if bool_decide (3 * c ≤ 4 * k) then 2 * c else c) (k + 1) n'
  end.

(** What a call on [this], whose nodes are [l], leaves as it was: every
    other object, and every other node that was allocated. *)
Definition kept (this : positive) (l : list positive) (w w' : world) : Prop :=
  (∀ that, that ≠ this → maps w' !! that = maps w !! that)
  ∧ (∀ x, x ∉ l → is_Some (nodes w !! x) → nodes w' !! x = nodes w !! x).

(** The value stored for key [k], by the words of the specification: an
    insertion stores its value unless the key is already there, an erasure
    of the key or a [clear] removes it, access-or-insert stores the default
    value unless the key is already there. *)
Definition stored_step (k : Key) (cur : option T) (o : op) : option T :=
  match o with
  | Insert value =>
      if equal_func (fst value) k
      then match cur with Some v0 => Some v0 | None => Some (snd value) end
      else cur
  | EraseKey key => if equal_func key k then None else cur
  | Clear => None
  | Index key =>
      if equal_func key k
      then match cur with Some v0 => Some v0 | None => Some T_default end
      else cur
  end.

Definition stored (ops : list op) (k : Key) : option T :=
  fold_left (stored_step k) ops None.

(** The value the entries [s] hold for [k]. *)
Definition value_of (s : list entry) (k : Key) : option T :=
  (λ e, snd (snd e)) <$> locate s k.

(** A computation that does not throw, whatever the memory. *)
Definition no_throw {A} (c : M A) : Prop := ∀ w e w', c w ≠ Throw e w'.

(** [this] is a copy of [other], made in the memory [w] and standing in
    [w']: both iterate to the entries [l], [this] has the capacity [other]
    had, the two share no node, and no history of calls on either changes
    what the other iterates to. *)
Definition copied (w w' : world) (this other : positive) (l : list (Key * T)) : Prop :=
  traverse this w' = Ok l w'
  ∧ traverse other w' = Ok l w'
  ∧ capacity w' this = capacity w other
  ∧ (∃ s' so', Rep w' this s' ∧ Rep w' other so' ∧ ∀ x, x ∈ s'.*1 → x ∉ so'.*1)
  ∧ (∀ ops, room w other (length ops) →
       (∃ w'', run this ops w' = Ok tt w'' ∧ traverse other w'' = Ok l w'')
       ∧ (∃ w'', run other ops w' = Ok tt w'' ∧ traverse this w'' = Ok l w'')).

(** ** Notions of the further properties *)

(** The heap apart from the nodes [l]. *)
Definition outside (w : world) (l : list positive) (x : positive) : option Node :=
  if decide (x ∈ l) then None else nodes w !! x.

(** A computation that leaves the memory as it is, whether it returns or
    throws. *)
Definition pure {A} (c : M A) : Prop :=
  ∀ w, match c w with
       | Ok _ w' | Throw _ w' => w' = w
       | Undefined | Diverge => True
       end.

(** The outcome of a step of an [iterator], seen as one of a
    [const_iterator]. *)
Definition as_const (o : outcome iterator.t) : outcome const_iterator.t :=
  match o with
  | Ok it w => Ok (const_iterator_of it) w
  | Throw e w => Throw e w
  | Undefined => Undefined
  | Diverge => Diverge
  end.

(** The same for the post-increment and the post-decrement, which return the
    cursor before the step beside the cursor after it. *)
Definition as_const_pair (o : outcome (iterator.t * iterator.t))
  : outcome (const_iterator.t * const_iterator.t) :=
  match o with
  | Ok (it, temp) w => Ok (const_iterator_of it, const_iterator_of temp) w
  | Throw e w => Throw e w
  | Undefined => Undefined
  | Diverge => Diverge
  end.

(** The list of entries as a client sees it: whether it has a key, the list
    without the entry of a key, and the list with the value of a key
    replaced. *)
Definition has_key (l : list (Key * T)) (key : Key) : bool :=
  existsb (λ d, equal_func (fst d) key) l.

Fixpoint remove_key (l : list (Key * T)) (key : Key) : list (Key * T) :=
  match l with
  | [] => []
  | d :: l' => if equal_func (fst d) key then l' else d :: remove_key l' key
  end.

Fixpoint set_value (l : list (Key * T)) (key : Key) (v : T) : list (Key * T) :=
  match l with
  | [] => []
  | d :: l' =>
      if equal_func (fst d) key then (fst d, v) :: l'
      else d :: set_value l' key v
  end.

(** What a call does to the list of entries. *)
Definition entries_step (l : list (Key * T)) (o : op) : list (Key * T) :=
  match o with
  | Insert value => if has_key l (fst value) then l else l ++ [value]
  | EraseKey key => remove_key l key
  | Clear => []
  | Index key => if has_key l key then l else l ++ [(key, T_default)]
  end.

Definition entries (ops : list op) : list (Key * T) :=
  fold_left entries_step ops [].

(** ** Stages of [insert] and [erase] *)

(** The part of [insert] that links the new node in: what runs once the key
    is known to be absent and the load has been checked. *)
Definition insert_link (this : positive) (value : Key * T) : M (iterator.t * bool) :=
  let* new_node := new_Node value in
  let* m := load_map this in
  (match head m with
   | None =>
       modify_map this (set_head (Some new_node)) ;;
       modify_map this (set_tail (Some new_node))
   | Some _ =>
       modify_node (tail m) (set_next (Some new_node)) ;;
       modify_node (Some new_node) (set_prev (tail m)) ;;
       modify_map this (set_tail (Some new_node))
   end) ;;
  let* m := load_map this in
  let* index := bucket (fst value) (table_size m) in
  let* b := table_get this index in
  modify_node (Some new_node) (set_hash_next b) ;;
  (match b with
   | Some _ => modify_node b (set_hash_prev (Some new_node))
   | None => ret tt
   end) ;;
  table_set this index (Some new_node) ;;
  modify_map this (λ m, set_element_count (wrap (element_count m + 1)) m) ;;
  ret (iterator.mk (Some new_node) (Some this), true).

(** The heap after [insert_link]: the new node [a], the old tail [t] and the
    old head [b] of the bucket are linked to each other, all else is as it
    was. *)
Definition linked_in (h : gmap positive Node) (a : positive) (value : Key * T)
    (t b : ptr) (h' : gmap positive Node) : Prop :=
  h' !! a = Some (mkNode value t None None b)
  ∧ ∀ x, x ≠ a →
      h' !! x = (λ n, mkNode (data n) (prev n)
                        (if decide (t = Some x) then Some a else next n)
                        (if decide (b = Some x) then Some a else hash_prev n)
                        (hash_next n)) <$> h !! x.

(** What a heap keeps of a node when only the chain links are rewritten. *)
Definition order_part (n : Node) : (Key * T) * ptr * ptr := (data n, prev n, next n).

(** The heap after [erase]: the node [a], which was [n], is gone and its
    neighbours in both lists are linked to each other. *)
Definition unlinked (h : gmap positive Node) (a : positive) (n : Node)
    (h' : gmap positive Node) : Prop :=
  h' !! a = None
  ∧ ∀ x, x ≠ a →
      h' !! x = (λ nx, mkNode (data nx)
                   (if decide (next n = Some x) then prev n else prev nx)
                   (if decide (prev n = Some x) then next n else next nx)
                   (if decide (hash_next n = Some x) then hash_prev n else hash_prev nx)
                   (if decide (hash_prev n = Some x) then hash_next n else hash_next nx))
                <$> h !! x.

(** ** Tactics *)

Ltac heap_lookup :=
  cbn [nodes maps];
  repeat first [ rewrite lookup_insert_eq
               | rewrite lookup_insert_ne by congruence
               | rewrite lookup_delete_eq
               | rewrite lookup_delete_ne by congruence ].

Ltac close_linked :=
  let x := fresh "x" in
  intros x ?; cbn [nodes maps]; rewrite ?lookup_insert;
  repeat (case_decide; simplify_eq/=);
  repeat match goal with
         | H : ?t = Some _ |- context [?t] => rewrite H
         | H : ?t = None |- context [?t] => rewrite H
         end;
  simpl; try done;
  try (destruct (_ !! x) as [[]|]; simpl; done).

Ltac size_lia :=
  change (2 ^ 54) with 18014398509481984 in *;
  change SIZE_MAX1 with 18446744073709551616 in *;
  lia.

(** ** Facts about doubly linked segments *)

Section dll_facts.

Variables gp gn : Node → ptr.
Implicit Types (h : gmap positive Node) (l : list positive) (p q : ptr).

Lemma first_or_app l1 l2 q : first_or (l1 ++ l2) q = first_or l1 (first_or l2 q).
Proof. by destruct l1. Qed.

Lemma last_or_app p l1 l2 : last_or p (l1 ++ l2) = last_or (last_or p l1) l2.
Proof.
  unfold last_or. destruct l2 as [|b l2 _] using rev_ind.
  - rewrite app_nil_r. simpl. by destruct (last l1).
  - by rewrite app_assoc, !last_snoc.
Qed.

Lemma last_or_cons p a l : last_or p (a :: l) = last_or (Some a) l.
Proof. apply (last_or_app p [a] l). Qed.

Lemma last_or_snoc p l a : last_or p (l ++ [a]) = Some a.
Proof. unfold last_or. by rewrite last_snoc. Qed.

Lemma dll_app h p l1 l2 q :
  dll gp gn h p (l1 ++ l2) q ↔
  dll gp gn h p l1 (first_or l2 q) ∧ dll gp gn h (last_or p l1) l2 q.
Proof.
  revert p. induction l1 as [|a l1 IH]; intros p; simpl.
  - unfold last_or. simpl. tauto.
  - rewrite last_or_cons, first_or_app. split.
    + intros (n & ? & ? & ? & Hd). apply IH in Hd as [??]. eauto 10.
    + intros [(n & ? & ? & ? & Hd) ?]. exists n. rewrite IH. eauto.
Qed.

(** A segment only reads the link fields of its own nodes. *)
Lemma dll_agree h h' p l q :
  (∀ a, a ∈ l → ∃ n n', h !! a = Some n ∧ h' !! a = Some n'
                        ∧ gp n' = gp n ∧ gn n' = gn n) →
  dll gp gn h p l q → dll gp gn h' p l q.
Proof.
  revert p. induction l as [|a l IH]; intros p Hag; simpl; [done|].
  intros (n & Ha & ? & ? & Hd).
  destruct (Hag a) as (n0 & n' & ? & ? & ? & ?); [left|].
  simplify_eq. exists n'. repeat split; try congruence.
  apply IH; [|done]. intros b Hb. apply Hag. by right.
Qed.

Lemma dll_allocated h p l q a :
  dll gp gn h p l q → a ∈ l → is_Some (h !! a).
Proof.
  revert p. induction l as [|b l IH]; intros p; simpl; [by intros _ ?%elem_of_nil|].
  intros (n & ? & ? & ? & Hd) [->|?]%elem_of_cons; eauto.
Qed.

(** Changing the outward links at both ends of a segment. *)
Lemma dll_change h h' p p' l q q' :
  NoDup l → dll gp gn h p l q →
  (∀ x n, x ∈ l → h !! x = Some n →
     ∃ n', h' !! x = Some n'
           ∧ gp n' = (if decide (first_or l None = Some x) then p' else gp n)
           ∧ gn n' = (if decide (last l = Some x) then q' else gn n)) →
  dll gp gn h' p' l q'.
Proof.
  revert p p'. induction l as [|a l IH]; intros p p' Hnd; simpl; [done|].
  apply NoDup_cons in Hnd as [Hnin Hnd].
  intros (n & Ha & Hp & Hn & Hd) Hch.
  destruct (Hch a n) as (n' & Ha' & Hp' & Hn'); [left|done|].
  rewrite decide_True in Hp' by done.
  exists n'. repeat split; [done..| |].
  - destruct l as [|b l]; simpl in *.
    + by rewrite decide_True in Hn'.
    + rewrite decide_False in Hn'; [congruence|].
      intros Hl. apply Hnin. change (last (b :: l) = Some a) in Hl.
      by apply last_Some_elem_of.
  - apply (IH (Some a)); [done..|]. intros x nx Hx Hnx.
    destruct (Hch x nx) as (nx' & Hx' & Hpx & Hnx'); [by right|done|].
    exists nx'. split; [done|].
    rewrite decide_False in Hpx by (intros [= ->]; done).
    destruct l as [|b l]; [by apply elem_of_nil in Hx|]. split; [|exact Hnx'].
    rewrite Hpx. simpl. destruct (decide (Some b = Some x)); [|done]. simplify_eq.
    simpl in Hd. destruct Hd as (nb & ? & ? & _). congruence.
Qed.

Lemma dll_first h p l q x n :
  dll gp gn h p l q → first_or l None = Some x → h !! x = Some n → gp n = p.
Proof. destruct l; simpl; [done|]. intros (? & ? & ? & _) [= ->] ?. congruence. Qed.

Lemma dll_last h p l q x n :
  dll gp gn h p l q → last l = Some x → h !! x = Some n → gn n = q.
Proof.
  destruct l as [|b l _] using rev_ind; [done|]. rewrite last_snoc, dll_app. simpl.
  intros [_ (? & ? & ? & ? & _)] [= ->] ?. congruence.
Qed.

(** Redirecting the forward link of the last node. *)
Lemma dll_set_last h h' p l q q' :
  NoDup l → dll gp gn h p l q →
  (∀ x n, x ∈ l → h !! x = Some n →
     ∃ n', h' !! x = Some n' ∧ gp n' = gp n
           ∧ gn n' = (if decide (last l = Some x) then q' else gn n)) →
  dll gp gn h' p l q'.
Proof.
  intros Hnd Hd Hch. eapply dll_change; [done..|]. intros x n Hx Hn.
  destruct (Hch x n Hx Hn) as (n' & ? & Hp & ?). exists n'. split; [done|].
  split; [|done]. destruct (decide (first_or l None = Some x)); [|done].
  rewrite Hp. by eapply dll_first.
Qed.

(** Redirecting the backward link of the first node. *)
Lemma dll_set_first h h' p p' l q :
  NoDup l → dll gp gn h p l q →
  (∀ x n, x ∈ l → h !! x = Some n →
     ∃ n', h' !! x = Some n' ∧ gn n' = gn n
           ∧ gp n' = (if decide (first_or l None = Some x) then p' else gp n)) →
  dll gp gn h' p' l q.
Proof.
  intros Hnd Hd Hch. eapply dll_change; [done..|]. intros x n Hx Hn.
  destruct (Hch x n Hx Hn) as (n' & ? & Hq & ?). exists n'. split; [done|].
  split; [done|]. destruct (decide (last l = Some x)); [|done].
  rewrite Hq. by eapply dll_last.
Qed.

(** A heap that keeps the links of the nodes of a segment keeps the
    segment. *)
Lemma dll_keep h h' p l q :
  dll gp gn h p l q →
  (∀ x n, x ∈ l → h !! x = Some n →
     ∃ n', h' !! x = Some n' ∧ gp n' = gp n ∧ gn n' = gn n) →
  dll gp gn h' p l q.
Proof.
  intros Hd Hch. eapply dll_agree; [|done]. intros a Ha.
  destruct (dll_allocated _ _ _ _ _ Hd Ha) as [n Hn].
  destruct (Hch a n Ha Hn) as (n' & ? & ? & ?). eauto 10.
Qed.

(** What the links of the node at position [i] are. *)
Lemma dll_lookup h p l q i a :
  dll gp gn h p l q → l !! i = Some a →
  ∃ n, h !! a = Some n
       ∧ gp n = match i with O => p | S j => l !! j end
       ∧ gn n = first_or (drop (S i) l) q.
Proof.
  revert p i. induction l as [|b l IH]; intros p i; simpl; [done|].
  intros (n & ? & ? & ? & Hd) Hi. destruct i as [|i]; simpl in *.
  - simplify_eq. exists n. by rewrite drop_0.
  - destruct (IH _ _ Hd Hi) as (na & ? & Hp & ?). exists na.
    repeat split; [done| |done]. rewrite Hp. by destruct i.
Qed.

End dll_facts.

(** ** Lookup *)

Implicit Types (w : world) (m : linked_hashmap) (this : positive) (key : Key).

Lemma length_le_size (h : gmap positive Node) (l : list positive) :
  NoDup l → (∀ a, a ∈ l → is_Some (h !! a)) → (length l ≤ base.size h)%nat.
Proof.
  intros Hnd Hal. rewrite <- size_dom, <- (size_list_to_set (C:=gset positive) l) by done.
  apply subseteq_size. intros a Ha. rewrite elem_of_list_to_set in Ha.
  apply elem_of_dom. auto.
Qed.

Lemma find_loop_chain w c key k p :
  dll hash_prev hash_next (nodes w) p c None → (length c < k)%nat →
  find_loop k key (first_or c None) w = Ok (chain_find (nodes w) c key) w.
Proof.
  revert k p. induction c as [|a c IH]; intros k p Hd Hk; simpl in *.
  - by destruct k.
  - destruct Hd as (n & Ha & _ & Hn & Hd). destruct k as [|k]; [lia|]. simpl.
    unfold bind, load_node. rewrite Ha.
    destruct (equal_func (fst (data n)) key); [done|].
    rewrite Hn. eapply IH; [done|lia].
Qed.

Lemma chain_find_Some h c key a :
  chain_find h c key = Some a →
  a ∈ c ∧ ∃ n, h !! a = Some n ∧ equal_func (fst (data n)) key = true.
Proof.
  induction c as [|b c IH]; simpl; [done|].
  destruct (h !! b) as [n|] eqn:Hb; [|done].
  destruct (equal_func (fst (data n)) key) eqn:He.
  - intros [= ->]. split; [left|eauto].
  - intros [??]%IH. split; [by right|done].
Qed.

Lemma chain_find_None h c key a n :
  chain_find h c key = None → (∀ b, b ∈ c → is_Some (h !! b)) →
  a ∈ c → h !! a = Some n → equal_func (fst (data n)) key = false.
Proof.
  induction c as [|b c IH]; simpl; [by intros _ _ ?%elem_of_nil|].
  intros Hf Hal Ha Hn. destruct (Hal b) as [nb Hb]; [left|]. rewrite Hb in Hf.
  destruct (equal_func (fst (data nb)) key) eqn:He; [done|].
  apply elem_of_cons in Ha as [->|Ha]; [congruence|].
  apply IH; auto. intros ??. apply Hal. by right.
Qed.

Lemma locate_Some s key e :
  locate s key = Some e → e ∈ s ∧ equal_func (fst (snd e)) key = true.
Proof.
  induction s as [|e' s IH]; simpl; [done|].
  destruct (equal_func (fst (snd e')) key) eqn:He.
  - intros [= ->]. split; [left|done].
  - intros [??]%IH. split; [by right|done].
Qed.

Lemma locate_None s key e :
  locate s key = None → e ∈ s → equal_func (fst (snd e)) key = false.
Proof.
  induction s as [|e' s IH]; simpl; [by intros _ ?%elem_of_nil|].
  destruct (equal_func (fst (snd e')) key) eqn:He; [done|].
  intros Hl [->|?]%elem_of_cons; auto.
Qed.

Lemma rep_size_pos h m s ch : rep h m s ch → 0 < table_size m.
Proof. intros Hr. destruct (rep_cap _ _ _ _ Hr) as [e ->]. lia. Qed.

Lemma rep_chain h m s ch :
  rep h m s ch → ∀ i, i < table_size m → dll hash_prev hash_next h None (ch i) None.
Proof. intros Hr. destruct (rep_table _ _ _ _ Hr) as (t & _ & Hb). apply Hb. Qed.

Lemma rep_chain_nodup h m s ch : rep h m s ch → ∀ i, NoDup (ch i).
Proof. intros Hr. destruct (rep_table _ _ _ _ Hr) as (t & _ & Hb). apply Hb. Qed.

Lemma rep_member h m s ch :
  rep h m s ch → ∀ i a, i < table_size m →
  a ∈ ch i ↔ ∃ d, (a, d) ∈ s ∧ hash_func (fst d) mod table_size m = i.
Proof. intros Hr. destruct (rep_table _ _ _ _ Hr) as (t & _ & Hb). apply Hb. Qed.

Lemma rep_allocated h m s ch a d : rep h m s ch → (a, d) ∈ s → ∃ n, h !! a = Some n ∧ data n = d.
Proof.
  intros Hr Ha. pose proof (rep_data _ _ _ _ Hr _ _ Ha) as Hd.
  destruct (h !! a) as [n|]; simplify_eq/=. eauto.
Qed.

Lemma rep_chain_allocated h m s ch i a :
  rep h m s ch → i < table_size m → a ∈ ch i → is_Some (h !! a).
Proof.
  intros Hr Hi Ha. apply (rep_member _ _ _ _ Hr) in Ha as (d & Hd & _); [|done].
  destruct (rep_allocated _ _ _ _ _ _ Hr Hd) as (n & ? & _). eauto.
Qed.

Section with_laws.
Hypothesis laws : lawful.

Lemma chain_find_locate h m s ch key :
  rep h m s ch →
  chain_find h (ch (hash_func key mod table_size m)) key = fst <$> locate s key.
Proof.
  intros Hr. pose proof (rep_size_pos _ _ _ _ Hr) as Hpos.
  set (i := hash_func key mod table_size m).
  assert (i < table_size m) as Hi by (apply N.mod_lt; lia).
  destruct (locate s key) as [[a d]|] eqn:Hl; simpl.
  - apply locate_Some in Hl as [Hin He]. simpl in He.
    assert (a ∈ ch i) as Hai.
    { apply (rep_member _ _ _ _ Hr); [done|]. exists d. split; [done|].
      unfold i. f_equal. by apply (hash_equal laws). }
    destruct (rep_allocated _ _ _ _ _ _ Hr Hin) as (n & Hn & Hdn).
    destruct (chain_find h (ch i) key) as [a'|] eqn:Hf.
    + apply chain_find_Some in Hf as (Ha' & n' & Hn' & He').
      apply (rep_member _ _ _ _ Hr) in Ha' as (d' & Hd' & _); [|done].
      destruct (rep_allocated _ _ _ _ _ _ Hr Hd') as (n'' & ? & <-). simplify_eq.
      f_equal. eapply (rep_keys _ _ _ _ Hr); [done..|].
      eapply (equal_trans laws); [done|]. by apply (equal_sym laws).
    + eapply chain_find_None in Hf; [| |done..].
      * subst d. congruence.
      * intros b Hb. by eapply rep_chain_allocated.
  - destruct (chain_find h (ch i) key) as [a'|] eqn:Hf; [|done].
    apply chain_find_Some in Hf as (Ha' & n' & Hn' & He').
    apply (rep_member _ _ _ _ Hr) in Ha' as (d' & Hd' & _); [|done].
    destruct (rep_allocated _ _ _ _ _ _ Hr Hd') as (n'' & ? & <-). simplify_eq.
    eapply locate_None in Hl; [|done]. simpl in Hl. congruence.
Qed.

Lemma find_node_spec w this s key :
  Rep w this s → find_node this key w = Ok (fst <$> locate s key) w.
Proof.
  intros (m & ch & Hm & Hr). pose proof (rep_size_pos _ _ _ _ Hr) as Hpos.
  assert (hash_func key mod table_size m < table_size m) as Hi by (apply N.mod_lt; lia).
  destruct (rep_table _ _ _ _ Hr) as (t & Ht & Hb).
  unfold find_node, bind, load_map, bucket, table_get, fuel. rewrite Hm.
  destruct (decide (table_size m = 0)) as [|_]; [lia|].
  unfold ret, bind, load_map. rewrite Hm, Ht, (bk_head _ _ _ _ _ Hb _ Hi).
  rewrite <- (chain_find_locate _ _ _ _ _ Hr).
  eapply (find_loop_chain w); [by apply (rep_chain _ _ _ _ Hr)|].
  apply Nat.lt_succ_r, length_le_size; [apply (rep_chain_nodup _ _ _ _ Hr)|].
  intros a Ha. by eapply rep_chain_allocated.
Qed.

End with_laws.

(** ** Running the primitives *)

Lemma bind_Ok {A B} (c : M A) (k : A → M B) w a w' :
  c w = Ok a w' → bind c k w = k a w'.
Proof. unfold bind. by intros ->. Qed.

Lemma load_map_Ok w this m : maps w !! this = Some m → load_map this w = Ok m w.
Proof. unfold load_map. by intros ->. Qed.

Lemma modify_map_Ok w this m f :
  maps w !! this = Some m →
  modify_map this f w = Ok tt (World (nodes w) (<[this := f m]> (maps w))).
Proof. unfold modify_map. by intros ->. Qed.

Lemma load_node_Ok w a n : nodes w !! a = Some n → load_node (Some a) w = Ok n w.
Proof. unfold load_node. by intros ->. Qed.

Lemma modify_node_Ok w a n f :
  nodes w !! a = Some n →
  modify_node (Some a) f w = Ok tt (World (<[a := f n]> (nodes w)) (maps w)).
Proof. unfold modify_node. by intros ->. Qed.

Lemma delete_node_Ok w a n :
  nodes w !! a = Some n →
  delete_node a w = Ok tt (World (delete a (nodes w)) (maps w)).
Proof. unfold delete_node. by intros ->. Qed.

Lemma table_get_Ok w this m t i p :
  maps w !! this = Some m → hash_table m = Some t → t !! N.to_nat i = Some p →
  table_get this i w = Ok p w.
Proof. intros Hm Ht Hi. unfold table_get, bind, load_map. by rewrite Hm, Ht, Hi. Qed.

Lemma table_set_Ok w this m t i p :
  maps w !! this = Some m → hash_table m = Some t → (N.to_nat i < length t)%nat →
  table_set this i p w
  = Ok tt (World (nodes w)
             (<[this := set_hash_table (Some (<[N.to_nat i := p]> t)) m]> (maps w))).
Proof.
  intros Hm Ht Hi. unfold table_set, bind, load_map. rewrite Hm, Ht.
  rewrite decide_True by done. by apply modify_map_Ok.
Qed.

Lemma bucket_Ok w key size :
  size ≠ 0 → bucket key size w = Ok (hash_func key mod size) w.
Proof. intros. unfold bucket. by rewrite decide_False. Qed.

Lemma insert_unfold this value :
  insert this value =
  let* existing := find_node this (fst value) in
  match existing with
  | Some _ => ret (iterator.mk existing (Some this), false)
  | None =>
      let* m := load_map this in
      (if load_reached m then rehash this else ret tt) ;;
      insert_link this value
  end.
Proof. reflexivity. Qed.

Lemma insert_link_run h ms this m value tb b a :
  ms !! this = Some m →
  (head m = None → tail m = None) →
  (∀ x, head m = Some x → ∃ t, tail m = Some t ∧ is_Some (h !! t)) →
  table_size m ≠ 0 →
  hash_table m = Some tb →
  tb !! N.to_nat (hash_func (fst value) mod table_size m) = Some b →
  (∀ x, b = Some x → is_Some (h !! x)) →
  a = fresh (dom h) →
  ∃ h',
    insert_link this value (World h ms)
    = Ok (iterator.mk (Some a) (Some this), true)
        (World h' (<[this :=
           mkMap (match head m with None => Some a | Some x => Some x end)
             (Some a)
             (Some (<[N.to_nat (hash_func (fst value) mod table_size m) := Some a]> tb))
             (table_size m) (wrap (element_count m + 1))]> ms))
    ∧ linked_in h a value (tail m) b h'.
Proof.
  intros Hm Hhn Hhs Hsz Htb Hb Hba Ha.
  assert (h !! a = None) as Hfresh.
  { subst a. apply not_elem_of_dom, is_fresh. }
  assert (N.to_nat (hash_func value.1 `mod` table_size m) < length tb)%nat as Hlen.
  { by eapply lookup_lt_Some. }
  unfold insert_link.
  erewrite bind_Ok; [|reflexivity]. cbn [nodes maps]. rewrite <- Ha. clear Ha.
  erewrite bind_Ok; [|by apply load_map_Ok].
  destruct m as [hd tl ht ts ec]; simpl in *. simplify_eq.
  destruct hd as [hd|].
  - destruct (Hhs hd eq_refl) as (t & -> & [nt Hnt]).
    assert (t ≠ a) as Hta by congruence.
    erewrite bind_Ok.
    2:{ erewrite bind_Ok; [|apply modify_node_Ok; simpl; by rewrite lookup_insert_ne].
        erewrite bind_Ok; [|apply modify_node_Ok; simpl; rewrite lookup_insert_ne by done; apply lookup_insert_eq].
        apply modify_map_Ok. done. }
    simpl.
    erewrite bind_Ok; [|apply load_map_Ok; simpl; apply lookup_insert_eq].
    erewrite bind_Ok; [|by apply bucket_Ok].
    erewrite bind_Ok; [|eapply table_get_Ok; [apply lookup_insert_eq|done..]].
    erewrite bind_Ok; [|apply modify_node_Ok; apply lookup_insert_eq].
    simpl.
    destruct b as [b|].
    + destruct (Hba b eq_refl) as [nb Hnb].
      assert (b ≠ a) as Hbna by congruence.
      destruct (decide (t = b)) as [->|Htb]; eexists.
      * erewrite bind_Ok; [|apply modify_node_Ok; heap_lookup; reflexivity].
        erewrite bind_Ok; [|eapply table_set_Ok; [apply lookup_insert_eq|done..]].
        erewrite bind_Ok; [|eapply modify_map_Ok; apply lookup_insert_eq].
        simpl. rewrite !insert_insert_eq. split; [reflexivity|].
        split; [by heap_lookup|close_linked].
      * erewrite bind_Ok; [|apply modify_node_Ok; heap_lookup; done].
        erewrite bind_Ok; [|eapply table_set_Ok; [apply lookup_insert_eq|done..]].
        erewrite bind_Ok; [|eapply modify_map_Ok; apply lookup_insert_eq].
        simpl. rewrite !insert_insert_eq. split; [reflexivity|].
        split; [by heap_lookup|close_linked].
    + eexists.
      erewrite bind_Ok; [|reflexivity].
      erewrite bind_Ok; [|eapply table_set_Ok; [apply lookup_insert_eq|done..]].
      erewrite bind_Ok; [|eapply modify_map_Ok; apply lookup_insert_eq].
      simpl. rewrite !insert_insert_eq. split; [reflexivity|].
      split; [by heap_lookup|close_linked].
  - rewrite (Hhn eq_refl).
    erewrite bind_Ok.
    2:{ erewrite bind_Ok; [|by apply modify_map_Ok].
        apply modify_map_Ok. apply lookup_insert_eq. }
    simpl.
    erewrite bind_Ok; [|apply load_map_Ok; simpl; apply lookup_insert_eq].
    erewrite bind_Ok; [|by apply bucket_Ok].
    erewrite bind_Ok; [|eapply table_get_Ok; [apply lookup_insert_eq|done..]].
    erewrite bind_Ok; [|apply modify_node_Ok; apply lookup_insert_eq].
    simpl.
    destruct b as [b|].
    + destruct (Hba b eq_refl) as [nb Hnb].
      assert (b ≠ a) as Hbna by congruence. eexists.
      erewrite bind_Ok; [|apply modify_node_Ok; heap_lookup; done].
      erewrite bind_Ok; [|eapply table_set_Ok; [apply lookup_insert_eq|done..]].
      erewrite bind_Ok; [|eapply modify_map_Ok; apply lookup_insert_eq].
      simpl. rewrite !insert_insert_eq. split; [reflexivity|].
      split; [by heap_lookup|close_linked].
    + eexists.
      erewrite bind_Ok; [|reflexivity].
      erewrite bind_Ok; [|eapply table_set_Ok; [apply lookup_insert_eq|done..]].
      erewrite bind_Ok; [|eapply modify_map_Ok; apply lookup_insert_eq].
      simpl. rewrite !insert_insert_eq. split; [reflexivity|].
      split; [by heap_lookup|close_linked].
Qed.

Lemma last_or_None_Some l x : last_or None l = Some x ↔ last l = Some x.
Proof. unfold last_or. by destruct (last l). Qed.

Lemma wrap_small x : x < SIZE_MAX1 → wrap x = x.
Proof. intros. unfold wrap. by apply N.mod_small. Qed.

Lemma NoDup_fst_agree {A B : Type} (l : list (A * B)%type) (x : A) (y1 y2 : B) :
  NoDup (l.*1) → (x, y1) ∈ l → (x, y2) ∈ l → y1 = y2.
Proof.
  induction l as [|[x' y'] l IH]; simpl; [by intros _ ?%elem_of_nil|].
  intros [Hnin Hnd]%NoDup_cons [?|H1]%elem_of_cons [?|H2]%elem_of_cons; simplify_eq.
  - done.
  - destruct Hnin. apply list_elem_of_fmap. eexists. split; [|eassumption]. done.
  - destruct Hnin. apply list_elem_of_fmap. eexists. split; [|eassumption]. done.
  - eauto.
Qed.

(** Pushing a node on the front of its chain. *)
Lemma buckets_push h h' size t ch s a d :
  buckets h size t ch s →
  size ≠ 0 →
  NoDup (s.*1) →
  (∀ x d, (x, d) ∈ s → is_Some (h !! x)) →
  a ∉ s.*1 →
  (∃ n, h' !! a = Some n ∧ hash_prev n = None
        ∧ hash_next n = first_or (ch (hash_func (fst d) mod size)) None) →
  (∀ x n, x ≠ a → h !! x = Some n →
     ∃ n', h' !! x = Some n' ∧ hash_next n' = hash_next n
           ∧ hash_prev n' =
               if decide (first_or (ch (hash_func (fst d) mod size)) None = Some x)
               then Some a else hash_prev n) →
  buckets h' size (<[N.to_nat (hash_func (fst d) mod size) := Some a]> t)
    (λ j, if decide (j = hash_func (fst d) mod size) then a :: ch j else ch j)
    (s ++ [(a, d)]).
Proof.
  intros Hb Hsz Hnd Hal Hna (na & Ha & Hap & Han) Hx.
  set (idx := hash_func (fst d) mod size) in *.
  assert (idx < size) as Hidx by (apply N.mod_lt; lia).
  assert (∀ i x, i < size → x ∈ ch i → x ∈ s.*1) as Hin.
  { intros i x Hi Hxi. apply (bk_member _ _ _ _ _ Hb) in Hxi as (dx & ? & _); [|done].
    apply list_elem_of_fmap. by exists (x, dx). }
  assert (∀ i x, i < size → x ∈ ch i → x ≠ a) as Hnec.
  { intros i x Hi Hxi ->. eauto. }
  assert (∀ i x, i < size → x ∈ ch i → is_Some (h !! x)) as Halc.
  { intros i x Hi Hxi. apply (bk_member _ _ _ _ _ Hb) in Hxi as (dx & ? & _); eauto. }
  split.
  - rewrite length_insert. apply (bk_length _ _ _ _ _ Hb).
  - intros i Hi. pose proof (bk_length _ _ _ _ _ Hb). case_decide as Hd.
    + subst i. rewrite list_lookup_insert_eq by lia. done.
    + rewrite list_lookup_insert_ne by lia. by apply (bk_head _ _ _ _ _ Hb).
  - intros i Hi. case_decide as Hd.
    + subst i. simpl. exists na. split; [done|]. split; [done|]. split; [done|].
      eapply dll_set_first; [apply (bk_nodup _ _ _ _ _ Hb)|by apply (bk_chain _ _ _ _ _ Hb)|].
      intros x n Hxi Hn. destruct (Hx x n) as (n' & ? & ? & ?); eauto.
    + eapply dll_keep; [by apply (bk_chain _ _ _ _ _ Hb)|].
      intros x n Hxi Hn. destruct (Hx x n) as (n' & ? & ? & Hp); eauto.
      exists n'. split; [done|]. split; [|done]. rewrite Hp.
      rewrite decide_False; [done|]. intros Hf.
      assert (x ∈ ch idx) as Hxi'.
      { destruct (ch idx); simplify_eq/=. left. }
      apply (bk_member _ _ _ _ _ Hb) in Hxi as (d1 & Hd1 & Hd2); [|done].
      apply (bk_member _ _ _ _ _ Hb) in Hxi' as (d1' & Hd1' & Hd2'); [|done].
      assert (d1 = d1') as ->; [|congruence].
      eapply (NoDup_fst_agree s); eauto.
  - intros i. case_decide; [|apply (bk_nodup _ _ _ _ _ Hb)].
    apply NoDup_cons. split; [|apply (bk_nodup _ _ _ _ _ Hb)].
    subst i. intros Hxi. by eapply Hnec.
  - intros i x Hi. case_decide as Hd.
    + subst i. rewrite elem_of_cons, (bk_member _ _ _ _ _ Hb) by done.
      setoid_rewrite elem_of_app. setoid_rewrite list_elem_of_singleton. split.
      * intros [->|(dx & ? & ?)]; eauto.
      * intros (dx & [?|?] & ?); simplify_eq; eauto.
    + rewrite (bk_member _ _ _ _ _ Hb) by done.
      setoid_rewrite elem_of_app. setoid_rewrite list_elem_of_singleton. split.
      * intros (dx & ? & ?); eauto.
      * intros (dx & [?|?] & ?); simplify_eq/=; eauto.
Qed.

Section insert_facts.
Hypothesis laws : lawful.

Lemma rep_linked_in h m s ch a key v tb h' :
  rep h m s ch →
  h !! a = None →
  locate s key = None →
  4 * (element_count m + 1) ≤ 3 * table_size m →
  table_size m < SIZE_MAX1 →
  hash_table m = Some tb →
  linked_in h a (key, v) (tail m)
    (first_or (ch (hash_func key mod table_size m)) None) h' →
  rep h'
    (mkMap (match head m with None => Some a | Some x => Some x end)
       (Some a)
       (Some (<[N.to_nat (hash_func key mod table_size m) := Some a]> tb))
       (table_size m) (wrap (element_count m + 1)))
    (s ++ [(a, (key, v))])
    (λ i, if decide (i = hash_func key mod table_size m) then a :: ch i else ch i).
Proof.
  intros Hr Hfresh Hloc Hload Hsmall Htb [Ha Hx].
  pose proof (rep_size_pos _ _ _ _ Hr) as Hpos.
  assert (∀ x, x ∈ s.*1 → x ≠ a) as Hne.
  { intros x Hin ->. apply list_elem_of_fmap in Hin as ([x d] & -> & Hin).
    destruct (rep_allocated _ _ _ _ _ _ Hr Hin) as (? & ? & _). simpl in *. congruence. }
  assert (wrap (element_count m + 1) = element_count m + 1) as Hwrap.
  { apply wrap_small. lia. }
  assert ((s ++ [(a, (key, v))]).*1 = s.*1 ++ [a]) as Hfst by (by rewrite fmap_app).
  split; simpl; rewrite ?Hfst.
  - rewrite first_or_app. rewrite (rep_head _ _ _ _ Hr). by destruct (s.*1).
  - by rewrite last_or_snoc.
  - apply NoDup_app. split; [apply (rep_nodup _ _ _ _ Hr)|].
    split; [|apply NoDup_singleton]. intros x Hin ->%list_elem_of_singleton.
    by eapply Hne.
  - apply dll_app. split; simpl.
    + eapply dll_set_last; [apply (rep_nodup _ _ _ _ Hr)|apply (rep_order _ _ _ _ Hr)|].
      intros x n Hin Hn. rewrite Hx, Hn by by apply Hne. simpl.
      eexists. split; [done|]. split; [done|]. simpl.
      rewrite (rep_tail _ _ _ _ Hr).
      destruct (decide (last_or None s.*1 = Some x)) as [Hl|Hl];
        destruct (decide (last s.*1 = Some x)) as [Hl'|Hl']; try done;
        rewrite last_or_None_Some in Hl; done.
    + eexists. split; [done|]. simpl. by rewrite (rep_tail _ _ _ _ Hr).
  - intros x d [Hin|Hin]%elem_of_app.
    + rewrite Hx by (apply Hne; apply list_elem_of_fmap; by exists (x, d)).
      destruct (rep_allocated _ _ _ _ _ _ Hr Hin) as (n & -> & <-). done.
    + apply list_elem_of_singleton in Hin. simplify_eq. by rewrite Ha.
  - intros a1 d1 a2 d2 [H1|H1]%elem_of_app [H2|H2]%elem_of_app;
      rewrite ?list_elem_of_singleton in *; simplify_eq; simpl.
    + by apply (rep_keys _ _ _ _ Hr).
    + intros He. eapply locate_None in Hloc; [|done]. simpl in *. congruence.
    + intros He%(equal_sym laws). eapply locate_None in Hloc; [|done]. simpl in *. congruence.
    + done.
  - rewrite Hwrap, length_app, (rep_count _ _ _ _ Hr). simpl. lia.
  - apply (rep_cap _ _ _ _ Hr).
  - done.
  - lia.
  - destruct (rep_table _ _ _ _ Hr) as (t & Ht & Hb). simplify_eq.
    eexists. split; [done|].
    apply (buckets_push h h' _ _ _ _ a (key, v)); try done.
    + lia.
    + apply (rep_nodup _ _ _ _ Hr).
    + intros x d Hin. destruct (rep_allocated _ _ _ _ _ _ Hr Hin) as (? & ? & _). eauto.
    + intros Hin. by eapply Hne.
    + eexists. split; [done|]. done.
    + intros x n Hxa Hn. rewrite Hx, Hn by done. simpl. eauto.
Qed.

End insert_facts.

(** ** Growth *)

Lemma buckets_empty h size :
  buckets h size (replicate (N.to_nat size) None) (λ _, []) [].
Proof.
  split; simpl.
  - apply length_replicate.
  - intros i Hi. apply lookup_replicate_2. lia.
  - done.
  - intros _. apply NoDup_nil_2.
  - intros i a _. split; [by intros ?%elem_of_nil|]. by intros (d & ?%elem_of_nil & _).
Qed.

Lemma rehash_loop_run k size s1 s2 h p t ch ms :
  size ≠ 0 →
  NoDup ((s1 ++ s2).*1) →
  dll prev next h p (s2.*1) None →
  (∀ x d, (x, d) ∈ s1 ++ s2 → data <$> h !! x = Some d) →
  buckets h size t ch s1 →
  (length s2 < k)%nat →
  ∃ h' t' ch',
    rehash_loop k size t (first_or (s2.*1) None) (World h ms) = Ok t' (World h' ms)
    ∧ buckets h' size t' ch' (s1 ++ s2)
    ∧ (∀ x, order_part <$> h' !! x = order_part <$> h !! x)
    ∧ (∀ x, x ∉ (s1 ++ s2).*1 → h' !! x = h !! x).
Proof.
  intros Hsz. revert k s1 h p t ch.
  induction s2 as [|[a d] s2 IH]; intros k s1 h p t ch Hnd Hd Hdata Hb Hk.
  - exists h, t, ch. rewrite app_nil_r. destruct k; done.
  - destruct k as [|k]; [simpl in Hk; lia|].
    simpl in Hd. destruct Hd as (n & Ha & _ & Hnext & Hd).
    assert (data n = d) as Hdn.
    { specialize (Hdata a d). rewrite Ha in Hdata. simpl in Hdata.
      assert (Some (data n) = Some d) as [= ?]; [|done].
      apply Hdata. apply elem_of_app. right. left. }
    set (idx := hash_func (fst d) mod size).
    assert (idx < size) as Hidx by (apply N.mod_lt; lia).
    rewrite fmap_app in Hnd. simpl in Hnd.
    assert ((a ∉ s1.*1) ∧ (a ∉ s2.*1) ∧ NoDup (s1.*1)) as (Hna1 & Hna2 & Hnd1).
    { apply NoDup_app in Hnd as (? & Hdis & [??]%NoDup_cons).
      split; [|done]. intros ?. eapply Hdis; [done|left]. }
    assert (∀ x dx, (x, dx) ∈ s1 → is_Some (h !! x)) as Hal.
    { intros x dx Hin. specialize (Hdata x dx). destruct (h !! x); [done|].
      discriminate Hdata. apply elem_of_app. by left. }
    set (b := first_or (ch idx) None).
    assert (∀ x, b = Some x → x ≠ a ∧ is_Some (h !! x)) as Hbx.
    { intros x Hx. assert (x ∈ ch idx) as Hin.
      { unfold b in Hx. destruct (ch idx); simplify_eq/=. left. }
      apply (bk_member _ _ _ _ _ Hb) in Hin as (dx & Hin & _); [|done].
      split; [|by eauto]. intros ->. apply Hna1, list_elem_of_fmap. by exists (a, dx). }
    set (na := set_hash_next b (set_hash_prev None n)).
    set (h1 := <[a := na]> (<[a := set_hash_prev None n]> h)).
    assert (∃ h2,
      (match b with
       | Some _ => modify_node b (set_hash_prev (Some a))
       | None => ret tt
       end) (World h1 ms) = Ok tt (World h2 ms)
      ∧ h2 !! a = Some na
      ∧ ∀ x, x ≠ a →
          h2 !! x = (λ n, mkNode (data n) (prev n) (next n)
                            (if decide (b = Some x) then Some a else hash_prev n)
                            (hash_next n)) <$> h !! x) as (h2 & Hrun & Ha2 & Hx2).
    { destruct b as [b'|] eqn:Hbe.
      - destruct (Hbx b' eq_refl) as [Hne [nb Hnb]].
        eexists. split; [apply modify_node_Ok; unfold h1; heap_lookup; done|].
        unfold h1. split; [by heap_lookup|]. close_linked.
      - exists h1. split; [done|]. unfold h1. split; [by heap_lookup|]. close_linked. }
    destruct (IH k (s1 ++ [(a, d)]) h2 (Some a) (<[N.to_nat idx := Some a]> t)
                (λ j, if decide (j = idx) then a :: ch j else ch j))
      as (h' & t' & ch' & Hloop & Hb' & Hord & Hframe).
    + by rewrite <- app_assoc, fmap_app.
    + eapply dll_keep; [done|]. intros x nx Hin Hnx.
      assert (x ≠ a) as Hxa by (intros ->; done).
      rewrite Hx2, Hnx by done. simpl. eauto.
    + intros x dx Hin. rewrite <- app_assoc in Hin. simpl in Hin.
      specialize (Hdata x dx Hin). destruct (decide (x = a)) as [->|].
      * rewrite Ha2. rewrite Ha in Hdata. done.
      * rewrite Hx2 by done. destruct (h !! x); done.
    + apply (buckets_push h h2); try done.
      * exists na. done.
      * intros x nx Hxa Hnx. rewrite Hx2, Hnx by done. simpl. eauto.
    + simpl in Hk. lia.
    + exists h', t', ch'. split; [|split; [by rewrite <- app_assoc in Hb'|split]].
      * simpl. erewrite bind_Ok; [|by apply load_node_Ok].
        rewrite Hdn. erewrite bind_Ok; [|by apply bucket_Ok].
        erewrite bind_Ok; [|by apply modify_node_Ok].
        cbn [nodes maps]. fold idx. rewrite (bk_head _ _ _ _ _ Hb idx Hidx). fold b.
        erewrite bind_Ok; [|apply modify_node_Ok; apply lookup_insert_eq].
        cbn [nodes maps]. fold na. fold h1.
        erewrite bind_Ok; [|exact Hrun].
        erewrite bind_Ok; [|by apply load_node_Ok].
        replace (next na) with (first_or s2.*1 None) by (symmetry; exact Hnext).
        exact Hloop.
      * intros x. rewrite Hord. destruct (decide (x = a)) as [->|].
        -- rewrite Ha2, Ha. done.
        -- rewrite Hx2 by done. by destruct (h !! x).
      * intros x Hxn. rewrite fmap_app in Hxn. simpl in Hxn.
        rewrite Hframe by (by rewrite <- app_assoc, fmap_app).
        assert (x ≠ a) as Hxa.
        { intros ->. apply Hxn. apply elem_of_app. right. left. }
        rewrite Hx2 by done. destruct (h !! x) as [[]|] eqn:Hhx; [|done]. simpl.
        rewrite decide_False; [done|]. intros Hbe.
        assert (x ∈ ch idx) as Hin.
        { unfold b in Hbe. destruct (ch idx); simplify_eq/=. left. }
        apply (bk_member _ _ _ _ _ Hb) in Hin as (dx & Hin & _); [|done].
        apply Hxn. apply elem_of_app. left. apply list_elem_of_fmap. by exists (x, dx).
Qed.

Lemma order_part_dom (h h' : gmap positive Node) :
  (∀ x, order_part <$> h' !! x = order_part <$> h !! x) → dom h' = dom h.
Proof.
  intros Hx. apply set_eq. intros x. rewrite !elem_of_dom.
  specialize (Hx x). destruct (h' !! x), (h !! x); simplify_eq/=; split; by eauto.
Qed.

Lemma order_part_lookup (h h' : gmap positive Node) x n :
  order_part <$> h' !! x = order_part <$> h !! x → h !! x = Some n →
  ∃ n', h' !! x = Some n' ∧ data n' = data n ∧ prev n' = prev n ∧ next n' = next n.
Proof.
  intros Hx Hn. rewrite Hn in Hx. destruct (h' !! x) as [n'|]; [|done].
  injection Hx as ???. eauto.
Qed.

Lemma rehash_run h ms this m s ch :
  ms !! this = Some m →
  rep h m s ch →
  table_size m * 2 < SIZE_MAX1 →
  ∃ h' m' ch',
    rehash this (World h ms) = Ok tt (World h' (<[this := m']> ms))
    ∧ rep h' m' s ch'
    ∧ table_size m' = 2 * table_size m
    ∧ element_count m' = element_count m
    ∧ (∀ x, order_part <$> h' !! x = order_part <$> h !! x)
    ∧ (∀ x, x ∉ s.*1 → h' !! x = h !! x).
Proof.
  intros Hm Hr Hsmall. pose proof (rep_size_pos _ _ _ _ Hr) as Hpos.
  assert (wrap (table_size m * 2) = 2 * table_size m) as Hw.
  { rewrite wrap_small by done. lia. }
  destruct (rehash_loop_run (S (base.size h)) (2 * table_size m) [] s h None
              (replicate (N.to_nat (2 * table_size m)) None) (λ _, []) ms)
    as (h' & t' & ch' & Hloop & Hb & Hord & Hframe).
  { lia. }
  { apply (rep_nodup _ _ _ _ Hr). }
  { apply (rep_order _ _ _ _ Hr). }
  { apply (rep_data _ _ _ _ Hr). }
  { apply buckets_empty. }
  { apply Nat.lt_succ_r. rewrite <- (length_fmap fst s).
    apply length_le_size; [apply (rep_nodup _ _ _ _ Hr)|].
    intros a Ha. by eapply dll_allocated; [apply (rep_order _ _ _ _ Hr)|]. }
  simpl in Hb, Hframe.
  exists h', (set_table_size (2 * table_size m) (set_hash_table (Some t') m)), ch'.
  split; [|split; [|done]].
  - unfold rehash. erewrite bind_Ok; [|by apply load_map_Ok].
    cbv zeta. rewrite Hw. erewrite bind_Ok; [|reflexivity].
    cbn [nodes maps]. rewrite <- (rep_head _ _ _ _ Hr) in Hloop.
    erewrite bind_Ok; [|exact Hloop].
    erewrite bind_Ok; [|by apply modify_map_Ok].
    erewrite modify_map_Ok; [|apply lookup_insert_eq].
    cbn [nodes maps]. by rewrite insert_insert_eq.
  - destruct Hr as [Hhead Htail Hnd Hord' Hdata Hkeys Hcount [e He] Hrange Hload Htab].
    split; simpl; try done.
    + eapply dll_keep; [done|]. intros x n Hin Hn.
      destruct (order_part_lookup _ _ _ _ (Hord x) Hn) as (n' & ? & ? & ? & ?). eauto.
    + intros a d Hin. specialize (Hdata a d Hin).
      destruct (h !! a) as [n|] eqn:Hn; [|done].
      destruct (order_part_lookup _ _ _ _ (Hord a) Hn) as (n' & -> & ? & ? & ?).
      simpl in *. congruence.
    + exists (e + 1). rewrite He, N.pow_add_r. lia.
    + lia.
    + lia.
    + eauto.
Qed.

Lemma rep_empty_iff h m s ch : rep h m s ch → head m = None ↔ s = [].
Proof.
  intros Hr. rewrite (rep_head _ _ _ _ Hr). destruct s; simpl; split; done.
Qed.

Lemma rep_tail_allocated h m s ch t :
  rep h m s ch → tail m = Some t → is_Some (h !! t).
Proof.
  intros Hr. rewrite (rep_tail _ _ _ _ Hr), last_or_None_Some.
  intros Hl%last_Some_elem_of. by eapply dll_allocated; [apply (rep_order _ _ _ _ Hr)|].
Qed.

Section insert_run.
Hypothesis laws : lawful.

Lemma insert_link_rep h ms this m s ch key v :
  ms !! this = Some m →
  rep h m s ch →
  locate s key = None →
  4 * (element_count m + 1) ≤ 3 * table_size m →
  table_size m < SIZE_MAX1 →
  ∃ h' m' ch',
    insert_link this (key, v) (World h ms)
    = Ok (iterator.mk (Some (fresh (dom h))) (Some this), true)
        (World h' (<[this := m']> ms))
    ∧ rep h' m' (s ++ [(fresh (dom h), (key, v))]) ch'
    ∧ table_size m' = table_size m
    ∧ h !! fresh (dom h) = None
    ∧ (∀ x, x ∉ s.*1 → x ≠ fresh (dom h) → h' !! x = h !! x).
Proof.
  intros Hm Hr Hloc Hload Hsmall.
  pose proof (rep_size_pos _ _ _ _ Hr) as Hpos.
  destruct (rep_table _ _ _ _ Hr) as (tb & Htb & Hb).
  set (idx := hash_func key mod table_size m).
  assert (idx < table_size m) as Hidx by (apply N.mod_lt; lia).
  set (a := fresh (dom h)).
  assert (h !! a = None) as Hfresh by apply not_elem_of_dom, is_fresh.
  destruct (insert_link_run h ms this m (key, v) tb (first_or (ch idx) None) a)
    as (h' & Hrun & Hlink); try done.
  - intros Hh. apply (rep_empty_iff _ _ _ _ Hr) in Hh as ->.
    by rewrite (rep_tail _ _ _ _ Hr).
  - intros x Hx. destruct (tail m) as [t|] eqn:Ht.
    + exists t. split; [done|]. by eapply rep_tail_allocated.
    + rewrite (rep_tail _ _ _ _ Hr) in Ht. rewrite (rep_head _ _ _ _ Hr) in Hx.
      destruct (s.*1) as [|y l _] using rev_ind; [done|].
      by rewrite last_or_snoc in Ht.
  - lia.
  - by apply (bk_head _ _ _ _ _ Hb).
  - intros x Hx. eapply (rep_chain_allocated _ _ _ _ idx); [done..|].
    destruct (ch idx); simplify_eq/=. left.
  - eexists _, _, _. split; [exact Hrun|]. split; [|split; [done|split; [done|]]].
    + by eapply rep_linked_in.
    + intros x Hx Hxa. destruct Hlink as [_ Hl]. rewrite Hl by done.
      destruct (h !! x) as [[]|] eqn:Hhx; [|done]. simpl.
      rewrite !decide_False; [done| |].
      * intros Hf. apply Hx. eapply (bk_member _ _ _ _ _ Hb idx) in Hidx as Hmem.
        assert (x ∈ ch idx) as Hin by (destruct (ch idx); simplify_eq/=; left).
        apply Hmem in Hin as (d & ? & _). apply list_elem_of_fmap. by exists (x, d).
      * rewrite (rep_tail _ _ _ _ Hr), last_or_None_Some.
        intros Hl'%last_Some_elem_of. done.
Qed.

Lemma insert_absent h ms this m s ch key v :
  ms !! this = Some m →
  rep h m s ch →
  locate s key = None →
  (3 * table_size m ≤ 4 * element_count m → table_size m * 2 < SIZE_MAX1) →
  ∃ h' m' ch',
    insert this (key, v) (World h ms)
    = Ok (iterator.mk (Some (fresh (dom h))) (Some this), true)
        (World h' (<[this := m']> ms))
    ∧ rep h' m' (s ++ [(fresh (dom h), (key, v))]) ch'
    ∧ table_size m' = (if load_reached m then 2 * table_size m else table_size m)
    ∧ h !! fresh (dom h) = None
    ∧ (∀ x, x ∉ s.*1 → x ≠ fresh (dom h) → h' !! x = h !! x).
Proof.
  intros Hm Hr Hloc Hsmall. pose proof (rep_size_pos _ _ _ _ Hr) as Hpos.
  destruct (rep_cap _ _ _ _ Hr) as [e He].
  pose proof (rep_load _ _ _ _ Hr) as Hload.
  rewrite insert_unfold. cbn [fst].
  erewrite bind_Ok; [|apply (find_node_spec laws _ _ s); by exists m, ch].
  rewrite Hloc. simpl. erewrite bind_Ok; [|by apply load_map_Ok].
  unfold load_reached. case_bool_decide as Hreach.
  - specialize (Hsmall Hreach).
    destruct (rehash_run h ms this m s ch) as (h1 & m1 & ch1 & Hrun & Hr1 & Hts & Hec & Hord & Hframe);
      [done..|].
    erewrite bind_Ok; [|exact Hrun].
    destruct (insert_link_rep h1 (<[this := m1]> ms) this m1 s ch1 key v)
      as (h' & m' & ch' & Hrun' & Hr' & Hts' & Hfresh & Hframe'); try done.
    + apply lookup_insert_eq.
    + lia.
    + lia.
    + rewrite insert_insert_eq in Hrun'. rewrite (order_part_dom _ _ Hord) in *.
      eexists _, _, _. split; [exact Hrun'|]. split; [done|]. split; [lia|].
      rewrite <- Hframe.
      2:{ intros Hin. eapply dll_allocated in Hin as [? Hal]; [|apply (rep_order _ _ _ _ Hr1)].
          congruence. }
      split; [done|]. intros x Hx Hxa. rewrite Hframe' by done. auto.
  - erewrite bind_Ok; [|reflexivity]. pose proof (rep_range _ _ _ _ Hr).
    destruct (insert_link_rep h ms this m s ch key v)
      as (h' & m' & ch' & Hrun' & Hr' & Hts' & Hfresh & Hframe'); try done; [lia..|].
    eexists _, _, _. split; [exact Hrun'|]. done.
Qed.

Lemma insert_present w this s key v e :
  Rep w this s →
  locate s key = Some e →
  insert this (key, v) w = Ok (iterator.mk (Some (fst e)) (Some this), false) w.
Proof.
  intros Hr Hloc. rewrite insert_unfold. cbn [fst].
  erewrite bind_Ok; [|by apply (find_node_spec laws _ _ s)].
  by rewrite Hloc.
Qed.

End insert_run.

(** ** Erasure *)

(** Taking [a] out of a list: its neighbours are linked to each other. *)
Lemma dll_unlink (gp gn : Node → ptr) (h h' : gmap positive Node) l1 a l2 n :
  NoDup (l1 ++ a :: l2) →
  dll gp gn h None (l1 ++ a :: l2) None →
  h !! a = Some n →
  (∀ x nx, x ∈ l1 ++ l2 → h !! x = Some nx →
     ∃ nx', h' !! x = Some nx'
            ∧ gp nx' = (if decide (gn n = Some x) then gp n else gp nx)
            ∧ gn nx' = (if decide (gp n = Some x) then gn n else gn nx)) →
  dll gp gn h' None (l1 ++ l2) None
  ∧ gp n = last_or None l1 ∧ gn n = first_or l2 None.
Proof.
  intros Hnd Hd Ha Hx.
  apply NoDup_app in Hnd as (Hnd1 & Hdis & [Hna2 Hnd2]%NoDup_cons).
  apply dll_app in Hd as [Hd1 Hd2]. simpl in Hd1, Hd2.
  destruct Hd2 as (n0 & Ha0 & Hp & Hn & Hd2). simplify_eq.
  split; [|done]. apply dll_app. split.
  - eapply dll_set_last; [done..|]. intros x nx Hin Hnx.
    destruct (Hx x nx) as (nx' & ? & Hp' & Hn'); [apply elem_of_app; by left|done|].
    exists nx'. split; [done|]. split.
    + rewrite Hp'. rewrite decide_False; [done|]. rewrite Hn. intros Hf.
      apply (Hdis x Hin). right. destruct l2; simplify_eq/=. left.
    + rewrite Hn', Hp.
      destruct (decide (last_or None l1 = Some x)) as [Hl|Hl];
        destruct (decide (last l1 = Some x)) as [Hl'|Hl']; try done;
        rewrite last_or_None_Some in Hl; done.
  - rewrite <- Hp. eapply dll_set_first; [done..|]. intros x nx Hin Hnx.
    destruct (Hx x nx) as (nx' & ? & Hp' & Hn'); [apply elem_of_app; by right|done|].
    exists nx'. split; [done|]. split.
    + rewrite Hn'. rewrite decide_False; [done|]. rewrite Hp. intros Hf.
      apply last_or_None_Some, last_Some_elem_of in Hf.
      apply (Hdis x Hf). by right.
    + rewrite Hp', Hn. done.
Qed.

Lemma remove_from_hash_run h ms this m a n tb :
  h !! a = Some n →
  ms !! this = Some m →
  table_size m ≠ 0 →
  hash_table m = Some tb →
  (N.to_nat (hash_func (fst (data n)) mod table_size m) < length tb)%nat →
  (∀ p, hash_prev n = Some p → p ≠ a ∧ is_Some (h !! p)) →
  (∀ q, hash_next n = Some q → q ≠ a ∧ is_Some (h !! q)) →
  ∃ h',
    remove_from_hash this (Some a) (World h ms)
    = Ok tt (World h' (<[this :=
        match hash_prev n with
        | Some _ => m
        | None => set_hash_table
                    (Some (<[N.to_nat (hash_func (fst (data n)) mod table_size m)
                             := hash_next n]> tb)) m
        end]> ms))
    ∧ h' !! a = Some n
    ∧ ∀ x, x ≠ a →
        h' !! x = (λ nx, mkNode (data nx) (prev nx) (next nx)
                     (if decide (hash_next n = Some x) then hash_prev n else hash_prev nx)
                     (if decide (hash_prev n = Some x) then hash_next n else hash_next nx))
                  <$> h !! x.
Proof.
  intros Ha Hm Hsz Htb Hlen Hp Hq. unfold remove_from_hash.
  erewrite bind_Ok; [|by apply load_node_Ok].
  erewrite bind_Ok; [|by apply load_map_Ok].
  erewrite bind_Ok; [|by apply bucket_Ok].
  destruct (hash_prev n) as [p|] eqn:Hhp.
  - destruct (Hp p eq_refl) as [Hpa [np Hnp]].
    erewrite bind_Ok; [|by apply modify_node_Ok].
    erewrite bind_Ok; [|apply load_node_Ok; by heap_lookup].
    rewrite (insert_id ms this m) by done.
    destruct (hash_next n) as [q|] eqn:Hhq.
    + destruct (Hq q eq_refl) as [Hqa [nq Hnq]].
      destruct (decide (p = q)) as [->|Hpq]; eexists.
      * split; [apply modify_node_Ok; by heap_lookup|].
        split; [by heap_lookup|close_linked].
      * split; [apply modify_node_Ok; by heap_lookup|].
        split; [by heap_lookup|close_linked].
    + eexists. split; [reflexivity|]. split; [by heap_lookup|close_linked].
  - erewrite bind_Ok; [|by eapply table_set_Ok].
    erewrite bind_Ok; [|by apply load_node_Ok].
    destruct (hash_next n) as [q|] eqn:Hhq.
    + destruct (Hq q eq_refl) as [Hqa [nq Hnq]]. eexists.
      split; [apply modify_node_Ok; by heap_lookup|].
      split; [by heap_lookup|close_linked].
    + exists h. split; [reflexivity|]. split; [done|close_linked].
Qed.

Lemma remove_from_list_run h ms this m a n :
  h !! a = Some n →
  ms !! this = Some m →
  (∀ p, prev n = Some p → p ≠ a ∧ is_Some (h !! p)) →
  (∀ q, next n = Some q → q ≠ a ∧ is_Some (h !! q)) →
  ∃ h',
    remove_from_list this (Some a) (World h ms)
    = Ok tt (World h' (<[this :=
        mkMap (match prev n with Some _ => head m | None => next n end)
              (match next n with Some _ => tail m | None => prev n end)
              (hash_table m) (table_size m) (element_count m)]> ms))
    ∧ h' !! a = Some n
    ∧ ∀ x, x ≠ a →
        h' !! x = (λ nx, mkNode (data nx)
                     (if decide (next n = Some x) then prev n else prev nx)
                     (if decide (prev n = Some x) then next n else next nx)
                     (hash_prev nx) (hash_next nx))
                  <$> h !! x.
Proof.
  intros Ha Hm Hp Hq. unfold remove_from_list.
  erewrite bind_Ok; [|by apply load_node_Ok].
  destruct m as [hd tl ht ts ec]. cbn [head tail hash_table table_size element_count].
  destruct n as [d [p|] q hp hq]; cbn [prev next] in *.
  - destruct (Hp p eq_refl) as [Hpa [np Hnp]].
    erewrite bind_Ok; [|by apply modify_node_Ok].
    erewrite bind_Ok; [|apply load_node_Ok; by heap_lookup].
    cbn [prev next]. destruct q as [q|].
    + destruct (Hq q eq_refl) as [Hqa [nq Hnq]].
      rewrite (insert_id ms this _ Hm).
      destruct (decide (p = q)) as [->|Hpq]; eexists.
      * split; [apply modify_node_Ok; by heap_lookup|].
        split; [by heap_lookup|close_linked].
      * split; [apply modify_node_Ok; by heap_lookup|].
        split; [by heap_lookup|close_linked].
    + eexists. split; [erewrite modify_map_Ok by done; reflexivity|].
      split; [by heap_lookup|close_linked].
  - erewrite bind_Ok; [|by apply modify_map_Ok].
    erewrite bind_Ok; [|by apply load_node_Ok].
    cbn [prev next]. destruct q as [q|].
    + destruct (Hq q eq_refl) as [Hqa [nq Hnq]]. eexists.
      split; [apply modify_node_Ok; by heap_lookup|].
      split; [by heap_lookup|close_linked].
    + exists h. split; [|split; [done|close_linked]].
      erewrite modify_map_Ok; [|apply lookup_insert_eq].
      cbn [nodes maps]. by rewrite insert_insert_eq.
Qed.

Lemma erase_run h ms this m a n tb :
  h !! a = Some n →
  ms !! this = Some m →
  table_size m ≠ 0 →
  hash_table m = Some tb →
  (N.to_nat (hash_func (fst (data n)) mod table_size m) < length tb)%nat →
  (∀ p, hash_prev n = Some p → p ≠ a ∧ is_Some (h !! p)) →
  (∀ q, hash_next n = Some q → q ≠ a ∧ is_Some (h !! q)) →
  (∀ p, prev n = Some p → p ≠ a ∧ is_Some (h !! p)) →
  (∀ q, next n = Some q → q ≠ a ∧ is_Some (h !! q)) →
  ∃ h',
    erase this (iterator.mk (Some a) (Some this)) (World h ms)
    = Ok tt (World h' (<[this :=
        mkMap (match prev n with Some _ => head m | None => next n end)
              (match next n with Some _ => tail m | None => prev n end)
              (match hash_prev n with
               | Some _ => Some tb
               | None => Some (<[N.to_nat (hash_func (fst (data n)) mod table_size m)
                                 := hash_next n]> tb)
               end)
              (table_size m)
              (wrap (element_count m + SIZE_MAX1 - 1))]> ms))
    ∧ unlinked h a n h'.
Proof.
  intros Ha Hm Hsz Htb Hlen Hhp Hhq Hp Hq.
  destruct (remove_from_hash_run h ms this m a n tb)
    as (h1 & Hrun1 & Ha1 & Hx1); [done..|].
  set (m1 := match hash_prev n with
             | Some _ => m
             | None => set_hash_table
                 (Some (<[N.to_nat (hash_func (fst (data n)) mod table_size m)
                          := hash_next n]> tb)) m
             end) in *.
  assert (∀ p, p ≠ a → is_Some (h !! p) → is_Some (h1 !! p)) as Hal.
  { intros p Hpa [np Hnp]. rewrite Hx1, Hnp by done. by eexists. }
  destruct (remove_from_list_run h1 (<[this := m1]> ms) this m1 a n)
    as (h2 & Hrun2 & Ha2 & Hx2); [done|apply lookup_insert_eq|..].
  { intros p Hpp. destruct (Hp p Hpp). auto. }
  { intros q Hqq. destruct (Hq q Hqq). auto. }
  exists (delete a h2). split.
  - unfold erase. cbn [iterator.node iterator.map].
    rewrite decide_True by done.
    erewrite bind_Ok; [|exact Hrun1].
    erewrite bind_Ok; [|exact Hrun2].
    erewrite bind_Ok; [|by eapply delete_node_Ok].
    erewrite modify_map_Ok; [|apply lookup_insert_eq].
    cbn [nodes maps]. rewrite !insert_insert_eq.
    do 3 f_equal. unfold m1. destruct m; simpl in *. subst.
    by destruct (hash_prev n).
  - split; [apply lookup_delete_eq|].
    intros x Hxa. rewrite lookup_delete_ne by done.
    rewrite Hx2, Hx1 by done. by destruct (h !! x).
Qed.

Lemma buckets_disjoint h size t ch s i j x :
  buckets h size t ch s → NoDup (s.*1) → i < size → j < size →
  x ∈ ch i → x ∈ ch j → i = j.
Proof.
  intros Hb Hnd Hi Hj Hxi Hxj.
  apply (bk_member _ _ _ _ _ Hb) in Hxi as (d1 & Hd1 & <-); [|done].
  apply (bk_member _ _ _ _ _ Hb) in Hxj as (d2 & Hd2 & <-); [|done].
  by rewrite (NoDup_fst_agree s x d1 d2).
Qed.

Lemma first_or_elem_of l x : first_or l None = Some x → x ∈ l.
Proof. destruct l; intros; simplify_eq/=. left. Qed.

Lemma last_or_elem_of l x : last_or None l = Some x → x ∈ l.
Proof. rewrite last_or_None_Some. apply last_Some_elem_of. Qed.

Lemma rep_unlinked h m s1 a d s2 ch n tb h' :
  rep h m (s1 ++ (a, d) :: s2) ch →
  h !! a = Some n →
  hash_table m = Some tb →
  unlinked h a n h' →
  ∃ ch',
    rep h'
      (mkMap (match prev n with Some _ => head m | None => next n end)
             (match next n with Some _ => tail m | None => prev n end)
             (match hash_prev n with
              | Some _ => Some tb
              | None => Some (<[N.to_nat (hash_func (fst (data n)) mod table_size m)
                                := hash_next n]> tb)
              end)
             (table_size m)
             (wrap (element_count m + SIZE_MAX1 - 1)))
      (s1 ++ s2) ch'.
Proof.
  intros Hr Ha Htb [Hgone Hx].
  pose proof (rep_size_pos _ _ _ _ Hr) as Hpos.
  destruct (rep_table _ _ _ _ Hr) as (tb' & Htb' & Hb). simplify_eq.
  assert (data n = d) as Hdn.
  { destruct (rep_allocated _ _ _ _ a d Hr) as (? & ? & ?); [|congruence].
    apply elem_of_app. right. left. }
  set (idx := hash_func (fst (data n)) mod table_size m) in *.
  assert (idx < table_size m) as Hidx by (apply N.mod_lt; lia).
  assert (a ∈ ch idx) as Hin.
  { apply (bk_member _ _ _ _ _ Hb); [done|]. exists d. split; [|by rewrite <- Hdn].
    apply elem_of_app. right. left. }
  apply list_elem_of_split in Hin as (c1 & c2 & Hch).
  pose proof (rep_nodup _ _ _ _ Hr) as Hnd. rewrite fmap_app in Hnd. simpl in Hnd.
  pose proof (bk_nodup _ _ _ _ _ Hb idx) as Hndc. rewrite Hch in Hndc.
  pose proof (rep_order _ _ _ _ Hr) as Hord. rewrite fmap_app in Hord. simpl in Hord.
  pose proof (bk_chain _ _ _ _ _ Hb idx Hidx) as Hchain. rewrite Hch in Hchain.
  assert (∀ x, x ∈ s1.*1 ++ s2.*1 → x ≠ a) as Hne.
  { intros x Hxin ->. apply NoDup_app in Hnd as (_ & Hdis & [Hn2 _]%NoDup_cons).
    apply elem_of_app in Hxin as [?|?]; [|done]. eapply Hdis; [done|left]. }
  assert (∀ x, x ∈ c1 ++ c2 → x ≠ a) as Hnec.
  { intros x Hxin ->. apply NoDup_app in Hndc as (_ & Hdis & [Hn2 _]%NoDup_cons).
    apply elem_of_app in Hxin as [?|?]; [|done]. eapply Hdis; [done|left]. }
  destruct (dll_unlink prev next h h' (s1.*1) a (s2.*1) n) as (Hord' & Hprev & Hnext);
    [done..| |].
  { intros x nx Hxin Hnx. rewrite Hx, Hnx by by apply Hne. simpl. eauto. }
  destruct (dll_unlink hash_prev hash_next h h' c1 a c2 n) as (Hchain' & Hhprev & Hhnext);
    [done..| |].
  { intros x nx Hxin Hnx. rewrite Hx, Hnx by by apply Hnec. simpl. eauto. }
  assert (NoDup ((s1 ++ s2).*1)) as Hnd'.
  { rewrite fmap_app. apply NoDup_app in Hnd as (? & Hdis & [??]%NoDup_cons).
    apply NoDup_app. split; [done|]. split; [|done].
    intros x Hx1 Hx2. apply (Hdis x Hx1). by right. }
  assert (∀ x dx, (x, dx) ∈ s1 ++ s2 → (x, dx) ∈ s1 ++ (a, d) :: s2) as Hsub.
  { intros x dx. rewrite !elem_of_app, elem_of_cons. tauto. }
  assert (∀ x dx, (x, dx) ∈ s1 ++ s2 → x ≠ a) as Hne'.
  { intros x dx Hxin. apply Hne. rewrite <- fmap_app.
    apply list_elem_of_fmap. by exists (x, dx). }
  exists (λ j, if decide (j = idx) then c1 ++ c2 else ch j).
  split; simpl.
  - rewrite fmap_app, first_or_app. rewrite Hprev, Hnext, (rep_head _ _ _ _ Hr).
    rewrite fmap_app. change (((a, d) :: s2).*1) with (a :: s2.*1).
    destruct (s1.*1) as [|y l _] using rev_ind; [done|].
    rewrite last_or_snoc. by destruct l.
  - rewrite fmap_app, last_or_app. rewrite Hprev, Hnext, (rep_tail _ _ _ _ Hr).
    rewrite fmap_app. change (((a, d) :: s2).*1) with (a :: s2.*1).
    destruct (s2.*1) as [|y l]; [done|].
    cbn [first_or]. rewrite last_or_app. by rewrite !last_or_cons.
  - done.
  - by rewrite fmap_app.
  - intros x dx Hxin. rewrite Hx by by eapply Hne'.
    destruct (rep_allocated _ _ _ _ x dx Hr) as (nx & -> & <-); [by apply Hsub|]. done.
  - intros a1 d1 a2 d2 H1 H2. apply (rep_keys _ _ _ _ Hr); by apply Hsub.
  - pose proof (rep_count _ _ _ _ Hr) as Hc. pose proof (rep_load _ _ _ _ Hr).
    pose proof (rep_range _ _ _ _ Hr). rewrite length_app in Hc. simpl in Hc.
    rewrite length_app. unfold wrap.
    replace (element_count m + SIZE_MAX1 - 1)
      with (N.of_nat (length s1 + length s2) + 1 * SIZE_MAX1) by lia.
    rewrite N.Div0.mod_add. apply N.mod_small. lia.
  - apply (rep_cap _ _ _ _ Hr).
  - apply (rep_range _ _ _ _ Hr).
  - pose proof (rep_load _ _ _ _ Hr). pose proof (rep_range _ _ _ _ Hr).
    pose proof (rep_count _ _ _ _ Hr) as Hc. rewrite length_app in Hc. simpl in Hc.
    unfold wrap.
    replace (element_count m + SIZE_MAX1 - 1)
      with (N.of_nat (length s1 + length s2) + 1 * SIZE_MAX1) by lia.
    rewrite N.Div0.mod_add. rewrite N.mod_small by lia. lia.
  - exists (match hash_prev n with
            | Some _ => tb
            | None => <[N.to_nat idx := hash_next n]> tb
            end).
    split; [by destruct (hash_prev n)|]. split.
    + destruct (hash_prev n); [|rewrite length_insert]; apply (bk_length _ _ _ _ _ Hb).
    + intros i Hi. pose proof (bk_length _ _ _ _ _ Hb) as Hlen.
      pose proof (bk_head _ _ _ _ _ Hb i Hi) as Hhd. case_decide as Hd.
      * subst i. rewrite Hch in Hhd. rewrite first_or_app in Hhd |- *.
        rewrite Hhprev, Hhnext. destruct c1 as [|y l _] using rev_ind.
        -- simpl. rewrite list_lookup_insert_eq by lia. done.
        -- rewrite last_or_snoc. rewrite Hhd. by destruct l.
      * destruct (hash_prev n); [done|]. rewrite list_lookup_insert_ne by lia. done.
    + intros i Hi. case_decide as Hd; [done|].
      eapply dll_keep; [by apply (bk_chain _ _ _ _ _ Hb)|].
      intros x nx Hxin Hnx.
      assert (x ≠ a) as Hxa.
      { intros ->. apply Hd. eapply (buckets_disjoint _ _ _ _ _ _ _ a Hb); try done.
        - by rewrite fmap_app.
        - rewrite Hch. apply elem_of_app. right. left. }
      rewrite Hx, Hnx by done. simpl. eexists. split; [done|]. simpl.
      rewrite !decide_False; [done| |].
      * rewrite Hhprev. intros Hf%last_or_elem_of. apply Hd.
        eapply (buckets_disjoint _ _ _ _ _ _ _ x Hb); try done.
        -- by rewrite fmap_app.
        -- rewrite Hch. apply elem_of_app. by left.
      * rewrite Hhnext. intros Hf%first_or_elem_of. apply Hd.
        eapply (buckets_disjoint _ _ _ _ _ _ _ x Hb); try done.
        -- by rewrite fmap_app.
        -- rewrite Hch. apply elem_of_app. right. by right.
    + intros i. case_decide; [|apply (bk_nodup _ _ _ _ _ Hb)].
      apply NoDup_app in Hndc as (? & Hdis & [??]%NoDup_cons).
      apply NoDup_app. split; [done|]. split; [|done].
      intros x Hx1 Hx2. apply (Hdis x Hx1). by right.
    + intros i x Hi. case_decide as Hd.
      * subst i. split.
        -- intros Hxin. pose proof (Hnec x Hxin) as Hxa.
           assert (x ∈ ch idx) as Hxc.
           { rewrite Hch. revert Hxin. rewrite !elem_of_app, elem_of_cons. tauto. }
           apply (bk_member _ _ _ _ _ Hb) in Hxc as (dx & Hdx & ?); [|done].
           exists dx. split; [|done]. revert Hdx.
           rewrite !elem_of_app, elem_of_cons. intros [?|[?|?]]; simplify_eq; auto.
        -- intros (dx & Hdx & ?). pose proof (Hne' _ _ Hdx) as Hxa.
           assert (x ∈ ch idx) as Hxc.
           { apply (bk_member _ _ _ _ _ Hb); [done|]. exists dx. split; [|done].
             by apply Hsub. }
           rewrite Hch in Hxc. revert Hxc.
           rewrite !elem_of_app, elem_of_cons. intros [?|[?|?]]; simplify_eq; auto.
      * rewrite (bk_member _ _ _ _ _ Hb) by done. split.
        -- intros (dx & Hdx & ?). exists dx. split; [|done]. revert Hdx.
           rewrite !elem_of_app, elem_of_cons. intros [?|[?|?]]; simplify_eq; auto.
        -- intros (dx & Hdx & ?). exists dx. split; [|done]. by apply Hsub.
Qed.

Lemma dll_neighbours (gp gn : Node → ptr) (h : gmap positive Node) l1 a l2 n :
  NoDup (l1 ++ a :: l2) →
  dll gp gn h None (l1 ++ a :: l2) None →
  h !! a = Some n →
  gp n = last_or None l1 ∧ gn n = first_or l2 None
  ∧ (∀ p, gp n = Some p → p ≠ a ∧ p ∈ l1 ∧ is_Some (h !! p))
  ∧ (∀ q, gn n = Some q → q ≠ a ∧ q ∈ l2 ∧ is_Some (h !! q)).
Proof.
  intros Hnd Hd Ha.
  assert (∀ x, x ∈ l1 ++ a :: l2 → is_Some (h !! x)) as Hal.
  { intros x Hx. by eapply dll_allocated. }
  apply NoDup_app in Hnd as (Hnd1 & Hdis & [Hna2 Hnd2]%NoDup_cons).
  apply dll_app in Hd as [Hd1 Hd2]. simpl in Hd2.
  destruct Hd2 as (n0 & Ha0 & Hp & Hn & Hd2). simplify_eq.
  split; [done|]. split; [done|]. split.
  - intros p Hpp. rewrite Hp in Hpp. apply last_or_elem_of in Hpp.
    split; [|split; [done|]].
    + intros ->. eapply Hdis; [done|left].
    + apply Hal. apply elem_of_app. by left.
  - intros q Hqq. rewrite Hn in Hqq. apply first_or_elem_of in Hqq.
    split; [|split; [done|]].
    + intros ->. done.
    + apply Hal. apply elem_of_app. right. by right.
Qed.

Lemma erase_present h ms this m s1 a d s2 ch :
  ms !! this = Some m →
  rep h m (s1 ++ (a, d) :: s2) ch →
  ∃ h' m' ch',
    erase this (iterator.mk (Some a) (Some this)) (World h ms)
    = Ok tt (World h' (<[this := m']> ms))
    ∧ rep h' m' (s1 ++ s2) ch'
    ∧ table_size m' = table_size m
    ∧ h' !! a = None
    ∧ (∀ x, x ∉ (s1 ++ (a, d) :: s2).*1 → h' !! x = h !! x).
Proof.
  intros Hm Hr. pose proof (rep_size_pos _ _ _ _ Hr) as Hpos.
  destruct (rep_table _ _ _ _ Hr) as (tb & Htb & Hb).
  destruct (rep_allocated _ _ _ _ a d Hr) as (n & Ha & Hdn).
  { apply elem_of_app. right. left. }
  set (idx := hash_func (fst (data n)) mod table_size m).
  assert (idx < table_size m) as Hidx by (apply N.mod_lt; lia).
  assert (a ∈ ch idx) as Hin.
  { apply (bk_member _ _ _ _ _ Hb); [done|]. exists d. split; [|by rewrite <- Hdn].
    apply elem_of_app. right. left. }
  apply list_elem_of_split in Hin as (c1 & c2 & Hch).
  pose proof (rep_nodup _ _ _ _ Hr) as Hnd. rewrite fmap_app in Hnd.
  change (((a, d) :: s2).*1) with (a :: s2.*1) in Hnd.
  pose proof (bk_nodup _ _ _ _ _ Hb idx) as Hndc. rewrite Hch in Hndc.
  pose proof (rep_order _ _ _ _ Hr) as Hord. rewrite fmap_app in Hord.
  change (((a, d) :: s2).*1) with (a :: s2.*1) in Hord.
  pose proof (bk_chain _ _ _ _ _ Hb idx Hidx) as Hchain. rewrite Hch in Hchain.
  destruct (dll_neighbours _ _ _ _ _ _ _ Hnd Hord Ha) as (_ & _ & Hp & Hq).
  destruct (dll_neighbours _ _ _ _ _ _ _ Hndc Hchain Ha) as (_ & _ & Hhp & Hhq).
  destruct (erase_run h ms this m a n tb) as (h' & Hrun & Hun); try done.
  - lia.
  - rewrite (bk_length _ _ _ _ _ Hb). fold idx. lia.
  - intros p Hpp. destruct (Hhp p Hpp) as (? & ? & ?). done.
  - intros p Hpp. destruct (Hhq p Hpp) as (? & ? & ?). done.
  - intros p Hpp. destruct (Hp p Hpp) as (? & ? & ?). done.
  - intros p Hpp. destruct (Hq p Hpp) as (? & ? & ?). done.
  - destruct (rep_unlinked _ _ _ _ _ _ _ _ _ _ Hr Ha Htb Hun) as [ch' Hr'].
    eexists _, _, ch'. split; [exact Hrun|]. split; [done|]. split; [done|].
    destruct Hun as [Hgone Hx]. split; [done|].
    intros x Hxn. rewrite fmap_app in Hxn.
    change (((a, d) :: s2).*1) with (a :: s2.*1) in Hxn.
    assert (x ≠ a) as Hxa.
    { intros ->. apply Hxn. apply elem_of_app. right. left. }
    assert (∀ i y, i < table_size m → y ∈ ch i → y ∈ s1.*1 ++ a :: s2.*1) as Hsub.
    { intros i y Hi Hy. apply (bk_member _ _ _ _ _ Hb) in Hy as (dy & Hdy & _); [|done].
      change (y ∈ s1.*1 ++ ((a, d) :: s2).*1). rewrite <- fmap_app.
      apply list_elem_of_fmap. by exists (y, dy). }
    rewrite Hx by done. destruct (h !! x) as [[]|]; [|done]. simpl.
    rewrite !decide_False; [done| | | |].
    + intros Hf. destruct (Hhp _ Hf) as (_ & Hc & _). apply Hxn.
      apply (Hsub idx); [done|]. rewrite Hch. apply elem_of_app. by left.
    + intros Hf. destruct (Hhq _ Hf) as (_ & Hc & _). apply Hxn.
      apply (Hsub idx); [done|]. rewrite Hch. apply elem_of_app. right. by right.
    + intros Hf. destruct (Hp _ Hf) as (_ & Hc & _). apply Hxn.
      apply elem_of_app. by left.
    + intros Hf. destruct (Hq _ Hf) as (_ & Hc & _). apply Hxn.
      apply elem_of_app. right. by right.
Qed.

(** ** Clearing *)

Lemma clear_loop_run k l h p ms :
  NoDup l →
  dll prev next h p l None →
  (length l < k)%nat →
  ∃ h',
    clear_loop k (first_or l None) (World h ms) = Ok tt (World h' ms)
    ∧ (∀ x, x ∈ l → h' !! x = None)
    ∧ (∀ x, x ∉ l → h' !! x = h !! x).
Proof.
  revert k h p. induction l as [|a l IH]; intros k h p Hnd Hd Hk.
  - exists h. split; [by destruct k|]. split; [by intros x ?%elem_of_nil|done].
  - destruct k as [|k]; [simpl in Hk; lia|].
    apply NoDup_cons in Hnd as [Hna Hnd].
    simpl in Hd. destruct Hd as (n & Ha & _ & Hn & Hd).
    destruct (IH k (delete a h) (Some a)) as (h' & Hrun & Hin & Hout); [done| |simpl in Hk; lia|].
    { eapply dll_keep; [done|]. intros x nx Hx Hnx. exists nx.
      rewrite lookup_delete_ne by (intros ->; done). done. }
    exists h'. split; [|split].
    + simpl. erewrite bind_Ok; [|by apply load_node_Ok].
      erewrite bind_Ok; [|by eapply delete_node_Ok].
      rewrite Hn. exact Hrun.
    + intros x [->|Hx]%elem_of_cons; [|by auto].
      rewrite Hout by done. apply lookup_delete_eq.
    + intros x Hx. apply not_elem_of_cons in Hx as [Hxa Hx].
      rewrite Hout by done. by apply lookup_delete_ne.
Qed.

Lemma clear_slots_run n i t2 h ms this m :
  ms !! this = Some m →
  hash_table m = Some (replicate (N.to_nat i) None ++ t2) →
  length t2 = n →
  i + N.of_nat n < SIZE_MAX1 →
  clear_slots this n i (World h ms)
  = Ok tt (World h
      (<[this := set_hash_table (Some (replicate (N.to_nat i + n) None)) m]> ms)).
Proof.
  revert i t2 ms m. induction n as [|n IH]; intros i t2 ms m Hm Ht Hlen Hi.
  - destruct t2; [|done]. rewrite app_nil_r in Ht. simpl. unfold ret.
    rewrite Nat.add_0_r. rewrite insert_id; [done|]. rewrite Hm. f_equal.
    destruct m; simpl in *. by subst.
  - destruct t2 as [|b t2]; [done|]. simpl in Hlen. simpl.
    erewrite bind_Ok.
    2:{ eapply table_set_Ok; [done..|]. rewrite length_app, length_replicate. simpl. lia. }
    rewrite wrap_small by lia.
    erewrite (IH (i + 1) t2); [| apply lookup_insert_eq | | lia | lia].
    + cbn [nodes maps]. rewrite insert_insert_eq. do 3 f_equal.
      unfold set_hash_table. simpl. do 3 f_equal. lia.
    + simpl. f_equal. rewrite insert_app_r_alt by (rewrite length_replicate; lia).
      rewrite length_replicate, Nat.sub_diag. simpl.
      replace (N.to_nat (i + 1)) with (S (N.to_nat i)) by lia.
      rewrite replicate_S_end, <- app_assoc. done.
Qed.

Lemma clear_run h ms this m s ch :
  ms !! this = Some m →
  rep h m s ch →
  ∃ h' m',
    clear this (World h ms) = Ok tt (World h' (<[this := m']> ms))
    ∧ rep h' m' [] (λ _, [])
    ∧ table_size m' = table_size m
    ∧ (∀ x, x ∈ s.*1 → h' !! x = None)
    ∧ (∀ x, x ∉ s.*1 → h' !! x = h !! x).
Proof.
  intros Hm Hr. destruct (rep_table _ _ _ _ Hr) as (tb & Htb & Hb).
  pose proof (rep_range _ _ _ _ Hr) as Hrange.
  destruct (clear_loop_run (S (base.size h)) (s.*1) h None ms) as (h' & Hrun & Hin & Hout).
  { apply (rep_nodup _ _ _ _ Hr). }
  { apply (rep_order _ _ _ _ Hr). }
  { apply Nat.lt_succ_r, length_le_size; [apply (rep_nodup _ _ _ _ Hr)|].
    intros a Ha. by eapply dll_allocated; [apply (rep_order _ _ _ _ Hr)|]. }
  rewrite <- (rep_head _ _ _ _ Hr) in Hrun.
  exists h', (mkMap None None (Some (replicate (N.to_nat (table_size m)) None))
                (table_size m) 0).
  split; [|split; [|done]].
  - unfold clear. erewrite bind_Ok; [|by apply load_map_Ok].
    erewrite bind_Ok; [|reflexivity]. cbn [nodes maps].
    erewrite bind_Ok; [|exact Hrun].
    erewrite bind_Ok; [|by apply modify_map_Ok].
    erewrite bind_Ok; [|apply modify_map_Ok; apply lookup_insert_eq].
    erewrite bind_Ok; [|apply modify_map_Ok; apply lookup_insert_eq].
    erewrite bind_Ok; [|apply load_map_Ok; apply lookup_insert_eq].
    cbn [nodes maps]. rewrite !insert_insert_eq.
    erewrite (clear_slots_run _ 0 tb); [|apply lookup_insert_eq|done| |].
    + rewrite insert_insert_eq. simpl. reflexivity.
    + simpl. rewrite (bk_length _ _ _ _ _ Hb). done.
    + simpl. lia.
  - destruct (rep_cap _ _ _ _ Hr) as [e He].
    split; simpl; try done.
    + apply NoDup_nil_2.
    + by intros a d ?%elem_of_nil.
    + by intros a1 d1 a2 d2 ?%elem_of_nil.
    + eauto.
    + lia.
    + eexists. split; [done|]. apply buckets_empty.
Qed.

(** ** Frame: what a container does not own does not matter to it *)

Lemma rep_frame h h' m s ch :
  rep h m s ch → (∀ x, x ∈ s.*1 → h' !! x = h !! x) → rep h' m s ch.
Proof.
  intros Hr Hx. destruct (rep_table _ _ _ _ Hr) as (tb & Htb & Hb).
  assert (∀ gp gn p l q, (∀ x, x ∈ l → x ∈ s.*1) →
            dll gp gn h p l q → dll gp gn h' p l q) as Hdll.
  { intros gp gn p l q Hsub Hd. eapply dll_keep; [done|].
    intros x n Hin Hn. exists n. by rewrite Hx by auto. }
  destruct Hr as [Hhead Htail Hnd Hord Hdata Hkeys Hcount Hcap Hrange Hload _].
  split; try done.
  - by apply Hdll.
  - intros a d Hin. rewrite Hx; [by apply Hdata|].
    apply list_elem_of_fmap. by exists (a, d).
  - exists tb. split; [done|]. destruct Hb as [Hlen Hhd Hchain Hndc Hmem].
    split; try done. intros i Hi. apply Hdll; [|by apply Hchain].
    intros x Hin. apply Hmem in Hin as (d & ? & _); [|done].
    apply list_elem_of_fmap. by exists (x, d).
Qed.

Lemma Rep_frame w w' that s :
  Rep w that s →
  maps w' !! that = maps w !! that →
  (∀ x, x ∈ s.*1 → nodes w' !! x = nodes w !! x) →
  Rep w' that s.
Proof.
  intros (m & ch & Hm & Hr) Hmaps Hx. exists m, ch.
  split; [congruence|]. by eapply rep_frame.
Qed.

Lemma Rep_allocated w this s a d :
  Rep w this s → (a, d) ∈ s → ∃ n, nodes w !! a = Some n ∧ data n = d.
Proof. intros (m & ch & _ & Hr) Hin. by eapply rep_allocated. Qed.

Lemma Rep_fresh w this s a :
  Rep w this s → nodes w !! a = None → a ∉ s.*1.
Proof.
  intros Hr Ha Hin. apply list_elem_of_fmap in Hin as ([a' d] & -> & Hin).
  destruct (Rep_allocated _ _ _ _ _ Hr Hin) as (n & ? & _). simpl in *. congruence.
Qed.

(** ** Iteration *)

Lemma first_or_drop (l : list positive) i : first_or (drop i l) None = l !! i.
Proof.
  revert i. induction l as [|a l IH]; intros [|i]; simpl; done.
Qed.

Lemma Rep_lookup w this s i a d :
  Rep w this s → s !! i = Some (a, d) →
  ∃ n, nodes w !! a = Some n ∧ data n = d
       ∧ prev n = match i with O => None | S j => fst <$> s !! j end
       ∧ next n = fst <$> s !! S i.
Proof.
  intros (m & ch & _ & Hr) Hi.
  destruct (dll_lookup _ _ _ _ _ _ i a (rep_order _ _ _ _ Hr)) as (n & Hn & Hp & Hnx).
  { by rewrite list_lookup_fmap, Hi. }
  exists n. split; [done|]. split.
  - destruct (rep_allocated _ _ _ _ a d Hr) as (n' & ? & ?); [|congruence].
    by eapply list_elem_of_lookup_2.
  - rewrite Hp, Hnx, first_or_drop, !list_lookup_fmap.
    split; [|done]. destruct i; [done|]. apply list_lookup_fmap.
Qed.

Lemma collect_run s2 k h ms this p :
  dll prev next h p (s2.*1) None →
  (∀ a d, (a, d) ∈ s2 → data <$> h !! a = Some d) →
  (length s2 < k)%nat →
  collect k this (iterator.mk (first_or (s2.*1) None) (Some this)) (World h ms)
  = Ok (s2.*2) (World h ms).
Proof.
  revert k p. induction s2 as [|[a d] s2 IH]; intros k p Hd Hdata Hk.
  - destruct k; simpl; unfold bind, end_, ret, iterator_ne, iterator_eq; simpl;
      by rewrite !bool_decide_eq_true_2.
  - destruct k as [|k]; [simpl in Hk; lia|].
    simpl in Hd. destruct Hd as (n & Ha & _ & Hn & Hd).
    assert (data n = d) as Hdn.
    { specialize (Hdata a d). rewrite Ha in Hdata. simpl in Hdata.
      assert (Some (data n) = Some d) as [= ?]; [|done]. apply Hdata. left. }
    specialize (IH k (Some a) Hd).
    simpl. unfold bind at 1. unfold end_ at 1, ret at 1.
    unfold iterator_ne, iterator_eq. simpl.
    erewrite bind_Ok; [|reflexivity].
    erewrite bind_Ok; [|unfold read; erewrite bind_Ok; [|by apply load_node_Ok]; reflexivity].
    erewrite bind_Ok.
    2:{ unfold iterator_pre_incr. simpl. erewrite bind_Ok; [|by apply load_node_Ok].
        reflexivity. }
    rewrite Hn. erewrite bind_Ok.
    2:{ apply IH; [|simpl in Hk; lia]. intros a' d' Hin. apply Hdata. by right. }
    by rewrite Hdn.
Qed.

Lemma traverse_spec w this s :
  Rep w this s → traverse this w = Ok (s.*2) w.
Proof.
  intros (m & ch & Hm & Hr). destruct w as [h ms]. simpl in *.
  unfold traverse, begin. erewrite bind_Ok; [|erewrite bind_Ok; [|by apply load_map_Ok]; reflexivity].
  erewrite bind_Ok; [|reflexivity]. cbn [nodes maps].
  rewrite (rep_head _ _ _ _ Hr). eapply collect_run.
  - apply (rep_order _ _ _ _ Hr).
  - apply (rep_data _ _ _ _ Hr).
  - apply Nat.lt_succ_r. rewrite <- (length_fmap fst s).
    apply length_le_size; [apply (rep_nodup _ _ _ _ Hr)|].
    intros a Ha. by eapply dll_allocated; [apply (rep_order _ _ _ _ Hr)|].
Qed.

(** ** The member functions on a well-formed container *)

Lemma kept_Rep this l w w' that s :
  kept this l w w' → that ≠ this → Rep w that s →
  (∀ x, x ∈ s.*1 → x ∉ l) → Rep w' that s.
Proof.
  intros [Hmaps Hnodes] Hne Hr Hdis. eapply Rep_frame; [done|by apply Hmaps|].
  intros x Hx. apply Hnodes; [by apply Hdis|].
  apply list_elem_of_fmap in Hx as ([x' d] & -> & Hin).
  destruct (Rep_allocated _ _ _ _ _ Hr Hin) as (n & ? & _). by eexists.
Qed.

Lemma kept_refl this l w : kept this l w w.
Proof. by split. Qed.

Lemma Rep_size w this s :
  Rep w this s → size this w = Ok (N.of_nat (length s)) w.
Proof.
  intros (m & ch & Hm & Hr). unfold size. erewrite bind_Ok; [|by apply load_map_Ok].
  by rewrite (rep_count _ _ _ _ Hr).
Qed.

Lemma Rep_capacity w this s :
  Rep w this s →
  ∃ c e, capacity w this = Some c ∧ c = 16 * 2 ^ e ∧ 4 * N.of_nat (length s) ≤ 3 * c.
Proof.
  intros (m & ch & Hm & Hr). destruct (rep_cap _ _ _ _ Hr) as [e He].
  exists (table_size m), e. unfold capacity. rewrite Hm. split; [done|]. split; [done|].
  rewrite <- (rep_count _ _ _ _ Hr). apply (rep_load _ _ _ _ Hr).
Qed.

Lemma construct_spec w this :
  ∃ w', construct this w = Ok tt w'
        ∧ Rep w' this []
        ∧ capacity w' this = Some 16
        ∧ nodes w' = nodes w
        ∧ (∀ that, that ≠ this → maps w' !! that = maps w !! that).
Proof.
  destruct w as [h ms]. eexists. split; [|split; [|split; [|split]]].
  - unfold construct, initialize_table.
    erewrite bind_Ok; [|reflexivity]. cbn [nodes maps].
    erewrite bind_Ok; [|apply modify_map_Ok; apply lookup_insert_eq].
    erewrite modify_map_Ok; [|apply lookup_insert_eq].
    cbn [nodes maps]. rewrite !insert_insert_eq. reflexivity.
  - eexists _, (λ _, []). split; [apply lookup_insert_eq|].
    split; simpl; try done.
    + apply NoDup_nil_2.
    + by intros a d ?%elem_of_nil.
    + by intros a1 d1 a2 d2 ?%elem_of_nil.
    + by exists 0.
    + eexists. split; [done|]. apply (buckets_empty h 16).
  - unfold capacity. simpl. by rewrite lookup_insert_eq.
  - done.
  - intros that Hne. simpl. by rewrite lookup_insert_ne.
Qed.

Lemma room_can_grow w this n : room w this n → can_grow w this.
Proof. intros (m & Hm & ? & ?) m' Hm' _. simplify_eq. size_lia. Qed.

Section member_specs.
Hypothesis laws : lawful.

Lemma find_spec w this s key :
  Rep w this s →
  find this key w = Ok (iterator.mk (fst <$> locate s key) (Some this)) w.
Proof.
  intros Hr. unfold find. erewrite bind_Ok; [|by apply find_node_spec].
  by destruct (locate s key).
Qed.

Lemma count_spec w this s key :
  Rep w this s →
  count this key w = Ok (match locate s key with Some _ => 1 | None => 0 end) w.
Proof.
  intros Hr. unfold count. erewrite bind_Ok; [|by apply find_node_spec].
  by destruct (locate s key).
Qed.

Lemma at_spec w this s key :
  Rep w this s →
  at_ this key w = match locate s key with
                   | Some e => Ok (fst e) w
                   | None => Throw index_out_of_bound w
                   end.
Proof.
  intros Hr. unfold at_. erewrite bind_Ok; [|by apply find_node_spec].
  by destruct (locate s key).
Qed.

Lemma read_spec w this s a d :
  Rep w this s → (a, d) ∈ s → read a w = Ok d w.
Proof.
  intros Hr Hin. destruct (Rep_allocated _ _ _ _ _ Hr Hin) as (n & Hn & <-).
  unfold read. by erewrite bind_Ok; [|by apply load_node_Ok].
Qed.

Lemma insert_new_spec_gen w this s key v :
  Rep w this s →
  locate s key = None →
  can_grow w this →
  ∃ w' a,
    insert this (key, v) w = Ok (iterator.mk (Some a) (Some this), true) w'
    ∧ Rep w' this (s ++ [(a, (key, v))])
    ∧ nodes w !! a = None
    ∧ kept this (s.*1) w w'
    ∧ (∀ c, capacity w this = Some c →
         capacity w' this
         = Some (if bool_decide (3 * c ≤ 4 * N.of_nat (length s)) then 2 * c else c))
    ∧ (∀ n, room w this (S n) → room w' this n).
Proof.
  intros (m & ch & Hm & Hr) Hloc Hgrow.
  destruct w as [h ms]. simpl in *.
  destruct (insert_absent laws h ms this m s ch key v)
    as (h' & m' & ch' & Hrun & Hr' & Hts & Hfresh & Hframe); try done.
  { by apply Hgrow. }
  exists (World h' (<[this := m']> ms)), (fresh (dom h)).
  split; [done|]. split; [|split; [done|split; [|split]]].
  - exists m', ch'. split; [apply lookup_insert_eq|done].
  - split; simpl.
    + intros that Hne. by rewrite lookup_insert_ne.
    + intros x Hx [n Hn]. apply Hframe; [done|]. congruence.
  - intros c. unfold capacity. simpl. rewrite lookup_insert_eq, Hm. simpl.
    intros [= <-]. rewrite Hts. unfold load_reached.
    by rewrite (rep_count _ _ _ _ Hr).
  - intros n (m1 & Hm1 & Hb1 & Hb2). simpl in Hm1. simplify_eq.
    exists m'. split; [apply lookup_insert_eq|].
    pose proof (rep_count _ _ _ _ Hr) as Hc.
    pose proof (rep_count _ _ _ _ Hr') as Hc'. rewrite length_app in Hc'. simpl in Hc'.
    rewrite Hts. unfold load_reached. case_bool_decide; size_lia.
Qed.

Lemma insert_new_spec w this s key v :
  Rep w this s →
  locate s key = None →
  room w this 1 →
  ∃ w' a,
    insert this (key, v) w = Ok (iterator.mk (Some a) (Some this), true) w'
    ∧ Rep w' this (s ++ [(a, (key, v))])
    ∧ nodes w !! a = None
    ∧ kept this (s.*1) w w'
    ∧ (∀ c, capacity w this = Some c →
         capacity w' this
         = Some (if bool_decide (3 * c ≤ 4 * N.of_nat (length s)) then 2 * c else c))
    ∧ (∀ n, room w this (S n) → room w' this n).
Proof.
  intros Hr Hloc Hroom. apply insert_new_spec_gen; [done..|].
  by eapply room_can_grow.
Qed.

Lemma insert_old_spec w this s key v e :
  Rep w this s →
  locate s key = Some e →
  insert this (key, v) w = Ok (iterator.mk (Some (fst e)) (Some this), false) w.
Proof. intros. by eapply insert_present. Qed.

Lemma erase_spec w this s1 a d s2 :
  Rep w this (s1 ++ (a, d) :: s2) →
  ∃ w',
    erase this (iterator.mk (Some a) (Some this)) w = Ok tt w'
    ∧ Rep w' this (s1 ++ s2)
    ∧ nodes w' !! a = None
    ∧ kept this ((s1 ++ (a, d) :: s2).*1) w w'
    ∧ capacity w' this = capacity w this
    ∧ (∀ n, room w this n → room w' this n).
Proof.
  intros (m & ch & Hm & Hr). destruct w as [h ms]. simpl in *.
  destruct (erase_present h ms this m s1 a d s2 ch)
    as (h' & m' & ch' & Hrun & Hr' & Hts & Hgone & Hframe); try done.
  exists (World h' (<[this := m']> ms)).
  split; [done|]. split; [|split; [done|split; [|split]]].
  - exists m', ch'. split; [apply lookup_insert_eq|done].
  - split; simpl.
    + intros that Hne. by rewrite lookup_insert_ne.
    + intros x Hx _. by apply Hframe.
  - unfold capacity. simpl. rewrite lookup_insert_eq, Hm. simpl. by rewrite Hts.
  - intros n (m1 & Hm1 & Hb1 & Hb2). simpl in Hm1. simplify_eq.
    exists m'. split; [apply lookup_insert_eq|].
    pose proof (rep_count _ _ _ _ Hr) as Hc. rewrite length_app in Hc. simpl in Hc.
    pose proof (rep_count _ _ _ _ Hr') as Hc'. rewrite length_app in Hc'.
    rewrite Hts. lia.
Qed.

Lemma clear_spec w this s :
  Rep w this s →
  ∃ w',
    clear this w = Ok tt w'
    ∧ Rep w' this []
    ∧ kept this (s.*1) w w'
    ∧ capacity w' this = capacity w this
    ∧ (∀ n, room w this n → room w' this n).
Proof.
  intros (m & ch & Hm & Hr). destruct w as [h ms]. simpl in *.
  destruct (clear_run h ms this m s ch)
    as (h' & m' & Hrun & Hr' & Hts & Hgone & Hframe); try done.
  exists (World h' (<[this := m']> ms)).
  split; [done|]. split; [|split; [|split]].
  - exists m', (λ _, []). split; [apply lookup_insert_eq|done].
  - split; simpl.
    + intros that Hne. by rewrite lookup_insert_ne.
    + intros x Hx _. by apply Hframe.
  - unfold capacity. simpl. rewrite lookup_insert_eq, Hm. simpl. by rewrite Hts.
  - intros n (m1 & Hm1 & Hb1 & Hb2). simpl in Hm1. simplify_eq.
    exists m'. split; [apply lookup_insert_eq|].
    pose proof (rep_count _ _ _ _ Hr') as Hc'. simpl in Hc'.
    pose proof (rep_count _ _ _ _ Hr) as Hc.
    rewrite Hts. lia.
Qed.

End member_specs.

Lemma locate_app s1 s2 key :
  locate (s1 ++ s2) key
  = match locate s1 key with Some e => Some e | None => locate s2 key end.
Proof.
  induction s1 as [|e s1 IH]; simpl; [done|].
  by destruct (equal_func (fst (snd e)) key).
Qed.

Lemma room_le w this n n' : room w this n → (n' ≤ n)%nat → room w this n'.
Proof. intros (m & ? & ? & ?) ?. exists m. split; [done|]. split; [done|]. lia. Qed.

Section more_specs.
Hypothesis laws : lawful.

Lemma operator_index_old_spec w this s key e :
  Rep w this s →
  locate s key = Some e →
  operator_index this key w = Ok (fst e) w.
Proof.
  intros Hr Hloc. unfold operator_index.
  erewrite bind_Ok; [|by apply find_node_spec]. by rewrite Hloc.
Qed.

Lemma operator_index_new_spec w this s key :
  Rep w this s →
  locate s key = None →
  room w this 1 →
  ∃ w' a,
    operator_index this key w = Ok a w'
    ∧ insert this (key, T_default) w = Ok (iterator.mk (Some a) (Some this), true) w'
    ∧ Rep w' this (s ++ [(a, (key, T_default))]).
Proof.
  intros Hr Hloc Hroom.
  destruct (insert_new_spec laws w this s key T_default Hr Hloc Hroom)
    as (w' & a & Hrun & Hr' & _).
  exists w', a. split; [|done]. unfold operator_index.
  erewrite bind_Ok; [|by apply find_node_spec]. rewrite Hloc. simpl.
  erewrite bind_Ok; [|exact Hrun].
  erewrite bind_Ok; [|by apply find_node_spec].
  rewrite locate_app, Hloc. simpl. by rewrite (equal_refl laws).
Qed.

Lemma all_new_cons s value values :
  all_new s (value :: values) →
  locate s (fst value) = None
  ∧ ∀ a, all_new (s ++ [(a, value)]) values.
Proof.
  intros [Hnew Hdis]. split; [apply Hnew; left|]. intros a. split.
  - intros value' Hin. rewrite locate_app, Hnew by by right. simpl.
    destruct (equal_func (fst value) (fst value')) eqn:He; [|done].
    apply list_elem_of_lookup in Hin as [i Hi].
    specialize (Hdis 0%nat (S i) (fst value) (fst value')). simpl in Hdis.
    rewrite list_lookup_fmap, Hi in Hdis. by specialize (Hdis eq_refl eq_refl He).
  - intros i j k1 k2 Hi Hj He. specialize (Hdis (S i) (S j) k1 k2 Hi Hj He). lia.
Qed.

Lemma insert_all_spec values : ∀ w this s,
  Rep w this s →
  all_new s values →
  room w this (length values) →
  ∃ w' s',
    insert_all this values w = Ok tt w'
    ∧ Rep w' this (s ++ s')
    ∧ s'.*2 = values
    ∧ kept this (s.*1) w w'
    ∧ (∀ a, a ∈ s'.*1 → nodes w !! a = None)
    ∧ (∀ c, capacity w this = Some c →
         capacity w' this
         = Some (capacity_after c (N.of_nat (length s)) (length values))).
Proof.
  induction values as [|[key v] values IH]; intros w this s Hr Hnew Hroom.
  - exists w, []. rewrite app_nil_r. split; [done|]. split; [done|]. split; [done|].
    split; [apply kept_refl|]. split; [by intros a ?%elem_of_nil|done].
  - apply all_new_cons in Hnew as [Hloc Hnew].
    destruct (insert_new_spec laws w this s key v Hr Hloc)
      as (w1 & a & Hrun & Hr1 & Hfresh & Hkept & Hcap & Hroom1).
    { eapply room_le; [done|]. simpl. lia. }
    destruct (IH w1 this (s ++ [(a, (key, v))]) Hr1 (Hnew a))
      as (w' & s' & Hrun' & Hr' & Hdata & Hkept' & Hfresh' & Hcap').
    { apply Hroom1. exact Hroom. }
    exists w', ((a, (key, v)) :: s'). split; [|split; [|split; [|split; [|split]]]].
    + simpl. erewrite bind_Ok; [|exact Hrun]. exact Hrun'.
    + by rewrite <- app_assoc in Hr'.
    + rewrite fmap_cons. by rewrite Hdata.
    + destruct Hkept as [Hk1 Hk2], Hkept' as [Hk1' Hk2']. split.
      * intros that Hne. rewrite Hk1' by done. auto.
      * intros x Hx Hal. rewrite fmap_app in Hk2'. simpl in Hk2'.
        assert (x ≠ a) as Hxa by (intros ->; destruct Hal; congruence).
        rewrite Hk2'; [by apply Hk2| |by rewrite Hk2].
        rewrite elem_of_app, list_elem_of_singleton. tauto.
    + intros x [->|Hx]%elem_of_cons; [done|].
      specialize (Hfresh' x Hx). destruct Hkept as [_ Hk2].
      destruct (nodes w !! x) as [n|] eqn:Hn; [|done].
      rewrite <- Hk2 in Hn; [congruence| |by eexists].
      intros Hin. apply list_elem_of_fmap in Hin as ([x' d] & -> & Hin).
      destruct (Rep_allocated _ _ _ _ _ Hr1 (proj2 (elem_of_app _ _ _) (or_introl Hin)))
        as (n' & Hn' & _). simpl in *. congruence.
    + intros c Hc. rewrite (Hcap' _ (Hcap c Hc)). simpl.
      rewrite length_app. simpl. do 2 f_equal. lia.
Qed.

End more_specs.

Lemma locate_split s key e :
  locate s key = Some e →
  ∃ s1 s2, s = s1 ++ e :: s2 ∧ locate s1 key = None
           ∧ equal_func (fst (snd e)) key = true.
Proof.
  induction s as [|e' s IH]; simpl; [done|].
  destruct (equal_func (fst (snd e')) key) eqn:He.
  - intros [= ->]. by exists [], s.
  - intros (s1 & s2 & -> & Hl & ?)%IH. exists (e' :: s1), s2.
    split; [done|]. simpl. by rewrite He.
Qed.

Section histories.
Hypothesis laws : lawful.

Lemma equal_cong k1 k2 k :
  equal_func k1 k2 = true → equal_func k k1 = equal_func k k2.
Proof.
  intros He. destruct (equal_func k k1) eqn:H1, (equal_func k k2) eqn:H2; try done.
  - rewrite (equal_trans laws k k1 k2) in H2; done.
  - rewrite (equal_trans laws k k2 k1) in H1; [done..|]. by apply (equal_sym laws).
Qed.

Lemma locate_equal s k1 k2 :
  equal_func k1 k2 = true → locate s k1 = locate s k2.
Proof.
  intros He. induction s as [|e s IH]; simpl; [done|].
  by rewrite (equal_cong k1 k2 _ He), IH.
Qed.

Lemma value_of_snoc s a k' v k :
  locate s k' = None →
  value_of (s ++ [(a, (k', v))]) k
  = if equal_func k' k
    then match value_of s k with Some v0 => Some v0 | None => Some v end
    else value_of s k.
Proof.
  intros Hl. unfold value_of. rewrite locate_app. simpl.
  destruct (equal_func k' k) eqn:He.
  - rewrite <- (locate_equal s k' k He), Hl. done.
  - by destruct (locate s k).
Qed.

Lemma value_of_present s k' k e :
  locate s k' = Some e → equal_func k' k = true →
  value_of s k = Some (snd (snd e)).
Proof.
  intros Hl He. unfold value_of. by rewrite <- (locate_equal s k' k He), Hl.
Qed.

Lemma value_of_erased h m s1 a d s2 ch k' k :
  rep h m (s1 ++ (a, d) :: s2) ch →
  locate s1 k' = None →
  equal_func (fst d) k' = true →
  value_of (s1 ++ s2) k
  = if equal_func k' k then None else value_of (s1 ++ (a, d) :: s2) k.
Proof.
  intros Hr Hl Hd. unfold value_of. rewrite !locate_app. simpl.
  destruct (equal_func k' k) eqn:He.
  - rewrite <- (locate_equal s1 k' k He), Hl.
    destruct (locate s2 k) as [[a2 d2]|] eqn:Hl2; [|done].
    apply locate_Some in Hl2 as [Hin He2]. simpl in He2.
    pose proof (rep_nodup _ _ _ _ Hr) as Hnd. rewrite fmap_app in Hnd.
    apply NoDup_app in Hnd as (_ & _ & [Hna _]%NoDup_cons).
    destruct Hna. assert (a = a2) as ->.
    { eapply (rep_keys _ _ _ _ Hr a d a2 d2).
      - apply elem_of_app. right. left.
      - apply elem_of_app. right. by right.
      - apply (equal_trans laws _ k'); [done|].
        apply (equal_trans laws _ k); [done|]. by apply (equal_sym laws). }
    apply list_elem_of_fmap. by exists (a2, d2).
  - destruct (locate s1 k); [done|].
    destruct (equal_func (fst d) k) eqn:Hdk; [|done].
    rewrite (equal_trans laws k' (fst d) k) in He; [done| |done].
    by apply (equal_sym laws).
Qed.

(** One call keeps the container well formed, moves the stored values as the
    specification says, at most doubles the capacity, and does not touch
    what the container does not own. *)
Lemma run_op_spec o w this s :
  Rep w this s →
  room w this 1 →
  ∃ w' s',
    run_op this o w = Ok tt w'
    ∧ Rep w' this s'
    ∧ (∀ k, value_of s' k = stored_step k (value_of s k) o)
    ∧ (∀ n, room w this (S n) → room w' this n)
    ∧ (∀ c, capacity w this = Some c →
         capacity w' this = Some c ∨ capacity w' this = Some (2 * c))
    ∧ kept this (s.*1) w w'
    ∧ (∀ a, a ∈ s'.*1 → a ∈ s.*1 ∨ nodes w !! a = None).
Proof.
  intros Hr Hroom. destruct o as [[key v]|key| |key]; simpl.
  - destruct (locate s key) as [e|] eqn:Hl.
    + exists w, s. split; [by erewrite bind_Ok; [|by eapply insert_old_spec]|].
      split; [done|]. split; [|split; [|split; [by auto|split; [apply kept_refl|by auto]]]].
      * intros k. simpl. destruct (equal_func key k) eqn:He; [|done].
        by rewrite (value_of_present s key k e).
      * intros n Hn. eapply room_le; [done|lia].
    + destruct (insert_new_spec laws w this s key v Hr Hl Hroom)
        as (w' & a & Hrun & Hr' & Hfresh & Hkept & Hcap & Hroom').
      exists w', (s ++ [(a, (key, v))]).
      split; [by erewrite bind_Ok; [|exact Hrun]|]. split; [done|].
      split; [|split; [done|split; [|split; [done|]]]].
      * intros k. by apply value_of_snoc.
      * intros c Hc. rewrite (Hcap c Hc). case_bool_decide; auto.
      * intros x. rewrite fmap_app, elem_of_app. simpl.
        rewrite list_elem_of_singleton. intros [?| ->]; auto.
  - erewrite bind_Ok; [|by apply find_spec].
    erewrite bind_Ok; [|reflexivity].
    destruct (locate s key) as [[a d]|] eqn:Hl; simpl.
    + apply locate_split in Hl as (s1 & s2 & -> & Hl1 & Hd). simpl in Hd.
      destruct (erase_spec w this s1 a d s2 Hr)
        as (w' & Hrun & Hr' & Hgone & Hkept & Hcap & Hroom').
      exists w', (s1 ++ s2). unfold iterator_ne, iterator_eq. simpl.
      split; [done|]. split; [done|].
      split; [|split; [|split; [|split; [done|]]]].
      * intros k. destruct Hr as (m & ch & Hm & Hr).
        by eapply value_of_erased.
      * intros n Hn. apply Hroom'. eapply room_le; [done|lia].
      * intros c Hc. left. congruence.
      * intros x. rewrite !fmap_app, !elem_of_app. simpl. rewrite elem_of_cons.
        intros [?|?]; auto.
    + exists w, s. unfold iterator_ne, iterator_eq. simpl.
      rewrite !bool_decide_eq_true_2 by done. simpl.
      split; [done|]. split; [done|].
      split; [|split; [|split; [by auto|split; [apply kept_refl|by auto]]]].
      * intros k. destruct (equal_func key k) eqn:He; [|done].
        unfold value_of. by rewrite <- (locate_equal s key k He), Hl.
      * intros n Hn. eapply room_le; [done|lia].
  - destruct (clear_spec w this s Hr) as (w' & Hrun & Hr' & Hkept & Hcap & Hroom').
    exists w', []. split; [done|]. split; [done|].
    split; [done|]. split; [|split; [|split; [done|]]].
    + intros n Hn. apply Hroom'. eapply room_le; [done|lia].
    + intros c Hc. left. congruence.
    + by intros a ?%elem_of_nil.
  - destruct (locate s key) as [e|] eqn:Hl.
    + exists w, s. split; [by erewrite bind_Ok; [|by eapply operator_index_old_spec]|].
      split; [done|]. split; [|split; [|split; [by auto|split; [apply kept_refl|by auto]]]].
      * intros k. simpl. destruct (equal_func key k) eqn:He; [|done].
        by rewrite (value_of_present s key k e).
      * intros n Hn. eapply room_le; [done|lia].
    + destruct (operator_index_new_spec laws w this s key Hr Hl Hroom)
        as (w' & a & Hrun & Hins & _).
      destruct (insert_new_spec laws w this s key T_default Hr Hl Hroom)
        as (w'' & a' & Hrun' & Hr' & Hfresh & Hkept & Hcap & Hroom').
      rewrite Hins in Hrun'. injection Hrun' as <- <-.
      exists w', (s ++ [(a, (key, T_default))]).
      split; [by erewrite bind_Ok; [|exact Hrun]|]. split; [done|].
      split; [|split; [done|split; [|split; [done|]]]].
      * intros k. by apply value_of_snoc.
      * intros c Hc. rewrite (Hcap c Hc). case_bool_decide; auto.
      * intros x. rewrite fmap_app, elem_of_app. simpl.
        rewrite list_elem_of_singleton. intros [?| ->]; auto.
Qed.

Lemma run_spec ops : ∀ w this s,
  Rep w this s →
  room w this (length ops) →
  ∃ w' s',
    run this ops w = Ok tt w'
    ∧ Rep w' this s'
    ∧ (∀ k, value_of s' k = fold_left (stored_step k) ops (value_of s k))
    ∧ (∀ c, capacity w this = Some c →
         ∃ e : N, capacity w' this = Some (c * 2 ^ e))
    ∧ (∀ that so, that ≠ this → Rep w that so →
         (∀ x, x ∈ so.*1 → x ∉ s.*1) →
         Rep w' that so ∧ (∀ x, x ∈ so.*1 → x ∉ s'.*1)).
Proof.
  induction ops as [|o ops IH]; intros w this s Hr Hroom.
  - exists w, s. split; [done|]. split; [done|]. split; [done|].
    split; [|by auto]. intros c Hc. exists 0. rewrite Hc. f_equal. simpl. lia.
  - destruct (run_op_spec o w this s Hr) as (w1 & s1 & Hrun & Hr1 & Hval & Hroom1 & Hcap & Hkept & Hnew).
    { eapply room_le; [done|simpl; lia]. }
    destruct (IH w1 this s1 Hr1 (Hroom1 _ Hroom)) as (w' & s' & Hrun' & Hr' & Hval' & Hcap' & Hother).
    exists w', s'. split; [|split; [done|split; [|split]]].
    + simpl. erewrite bind_Ok; [|exact Hrun]. exact Hrun'.
    + intros k. simpl. by rewrite Hval', Hval.
    + intros c Hc. destruct (Hcap c Hc) as [Hc1|Hc1].
      * apply Hcap' in Hc1 as [e He]. by exists e.
      * apply Hcap' in Hc1 as [e He]. exists (e + 1). rewrite He. f_equal.
        rewrite N.pow_add_r. lia.
    + intros that so Hne Hso Hdis. apply Hother; [done| |].
      * by eapply kept_Rep.
      * intros x Hx Hx1. destruct (Hnew x Hx1) as [?|Hfresh]; [by eapply Hdis|].
        apply list_elem_of_fmap in Hx as ([x' d] & -> & Hin).
        destruct (Rep_allocated _ _ _ _ _ Hso Hin) as (n & ? & _). simpl in *. congruence.
Qed.

End histories.

(** ** What can throw *)

Lemma no_throw_ret {A} (a : A) : no_throw (ret a).
Proof. by intros w e w'. Qed.

Lemma no_throw_undefined {A} : no_throw (undefined (A:=A)).
Proof. by intros w e w'. Qed.

Lemma no_throw_bind {A B} (c : M A) (k : A → M B) :
  no_throw c → (∀ a, no_throw (k a)) → no_throw (bind c k).
Proof.
  intros Hc Hk w e w'. unfold bind. specialize (Hc w).
  destruct (c w) as [a w1|e1 w1| |]; [apply Hk|by destruct (Hc e1 w1)|done..].
Qed.

Lemma no_throw_load_node p : no_throw (load_node p).
Proof. intros w e w'. unfold load_node. by repeat case_match. Qed.

Lemma no_throw_modify_node p f : no_throw (modify_node p f).
Proof. intros w e w'. unfold modify_node. by repeat case_match. Qed.

Lemma no_throw_delete_node a : no_throw (delete_node a).
Proof. intros w e w'. unfold delete_node. by repeat case_match. Qed.

Lemma no_throw_load_map this : no_throw (load_map this).
Proof. intros w e w'. unfold load_map. by repeat case_match. Qed.

Lemma no_throw_modify_map this f : no_throw (modify_map this f).
Proof. intros w e w'. unfold modify_map. by repeat case_match. Qed.

Lemma no_throw_bucket key size : no_throw (bucket key size).
Proof. intros w e w'. unfold bucket. by case_decide. Qed.

Lemma no_throw_table_set this i p : no_throw (table_set this i p).
Proof.
  unfold table_set. apply no_throw_bind; [apply no_throw_load_map|]. intros m.
  destruct (hash_table m); [|apply no_throw_undefined].
  case_decide; [apply no_throw_modify_map|apply no_throw_undefined].
Qed.

Lemma no_throw_remove_from_hash this node : no_throw (remove_from_hash this node).
Proof.
  unfold remove_from_hash.
  apply no_throw_bind; [apply no_throw_load_node|]. intros n.
  apply no_throw_bind; [apply no_throw_load_map|]. intros m.
  apply no_throw_bind; [apply no_throw_bucket|]. intros index.
  apply no_throw_bind.
  { destruct (hash_prev n); [apply no_throw_modify_node|apply no_throw_table_set]. }
  intros _. apply no_throw_bind; [apply no_throw_load_node|]. intros n'.
  destruct (hash_next n'); [apply no_throw_modify_node|apply no_throw_ret].
Qed.

Lemma no_throw_remove_from_list this node : no_throw (remove_from_list this node).
Proof.
  unfold remove_from_list.
  apply no_throw_bind; [apply no_throw_load_node|]. intros n.
  apply no_throw_bind.
  { destruct (prev n); [apply no_throw_modify_node|apply no_throw_modify_map]. }
  intros _. apply no_throw_bind; [apply no_throw_load_node|]. intros n'.
  destruct (next n'); [apply no_throw_modify_node|apply no_throw_modify_map].
Qed.

Lemma erase_throws this pos w e w' :
  erase this pos w = Throw e w' →
  e = invalid_iterator ∧ w' = w
  ∧ (iterator.node pos = None ∨ iterator.map pos ≠ Some this).
Proof.
  unfold erase. destruct (iterator.node pos) as [a|] eqn:Hn.
  - case_decide as Hm.
    + intros Hrun. exfalso. revert Hrun.
      apply (no_throw_bind (remove_from_hash this (Some a))); [apply no_throw_remove_from_hash|].
      intros _. apply no_throw_bind; [apply no_throw_remove_from_list|].
      intros _. apply no_throw_bind; [apply no_throw_delete_node|].
      intros _. apply no_throw_modify_map.
    + intros [= <- <-]. auto.
  - intros [= <- <-]. auto.
Qed.

Lemma erase_invalid this pos w :
  iterator.node pos = None ∨ iterator.map pos ≠ Some this →
  erase this pos w = Throw invalid_iterator w.
Proof.
  unfold erase. intros [->|Hm]; [done|].
  destruct (iterator.node pos); [|done]. by rewrite decide_False.
Qed.

(** ** Copying *)

Lemma locate_None_data s key :
  locate s key = None ↔ ∀ d, d ∈ s.*2 → equal_func (fst d) key = false.
Proof.
  induction s as [|[a d] s IH]; simpl.
  - split; [by intros _ d ?%elem_of_nil|done].
  - destruct (equal_func (fst d) key) eqn:He.
    + split; [done|]. intros Hall. specialize (Hall d). rewrite He in Hall.
      discriminate Hall. left.
    + rewrite IH. split.
      * intros Hall d' [->|?]%elem_of_cons; auto.
      * intros Hall d' Hin. apply Hall. by right.
Qed.

Lemma kept_trans this l l' w w1 w' :
  kept this l w w1 → kept this l' w1 w' →
  (∀ x, x ∈ l' → x ∈ l ∨ nodes w !! x = None) →
  kept this l w w'.
Proof.
  intros [Hm1 Hn1] [Hm2 Hn2] Hl. split.
  - intros that Hne. rewrite Hm2 by done. auto.
  - intros x Hx Hal. rewrite Hn2; [by apply Hn1| |by rewrite Hn1].
    intros Hx'. destruct (Hl x Hx') as [?|Hnone]; [done|].
    destruct Hal. congruence.
Qed.

Lemma clear_buckets_null this k len m w n : ∀ i,
  maps w !! this = Some m →
  hash_table m = Some (replicate len None) →
  (N.to_nat i + n ≤ len)%nat →
  N.of_nat len < SIZE_MAX1 →
  clear_buckets this k n i w = Ok tt w.
Proof.
  induction n as [|n IH]; intros i Hm Ht Hi Hlen; simpl; [done|].
  erewrite bind_Ok.
  2:{ eapply table_get_Ok; [done..|]. apply lookup_replicate_2. lia. }
  erewrite bind_Ok; [|by destruct k].
  rewrite wrap_small by lia. apply IH; [done..| |done]. lia.
Qed.

Section copying.
Hypothesis laws : lawful.

Lemma copy_loop_run s2 : ∀ k w s1 st this other,
  this ≠ other →
  Rep w other (s1 ++ s2) →
  Rep w this st →
  st.*2 = s1.*2 →
  (∀ x, x ∈ st.*1 → x ∉ (s1 ++ s2).*1) →
  capacity w this = capacity w other →
  (length s2 < k)%nat →
  ∃ w' st',
    copy_loop k this (first_or (s2.*1) None) w = Ok tt w'
    ∧ Rep w' this (st ++ st')
    ∧ st'.*2 = s2.*2
    ∧ Rep w' other (s1 ++ s2)
    ∧ (∀ x, x ∈ (st ++ st').*1 → x ∉ (s1 ++ s2).*1)
    ∧ capacity w' this = capacity w other
    ∧ kept this (st.*1) w w'.
Proof.
  induction s2 as [|[a [key v]] s2 IH]; intros k w s1 st this other Hne Hro Hrt Hdata Hdis Hcap Hk.
  - exists w, []. rewrite !app_nil_r in *. split; [by destruct k|].
    split; [done|]. split; [done|]. split; [done|]. split; [done|].
    split; [done|apply kept_refl].
  - destruct k as [|k]; [simpl in Hk; lia|].
    assert ((s1 ++ (a, (key, v)) :: s2) !! length s1 = Some (a, (key, v))) as Hi.
    { by rewrite list_lookup_middle. }
    destruct (Rep_lookup _ _ _ _ _ _ Hro Hi) as (n & Hn & Hdn & _ & Hnext).
    assert (fst <$> (s1 ++ (a, (key, v)) :: s2) !! S (length s1) = first_or (s2.*1) None)
      as Hnext'.
    { rewrite lookup_app_r by lia. replace (S (length s1) - length s1)%nat with 1%nat by lia.
      simpl. by destruct s2. }
    rewrite Hnext' in Hnext. clear Hnext'.
    assert (a ∉ s1.*1) as Ha1.
    { destruct Hro as (mo & cho & _ & Hro). pose proof (rep_nodup _ _ _ _ Hro) as Hnd.
      rewrite fmap_app in Hnd. apply NoDup_app in Hnd as (_ & Hd' & _).
      intros Hin. apply (Hd' a Hin). left. }
    assert (locate st key = None) as Hloc.
    { apply locate_None_data. rewrite Hdata. intros d Hin.
      destruct (equal_func (fst d) key) eqn:He; [|done]. exfalso.
      apply list_elem_of_fmap in Hin as ([a1 d1] & -> & Hin). simpl in He.
      destruct Hro as (mo & cho & _ & Hro).
      assert (a1 = a) as ->.
      { eapply (rep_keys _ _ _ _ Hro a1 d1 a (key, v)); [|apply elem_of_app; right; left|done].
        apply elem_of_app. by left. }
      apply Ha1. apply list_elem_of_fmap. by exists (a, d1). }
    assert (can_grow w this) as Hgrow.
    { intros mt Hmt Hreach. exfalso.
      destruct (Rep_capacity _ _ _ Hro) as (c & e & Hc & _ & Hload).
      rewrite Hc in Hcap. unfold capacity in Hcap. rewrite Hmt in Hcap.
      injection Hcap as Hcap. destruct Hrt as (mt' & cht & Hmt' & Hrt). simplify_eq.
      pose proof (rep_count _ _ _ _ Hrt) as Hcount.
      rewrite <- (length_fmap snd st), Hdata, length_fmap in Hcount.
      rewrite length_app in Hload. simpl in Hload. lia. }
    destruct (insert_new_spec_gen laws w this st key v Hrt Hloc Hgrow)
      as (w1 & a' & Hrun & Hrt1 & Hfresh & Hkept & Hcap1 & _).
    assert (Rep w1 other (s1 ++ (a, (key, v)) :: s2)) as Hro1.
    { eapply kept_Rep; [done..|]. intros x Hx Hx'. by eapply Hdis. }
    assert (nodes w1 !! a = Some n) as Hn1.
    { destruct Hkept as [_ Hk2]. rewrite Hk2; [done| |by eexists].
      intros Hin. eapply Hdis; [done|]. rewrite fmap_app. apply elem_of_app. right. left. }
    assert (capacity w1 this = capacity w other) as Hcap1'.
    { destruct (Rep_capacity _ _ _ Hro) as (c & e & Hc & _ & Hload).
      rewrite Hc in Hcap. rewrite (Hcap1 c Hcap), Hc. f_equal.
      rewrite bool_decide_eq_false_2; [done|].
      rewrite <- (length_fmap snd st), Hdata, length_fmap.
      rewrite length_app in Hload. simpl in Hload. lia. }
    assert (capacity w1 other = capacity w other) as Hcapo.
    { unfold capacity. destruct Hkept as [Hk1 _]. by rewrite Hk1. }
    destruct (IH k w1 (s1 ++ [(a, (key, v))]) (st ++ [(a', (key, v))]) this other)
      as (w' & st' & Hrun' & Hrt' & Hdata' & Hro' & Hdis' & Hcap' & Hkept'); try done.
    + by rewrite <- app_assoc.
    + by rewrite !fmap_app, Hdata.
    + intros x. rewrite <- app_assoc. simpl. rewrite fmap_app, elem_of_app. simpl.
      rewrite list_elem_of_singleton. intros [Hx| ->]; [by apply Hdis|].
      by apply (Rep_fresh w other).
    + congruence.
    + simpl in Hk. lia.
    + exists w', ((a', (key, v)) :: st').
      rewrite <- !app_assoc in *.
      split; [|split; [done|split; [by rewrite !fmap_cons, Hdata'|split; [done|split; [done|split]]]]].
      * simpl. erewrite bind_Ok; [|by apply load_node_Ok].
        rewrite Hdn. erewrite bind_Ok; [|exact Hrun].
        erewrite bind_Ok; [|by apply load_node_Ok].
        rewrite Hnext. exact Hrun'.
      * congruence.
      * eapply kept_trans; [done..|]. intros x. rewrite fmap_app, elem_of_app. simpl.
        rewrite list_elem_of_singleton. intros [?| ->]; auto.
Qed.

(** The table of a container that is about to receive the entries of
    [other]: empty, of the capacity of [other]. *)
Lemma copy_start w this other so m :
  this ≠ other →
  Rep w other so →
  maps w !! this = Some m →
  ∃ mo w1,
    maps w !! other = Some mo
    ∧ initialize_table this (table_size mo) w = Ok tt w1
    ∧ nodes w1 = nodes w
    ∧ (∀ that, that ≠ this → maps w1 !! that = maps w !! that)
    ∧ capacity w1 this = capacity w other
    ∧ (head m = None → tail m = None → element_count m = 0 → Rep w1 this []).
Proof.
  intros Hne (mo & cho & Hmo & Hro) Hm. destruct w as [h ms]. simpl in *.
  exists mo. eexists. split; [done|]. split; [|split; [|split; [|split]]].
  - unfold initialize_table.
    erewrite bind_Ok; [|by apply modify_map_Ok].
    erewrite modify_map_Ok; [|apply lookup_insert_eq].
    cbn [nodes maps]. rewrite insert_insert_eq. reflexivity.
  - done.
  - intros that Hthat. simpl. by rewrite lookup_insert_ne.
  - unfold capacity. simpl. by rewrite lookup_insert_eq, Hmo.
  - intros Hh Ht Hc. eexists _, (λ _, []). split; [apply lookup_insert_eq|].
    split; simpl; try done.
    + apply NoDup_nil_2.
    + by intros a d ?%elem_of_nil.
    + by intros a1 d1 a2 d2 ?%elem_of_nil.
    + apply (rep_cap _ _ _ _ Hro).
    + apply (rep_range _ _ _ _ Hro).
    + rewrite Hc. lia.
    + eexists. split; [done|]. apply buckets_empty.
Qed.

Lemma copy_into w this other so :
  this ≠ other →
  Rep w other so →
  Rep w this [] →
  capacity w this = capacity w other →
  ∃ w' s',
    (let* o := load_map other in
     let* k := fuel in
     copy_loop k this (head o)) w = Ok tt w'
    ∧ Rep w' this s'
    ∧ s'.*2 = so.*2
    ∧ Rep w' other so
    ∧ (∀ x, x ∈ s'.*1 → x ∉ so.*1)
    ∧ capacity w' this = capacity w other
    ∧ capacity w' other = capacity w other
    ∧ kept this [] w w'.
Proof.
  intros Hne Hro Hrt Hcap.
  destruct (copy_loop_run so (S (base.size (nodes w))) w [] [] this other)
    as (w' & s' & Hrun & Hrt' & Hdata & Hro' & Hdis & Hcap' & Hkept); try done.
  { by intros x ?%elem_of_nil. }
  { destruct Hro as (mo & cho & Hmo & Hro). apply Nat.lt_succ_r.
    rewrite <- (length_fmap fst so).
    apply length_le_size; [apply (rep_nodup _ _ _ _ Hro)|].
    intros a Ha. by eapply dll_allocated; [apply (rep_order _ _ _ _ Hro)|]. }
  exists w', s'. simpl in *.
  split; [|split; [done|split; [done|split; [done|split; [done|split; [done|split; [|done]]]]]]].
  - destruct Hro as (mo & cho & Hmo & Hro).
    erewrite bind_Ok; [|by apply load_map_Ok].
    erewrite bind_Ok; [|reflexivity].
    by rewrite (rep_head _ _ _ _ Hro).
  - unfold capacity. destruct Hkept as [Hk _]. by rewrite Hk.
Qed.

Lemma construct_copy_spec w this other so :
  this ≠ other →
  Rep w other so →
  ∃ w' s',
    construct_copy this other w = Ok tt w'
    ∧ Rep w' this s'
    ∧ s'.*2 = so.*2
    ∧ Rep w' other so
    ∧ (∀ x, x ∈ s'.*1 → x ∉ so.*1)
    ∧ capacity w' this = capacity w other
    ∧ capacity w' other = capacity w other.
Proof.
  intros Hne Hro. destruct w as [h ms].
  set (w0 := World h (<[this := mkMap None None None 0 0]> ms)).
  assert (Rep w0 other so) as Hro0.
  { eapply Rep_frame; [done| |done]. simpl. by rewrite lookup_insert_ne. }
  destruct (copy_start w0 this other so (mkMap None None None 0 0) Hne Hro0)
    as (mo & w1 & Hmo & Hrun1 & Hnodes & Hmaps & Hcap & Hrt); [apply lookup_insert_eq|].
  specialize (Hrt eq_refl eq_refl eq_refl).
  assert (Rep w1 other so) as Hro1.
  { eapply Rep_frame; [done|by apply Hmaps|]. intros x _. by rewrite Hnodes. }
  assert (capacity w1 other = capacity (World h ms) other) as Hcapo.
  { unfold capacity. rewrite Hmaps by done. simpl. by rewrite lookup_insert_ne. }
  destruct (copy_into w1 this other so Hne Hro1 Hrt)
    as (w' & s' & Hrun & Hrt' & Hdata & Hro' & Hdis & Hcap' & Hcapo' & _).
  { rewrite Hcap. unfold capacity. rewrite Hmaps by done. done. }
  exists w', s'. split; [|split; [done|split; [done|split; [done|split; [done|]]]]].
  - unfold construct_copy. erewrite bind_Ok; [|reflexivity]. fold w0.
    erewrite bind_Ok; [|by apply load_map_Ok].
    erewrite bind_Ok; [|exact Hrun1]. exact Hrun.
  - split; congruence.
Qed.

Lemma operator_assign_spec w this other st so :
  this ≠ other →
  Rep w this st →
  Rep w other so →
  (∀ x, x ∈ st.*1 → x ∉ so.*1) →
  ∃ w' s',
    operator_assign this other w = Ok this w'
    ∧ Rep w' this s'
    ∧ s'.*2 = so.*2
    ∧ Rep w' other so
    ∧ (∀ x, x ∈ s'.*1 → x ∉ so.*1)
    ∧ capacity w' this = capacity w other
    ∧ capacity w' other = capacity w other.
Proof.
  intros Hne Hrt Hro Hdis.
  destruct (clear_spec w this st Hrt) as (w1 & Hrun1 & Hrt1 & Hkept1 & _).
  assert (Rep w1 other so) as Hro1.
  { eapply kept_Rep; [done..|]. intros x Hx Hx'. by eapply Hdis. }
  assert (capacity w1 other = capacity w other) as Hcap1.
  { unfold capacity. destruct Hkept1 as [Hk _]. by rewrite Hk. }
  destruct Hrt1 as (m1 & ch1 & Hm1 & Hrt1).
  destruct (rep_table _ _ _ _ Hrt1) as (tb & Htb & Hb).
  assert (tb = replicate (length tb) None) as Htbn.
  { apply list_eq. intros i. destruct (decide (i < length tb)%nat) as [Hi|Hi].
    - rewrite lookup_replicate_2 by done.
      pose proof (bk_head _ _ _ _ _ Hb (N.of_nat i)) as Hhd.
      rewrite (bk_length _ _ _ _ _ Hb) in Hi. rewrite Nat2N.id in Hhd.
      rewrite Hhd by lia.
      pose proof (bk_member _ _ _ _ _ Hb (N.of_nat i)) as Hmem.
      destruct (ch1 (N.of_nat i)) as [|x l]; [done|].
      destruct (proj1 (Hmem x ltac:(lia)) ltac:(left)) as (d & Hin & _).
      by apply elem_of_nil in Hin.
    - rewrite !lookup_ge_None_2; [done|rewrite length_replicate|]; lia. }
  set (m2 := set_hash_table None m1).
  set (w2 := World (nodes w1) (<[this := m2]> (maps w1))).
  assert (clear_table this w1 = Ok tt w2) as Hrun2.
  { unfold clear_table. erewrite bind_Ok; [|by apply load_map_Ok].
    rewrite Htb. erewrite bind_Ok; [|reflexivity].
    erewrite bind_Ok.
    2:{ eapply (clear_buckets_null _ _ (length tb)); [done|by rewrite <- Htbn| |].
        - rewrite (bk_length _ _ _ _ _ Hb). simpl. lia.
        - rewrite (bk_length _ _ _ _ _ Hb), N2Nat.id. apply (rep_range _ _ _ _ Hrt1). }
    by apply modify_map_Ok. }
  assert (Rep w2 other so) as Hro2.
  { eapply Rep_frame; [done| |done]. simpl. by rewrite lookup_insert_ne. }
  destruct (copy_start w2 this other so m2 Hne Hro2)
    as (mo & w3 & Hmo & Hrun3 & Hnodes & Hmaps & Hcap & Hrt3); [apply lookup_insert_eq|].
  pose proof (rep_head _ _ _ _ Hrt1) as Hh. pose proof (rep_tail _ _ _ _ Hrt1) as Ht.
  pose proof (rep_count _ _ _ _ Hrt1) as Hc. simpl in Hh, Ht, Hc.
  specialize (Hrt3 Hh Ht Hc).
  assert (Rep w3 other so) as Hro3.
  { eapply Rep_frame; [done|by apply Hmaps|]. intros x _. by rewrite Hnodes. }
  assert (capacity w2 other = capacity w other) as Hcap2.
  { unfold capacity. simpl. rewrite lookup_insert_ne by done. exact Hcap1. }
  destruct (copy_into w3 this other so Hne Hro3 Hrt3)
    as (w' & s' & Hrun & Hrt' & Hdata & Hro' & Hdis' & Hcap' & Hcapo' & _).
  { rewrite Hcap. unfold capacity. by rewrite Hmaps. }
  assert (capacity w3 other = capacity w other) as Hcap3.
  { unfold capacity. rewrite Hmaps by done. exact Hcap2. }
  exists w', s'. split; [|split; [done|split; [done|split; [done|split; [done|]]]]].
  - unfold operator_assign. rewrite decide_False by done.
    erewrite bind_Ok; [|exact Hrun1].
    erewrite bind_Ok; [|exact Hrun2].
    erewrite bind_Ok; [|by apply load_map_Ok].
    erewrite bind_Ok; [|exact Hrun3].
    unfold bind in Hrun |- *.
    destruct (load_map other w3) as [o3 w3'| | |] eqn:Ho3; try done.
    destruct (fuel w3') as [k w3''| | |] eqn:Hf; try done.
    by rewrite Hrun.
  - split; congruence.
Qed.

End copying.

Lemma room_Rep_inv w this s n :
  Rep w this s → room w this n →
  ∃ c, capacity w this = Some c ∧ 3 * c ≤ 2 ^ 54
       ∧ 8 * (N.of_nat (length s) + N.of_nat n) ≤ 2 ^ 54.
Proof.
  intros (m & ch & Hm & Hr) (m' & Hm' & ? & ?).
  assert (m' = m) as -> by congruence.
  exists (table_size m). unfold capacity. rewrite Hm. split; [done|]. split; [done|].
  by rewrite <- (rep_count _ _ _ _ Hr).
Qed.

Lemma room_fresh w this s n c :
  Rep w this s → capacity w this = Some c → 3 * c ≤ 2 ^ 54 →
  8 * (N.of_nat (length s) + N.of_nat n) ≤ 2 ^ 54 →
  room w this n.
Proof.
  intros (m & ch & Hm & Hr) Hc ??. exists m. split; [done|].
  unfold capacity in Hc. rewrite Hm in Hc. injection Hc as Hc.
  rewrite Hc, (rep_count _ _ _ _ Hr). done.
Qed.

Section reachable.
Hypothesis laws : lawful.

(** A fresh container into which new keys have been inserted is well
    formed, and has room left. *)
Lemma built w this values :
  distinct_keys (values.*1) →
  N.of_nat (length values) ≤ 2 ^ 50 →
  ∃ w1 w2 s,
    construct this w = Ok tt w1
    ∧ insert_all this values w1 = Ok tt w2
    ∧ Rep w2 this s
    ∧ s.*2 = values
    ∧ room w2 this (length values).
Proof.
  intros Hdis Hlen. destruct (construct_spec w this) as (w1 & Hc & Hr & Hcap & _).
  destruct (insert_all_spec laws values w1 this [] Hr)
    as (w2 & s & Hrun & Hr' & Hd & _ & _ & Hcap').
  { by split. }
  { eapply room_fresh; [done..| |]; simpl; size_lia. }
  exists w1, w2, s. split; [done|]. split; [done|]. split; [done|]. split; [done|].
  destruct (Rep_capacity _ _ _ Hr') as (c & e & Hc' & _ & Hload).
  eapply room_fresh; [done..| |].
  - simpl in Hload. rewrite <- (length_fmap snd s), Hd in Hload.
    destruct (decide (c = 16)) as [->|Hne]; [size_lia|].
    specialize (Hcap' _ Hcap). rewrite Hc' in Hcap'. injection Hcap' as Hcap'.
    simpl in Hcap'.
    assert (∀ n c0 k, 16 ≤ c0 → 3 * c0 ≤ 16 * 3 + 8 * (k + N.of_nat n) →
              3 * capacity_after c0 k n ≤ 16 * 3 + 8 * (k + N.of_nat n)) as Hgrow.
    { clear. induction n as [|n IH]; intros c0 k H16 Hc0; simpl; [lia|].
      case_bool_decide.
      - etrans; [apply IH|]; lia.
      - etrans; [apply IH|]; lia. }
    specialize (Hgrow (length values) 16 (N.of_nat 0)).
    rewrite <- Hcap' in Hgrow. size_lia.
  - simpl. rewrite <- (length_fmap snd s), Hd. size_lia.
Qed.

End reachable.

(** * The claims *)

Section claims.
Hypothesis laws : lawful.

Lemma rehash_spec w this s :
  Rep w this s →
  room w this 0 →
  ∃ w', rehash this w = Ok tt w'
        ∧ Rep w' this s
        ∧ (∀ c, capacity w this = Some c → capacity w' this = Some (2 * c)).
Proof.
  intros (m & ch & Hm & Hr) (m0 & Hm0 & Hb1 & Hb2). simplify_eq.
  destruct w as [h ms]. simpl in *.
  destruct (rehash_run h ms this m s ch) as (h' & m' & ch' & Hrun & Hr' & Hts & _);
    [done..|size_lia|].
  eexists. split; [exact Hrun|]. split.
  - exists m', ch'. split; [apply lookup_insert_eq|done].
  - intros c. unfold capacity. simpl. rewrite lookup_insert_eq, Hm. simpl.
    intros [= <-]. by rewrite Hts.
Qed.

(** C1.  Inserting any sequence of pairwise distinct keys into a fresh
    container and then iterating from [begin()] to [end()] yields the
    entries in exactly the order of insertion, whatever growth happened on
    the way; and [rehash] on any well-formed container returns and leaves
    the iteration order as it was. *)
Theorem insertion_order_preserved :
  (∀ w this values,
     distinct_keys (values.*1) →
     N.of_nat (length values) ≤ 2 ^ 51 →
     ∃ w1 w2,
       construct this w = Ok tt w1
       ∧ insert_all this values w1 = Ok tt w2
       ∧ traverse this w2 = Ok values w2)
  ∧ (∀ w this s,
       Rep w this s → room w this 0 →
       ∃ w', rehash this w = Ok tt w'
             ∧ traverse this w = Ok (s.*2) w
             ∧ traverse this w' = Ok (s.*2) w').
Proof.
  split.
  - intros w this values Hdis Hlen.
    destruct (construct_spec w this) as (w1 & Hc & Hr & Hcap & _).
    destruct (insert_all_spec laws values w1 this [] Hr) as (w2 & s' & Hrun & Hr' & Hd & _).
    { split; [done|done]. }
    { destruct Hr as (m & ch & Hm & Hr). exists m. split; [done|].
      pose proof (rep_count _ _ _ _ Hr) as Hcount. simpl in Hcount.
      unfold capacity in Hcap. rewrite Hm in Hcap. simpl in Hcap.
      injection Hcap as Hcap. rewrite Hcap, Hcount. size_lia. }
    exists w1, w2. split; [done|]. split; [done|].
    rewrite (traverse_spec _ _ _ Hr'). simpl. by rewrite Hd.
  - intros w this s Hr Hroom.
    destruct (rehash_spec w this s Hr Hroom) as (w' & Hrun & Hr' & _).
    exists w'. split; [done|]. split; by apply traverse_spec.
Qed.

(** C2.  After any history of insertions, erasures, clears and
    access-or-insert calls on a fresh container: a key for which the history
    has stored a value is found, [find] returns an iterator to an entry with
    that value and an equal key; a key never inserted, or erased since, is
    not found: [find] returns [end()] and [count] returns 0. *)
Theorem lookup_correct w this ops k :
  N.of_nat (length ops) ≤ 2 ^ 51 →
  ∃ w1 w2,
    construct this w = Ok tt w1
    ∧ run this ops w1 = Ok tt w2
    ∧ match stored ops k with
      | Some v =>
          ∃ a k0,
            find this k w2 = Ok (iterator.mk (Some a) (Some this)) w2
            ∧ read a w2 = Ok (k0, v) w2
            ∧ equal_func k0 k = true
            ∧ count this k w2 = Ok 1 w2
      | None =>
          (∃ e, end_ this w2 = Ok e w2 ∧ find this k w2 = Ok e w2)
          ∧ count this k w2 = Ok 0 w2
      end.
Proof.
  intros Hlen. destruct (construct_spec w this) as (w1 & Hc & Hr & Hcap & _).
  destruct (run_spec laws ops w1 this [] Hr) as (w2 & s & Hrun & Hr2 & Hval & _).
  { eapply room_fresh; [done..| |]; simpl; size_lia. }
  exists w1, w2. split; [done|]. split; [done|].
  specialize (Hval k). change (fold_left _ ops _) with (stored ops k) in Hval.
  rewrite <- Hval. unfold value_of.
  rewrite (find_spec laws _ _ _ _ Hr2), (count_spec laws _ _ _ _ Hr2).
  destruct (locate s k) as [[a [k0 v]]|] eqn:Hl; simpl.
  - apply locate_Some in Hl as [Hin He]. exists a, k0.
    split; [done|]. split; [by eapply read_spec|done].
  - split; [|done]. by eexists.
Qed.


Lemma capacity_after_12 n : (n ≤ 12)%nat → capacity_after 16 0 n = 16.
Proof.
  intros Hn. do 13 (destruct n as [|n]; [reflexivity|]). lia.
Qed.

(** C4, as the code has it.  After a successful insertion
    [4 * size() <= 3 * capacity].  No history of calls of [insert], [erase],
    [clear] and [operator[]] shrinks the capacity: each call leaves it as it
    is or doubles it, [clear] and [erase] leave it as it is.  Of 13 distinct
    keys inserted into a fresh container, whose capacity is 16, the first
    twelve leave the capacity at 16 and the thirteenth makes it 32, and all
    13 are found afterwards.  Assignment is the exception: [operator=] gives
    the destination the capacity of the source, whatever its own was, and
    self-assignment leaves it as it is. *)
Theorem growth_invariant :
  (∀ w this s value it w',
     Rep w this s → room w this 1 →
     insert this value w = Ok (it, true) w' →
     ∃ n c, size this w' = Ok n w' ∧ capacity w' this = Some c ∧ 4 * n ≤ 3 * c)
  ∧ (∀ w this s ops,
       Rep w this s → room w this (length ops) →
       ∃ w' c (e : N),
         run this ops w = Ok tt w'
         ∧ capacity w this = Some c ∧ capacity w' this = Some (c * 2 ^ e))
  ∧ (∀ w this s,
       Rep w this s →
       ∃ w', clear this w = Ok tt w' ∧ capacity w' this = capacity w this)
  ∧ (∀ w this s i a d,
       Rep w this s → s !! i = Some (a, d) →
       ∃ w', erase this (iterator.mk (Some a) (Some this)) w = Ok tt w'
             ∧ capacity w' this = capacity w this)
  ∧ (∀ w this values,
       distinct_keys (values.*1) → length values = 13%nat →
       ∃ w0 w13,
         construct this w = Ok tt w0
         ∧ capacity w0 this = Some 16
         ∧ (∀ n, (n ≤ 12)%nat →
              ∃ wn, insert_all this (take n values) w0 = Ok tt wn
                    ∧ capacity wn this = Some 16)
         ∧ insert_all this values w0 = Ok tt w13
         ∧ capacity w13 this = Some 32
         ∧ size this w13 = Ok 13 w13
         ∧ ∀ value, value ∈ values →
             ∃ a, find this (fst value) w13 = Ok (iterator.mk (Some a) (Some this)) w13
                  ∧ read a w13 = Ok value w13)
  ∧ (∀ w this s o,
       Rep w this s → room w this 1 →
       ∃ w' c,
         run_op this o w = Ok tt w'
         ∧ capacity w this = Some c
         ∧ (capacity w' this = Some c ∨ capacity w' this = Some (2 * c)))
  ∧ (∀ w this other st so,
       this ≠ other →
       Rep w this st → Rep w other so →
       (∀ x, x ∈ st.*1 → x ∉ so.*1) →
       room w other 0 →
       ∃ w', operator_assign this other w = Ok this w'
             ∧ capacity w' this = capacity w other
             ∧ capacity w' other = capacity w other)
  ∧ (∀ w this, operator_assign this this w = Ok this w).
Proof.
  split; [|split; [|split; [|split; [|split; [|split; [|split]]]]]].
  - intros w this s [key v] it w' Hr Hroom Hrun.
    destruct (locate s key) as [e|] eqn:Hl.
    { rewrite (insert_old_spec laws _ _ _ _ _ _ Hr Hl) in Hrun. done. }
    destruct (insert_new_spec laws w this s key v Hr Hl Hroom)
      as (w'' & a & Hrun' & Hr' & _).
    rewrite Hrun in Hrun'. injection Hrun' as _ ->.
    destruct (Rep_capacity _ _ _ Hr') as (c & e & Hc & _ & Hload).
    exists (N.of_nat (length (s ++ [(a, (key, v))]))), c.
    split; [by apply Rep_size|done].
  - intros w this s ops Hr Hroom.
    destruct (run_spec laws ops w this s Hr Hroom) as (w' & s' & Hrun & _ & _ & Hcap & _).
    destruct (Rep_capacity _ _ _ Hr) as (c & e0 & Hc & _).
    destruct (Hcap c Hc) as [e He]. by exists w', c, e.
  - intros w this s Hr.
    destruct (clear_spec w this s Hr) as (w' & Hrun & _ & _ & Hcap & _). eauto.
  - intros w this s i a d Hr Hi.
    rewrite <- (take_drop_middle s i (a, d) Hi) in Hr.
    destruct (erase_spec w this _ a d _ Hr) as (w' & Hrun & _ & _ & _ & Hcap & _). eauto.
  - intros w this values Hdis Hlen.
    destruct (construct_spec w this) as (w0 & Hc & Hr & Hcap & _).
    assert (∀ n, (n ≤ 13)%nat →
              ∃ wn sn, insert_all this (take n values) w0 = Ok tt wn
                       ∧ Rep wn this sn ∧ sn.*2 = take n values
                       ∧ capacity wn this = Some (capacity_after 16 0 n)) as Hn.
    { intros n Hn.
      destruct (insert_all_spec laws (take n values) w0 this [] Hr)
        as (wn & sn & Hrun & Hrn & Hd & _ & _ & Hcapn).
      - split; [done|]. intros i j k1 k2 Hi Hj. rewrite fmap_take in Hi, Hj.
        apply lookup_take_Some in Hi as [Hi _]. apply lookup_take_Some in Hj as [Hj _].
        by apply Hdis.
      - eapply room_fresh; [done..| |]; simpl; [size_lia|].
        rewrite length_take. size_lia.
      - exists wn, sn. split; [done|]. split; [done|]. split; [done|].
        rewrite (Hcapn _ Hcap). simpl. rewrite length_take. do 2 f_equal. lia. }
    destruct (Hn 13%nat) as (w13 & s13 & Hrun & Hr13 & Hd & Hcap13); [lia|].
    rewrite firstn_all2 in Hrun, Hd by lia.
    exists w0, w13. split; [done|]. split; [done|]. split; [|split; [done|split; [|split]]].
    + intros n Hle. destruct (Hn n) as (wn & sn & Hrunn & _ & _ & Hcapn); [lia|].
      exists wn. split; [done|]. by rewrite Hcapn, capacity_after_12.
    + by rewrite Hcap13.
    + rewrite (Rep_size _ _ _ Hr13). rewrite <- (length_fmap snd), Hd, Hlen. done.
    + intros value Hin. rewrite <- Hd in Hin.
      apply list_elem_of_fmap in Hin as ([a d] & -> & Hin). simpl.
      rewrite (find_spec laws _ _ _ _ Hr13).
      destruct (locate s13 (fst d)) as [[a' d']|] eqn:Hl.
      * apply locate_Some in Hl as [Hin' He]. simpl in He.
        destruct Hr13 as (m & ch & Hm & Hr13').
        assert (a' = a) as ->.
        { by eapply (rep_keys _ _ _ _ Hr13' a' d' a d). }
        assert (d' = d) as ->.
        { eapply NoDup_fst_agree; [apply (rep_nodup _ _ _ _ Hr13')|done..]. }
        exists a. split; [done|]. eapply read_spec; [|done]. by exists m, ch.
      * eapply locate_None in Hl; [|done]. simpl in Hl.
        by rewrite (equal_refl laws) in Hl.
  - intros w this s o Hr Hroom.
    destruct (run_op_spec laws o w this s Hr Hroom)
      as (w' & s' & Hrun & _ & _ & _ & Hcap & _).
    destruct (Rep_capacity _ _ _ Hr) as (c & e0 & Hc & _).
    exists w', c. split; [done|]. split; [done|]. by apply Hcap.
  - intros w this other st so Hne Hrt Hro Hdis _.
    destruct (operator_assign_spec laws w this other st so Hne Hrt Hro Hdis)
      as (w' & s' & Hrun & _ & _ & _ & _ & Hcap & Hcapo).
    by exists w'.
  - intros w this. unfold operator_assign. by rewrite decide_True.
Qed.

Lemma locate_erased h m s1 a k v s2 ch :
  rep h m (s1 ++ (a, (k, v)) :: s2) ch → locate (s1 ++ s2) k = None.
Proof.
  intros Hr. destruct (locate (s1 ++ s2) k) as [[a' d']|] eqn:Hl; [|done].
  apply locate_Some in Hl as [Hin He]. simpl in He.
  pose proof (rep_nodup _ _ _ _ Hr) as Hnd. rewrite fmap_app in Hnd.
  apply NoDup_app in Hnd as (_ & Hdis & [Hna _]%NoDup_cons). simpl in *.
  assert (a' = a) as ->.
  { eapply (rep_keys _ _ _ _ Hr a' d' a (k, v)); [|apply elem_of_app; right; left|done].
    revert Hin. rewrite !elem_of_app, elem_of_cons. tauto. }
  apply elem_of_app in Hin as [Hin|Hin].
  - destruct (Hdis a); [|left]. apply list_elem_of_fmap. by exists (a, d').
  - destruct Hna. apply list_elem_of_fmap. by exists (a, d').
Qed.

(** C5.  Erasing through a valid iterator, one that is at the [i]-th entry
    of the container, whose key is [k]: afterwards [count(k)] is 0, [size()]
    is one less, and iteration yields the entries as before with the [i]-th
    left out, all at their old addresses. *)
Theorem erase_consistent w this s i a k v :
  Rep w this s →
  s !! i = Some (a, (k, v)) →
  ∃ w',
    erase this (iterator.mk (Some a) (Some this)) w = Ok tt w'
    ∧ count this k w' = Ok 0 w'
    ∧ size this w = Ok (N.of_nat (length s)) w
    ∧ size this w' = Ok (N.of_nat (length s) - 1) w'
    ∧ traverse this w = Ok (s.*2) w
    ∧ traverse this w' = Ok (delete i (s.*2)) w'
    ∧ Rep w' this (delete i s).
Proof.
  intros Hr Hi. pose proof (lookup_lt_Some _ _ _ Hi) as Hlt.
  assert (traverse this w = Ok (s.*2) w) as Htr by by apply traverse_spec.
  assert (size this w = Ok (N.of_nat (length s)) w) as Hsz by by apply Rep_size.
  rewrite <- (take_drop_middle s i _ Hi) in Hr.
  destruct (erase_spec w this _ a (k, v) _ Hr) as (w' & Hrun & Hr' & _).
  rewrite <- delete_take_drop in Hr'.
  exists w'. split; [done|]. split; [|split; [done|split; [|split; [done|split; [|done]]]]].
  - rewrite (count_spec laws _ _ _ _ Hr'). rewrite delete_take_drop.
    destruct Hr as (m & ch & Hm & Hr). by rewrite (locate_erased _ _ _ _ _ _ _ _ Hr).
  - rewrite (Rep_size _ _ _ Hr'). rewrite length_delete by eauto. do 2 f_equal. lia.
  - rewrite (traverse_spec _ _ _ Hr'). f_equal.
    rewrite !delete_take_drop, fmap_app, fmap_take, fmap_drop. done.
Qed.

(** C7.  [at] throws [index_out_of_bound] exactly when the key is absent,
    and then leaves the memory as it was; for a present key it returns the
    reference to its entry.  [operator[]] does not throw: for an absent key
    it inserts the key with [T()] at the end of the order and returns the
    reference to that entry, for a present key it returns the reference
    [at] returns and changes nothing. *)
Theorem access_errors w this s key :
  Rep w this s →
  room w this 1 →
  (count this key w = Ok 0 w ↔ at_ this key w = Throw index_out_of_bound w)
  ∧ (count this key w = Ok 0 w →
       traverse this w = Ok (s.*2) w
       ∧ ∃ a w',
           operator_index this key w = Ok a w'
           ∧ read a w' = Ok (key, T_default) w'
           ∧ traverse this w' = Ok (s.*2 ++ [(key, T_default)]) w'
           ∧ at_ this key w' = Ok a w')
  ∧ (count this key w = Ok 1 w →
       ∃ a k0 v,
         at_ this key w = Ok a w
         ∧ operator_index this key w = Ok a w
         ∧ read a w = Ok (k0, v) w
         ∧ equal_func k0 key = true).
Proof.
  intros Hr Hroom.
  rewrite (count_spec laws _ _ _ _ Hr), (at_spec laws _ _ _ _ Hr).
  destruct (locate s key) as [[a [k0 v]]|] eqn:Hl.
  - split; [done|]. split; [done|]. intros _.
    apply locate_Some in Hl as Hin. destruct Hin as [Hin He].
    exists a, k0, v. split; [done|]. split; [|split; [by eapply read_spec|done]].
    by rewrite (operator_index_old_spec laws _ _ _ _ _ Hr Hl).
  - split; [done|]. split; [|done]. intros _.
    split; [by apply traverse_spec|].
    destruct (operator_index_new_spec laws w this s key Hr Hl Hroom)
      as (w' & a & Hrun & _ & Hr').
    exists a, w'. split; [done|]. split; [|split].
    + eapply read_spec; [done|]. apply elem_of_app. right. left.
    + rewrite (traverse_spec _ _ _ Hr'). by rewrite fmap_app.
    + rewrite (at_spec laws _ _ _ _ Hr'). rewrite locate_app, Hl. simpl.
      by rewrite (equal_refl laws).
Qed.

(** C6, as the code has it.  [erase] throws [invalid_iterator] exactly when
    the node of the iterator is null or its owner is not this container,
    which covers the past-the-end iterator and an iterator of another
    container; an iterator at a live entry of this container is erased
    without error; and whenever [erase] throws, the memory is as it was
    before the call. *)
Theorem erase_errors w this pos :
  (erase this pos w = Throw invalid_iterator w
   ↔ iterator.node pos = None ∨ iterator.map pos ≠ Some this)
  ∧ (∀ e w', erase this pos w = Throw e w' → e = invalid_iterator ∧ w' = w)
  ∧ (∀ e, end_ this w = Ok e w → erase this e w = Throw invalid_iterator w)
  ∧ (∀ that, that ≠ this → iterator.map pos = Some that →
       erase this pos w = Throw invalid_iterator w)
  ∧ (∀ s i a d, Rep w this s → s !! i = Some (a, d) →
       pos = iterator.mk (Some a) (Some this) →
       ∃ w', erase this pos w = Ok tt w').
Proof.
  split; [|split; [|split; [|split]]].
  - split; [|apply erase_invalid]. by intros (_ & _ & ?)%erase_throws.
  - intros e w' (? & ? & _)%erase_throws. done.
  - intros e [= <-]. by apply erase_invalid; left.
  - intros that Hne Hm. apply erase_invalid. right. congruence.
  - intros s i a d Hr Hi ->. rewrite <- (take_drop_middle s i (a, d) Hi) in Hr.
    destruct (erase_spec w this _ a d _ Hr) as (w' & Hrun & _). eauto.
Qed.

(** C8, as the code has it.  Stepping back from the past-the-end cursor of a
    container yields the cursor at its last entry; stepping forward from a
    cursor whose node is null, or in either direction from a cursor without
    owner, throws [invalid_iterator] and leaves the memory as it was;
    [operator*] on a cursor whose node is null throws [invalid_iterator],
    while [operator->] on such a cursor returns the null pointer.  The same
    holds of [const_iterator]. *)
Theorem cursor_errors :
  (∀ w this s, Rep w this s →
     let e := iterator.mk None (Some this) in
     let ce := const_iterator.mk None (Some this) in
     iterator_pre_decr e w = Ok (iterator.mk (last (s.*1)) (Some this)) w
     ∧ iterator_post_decr e w = Ok (iterator.mk (last (s.*1)) (Some this), e) w
     ∧ const_iterator_pre_decr ce w
       = Ok (const_iterator.mk (last (s.*1)) (Some this)) w
     ∧ const_iterator_post_decr ce w
       = Ok (const_iterator.mk (last (s.*1)) (Some this), ce) w)
  ∧ (∀ w it, iterator.node it = None ∨ iterator.map it = None →
       iterator_pre_incr it w = Throw invalid_iterator w
       ∧ iterator_post_incr it w = Throw invalid_iterator w)
  ∧ (∀ w it, iterator.map it = None →
       iterator_pre_decr it w = Throw invalid_iterator w
       ∧ iterator_post_decr it w = Throw invalid_iterator w)
  ∧ (∀ w it, iterator.node it = None →
       iterator_deref it w = Throw invalid_iterator w
       ∧ iterator_arrow it w = Ok None w)
  ∧ (∀ w it, const_iterator.node it = None ∨ const_iterator.map it = None →
       const_iterator_pre_incr it w = Throw invalid_iterator w
       ∧ const_iterator_post_incr it w = Throw invalid_iterator w)
  ∧ (∀ w it, const_iterator.map it = None →
       const_iterator_pre_decr it w = Throw invalid_iterator w
       ∧ const_iterator_post_decr it w = Throw invalid_iterator w)
  ∧ (∀ w it, const_iterator.node it = None →
       const_iterator_deref it w = Throw invalid_iterator w
       ∧ const_iterator_arrow it w = Ok None w).
Proof.
  split; [|split; [|split; [|split; [|split; [|split]]]]].
  - intros w this s (m & ch & Hm & Hr) e ce.
    assert (tail m = last (s.*1)) as Ht.
    { rewrite (rep_tail _ _ _ _ Hr). unfold last_or. by destruct (last (s.*1)). }
    unfold iterator_pre_decr, iterator_post_decr, const_iterator_pre_decr,
      const_iterator_post_decr. simpl.
    rewrite !(bind_Ok _ _ _ _ _ (load_map_Ok _ _ _ Hm)). by rewrite Ht.
  - by intros w [[a|] [o|]] [Hn|Hn]; simplify_eq/=.
  - intros w [n mp] Hn; simpl in Hn; subst. done.
  - intros w [n mp] Hn; simpl in Hn; subst. done.
  - by intros w [[a|] [o|]] [Hn|Hn]; simplify_eq/=.
  - intros w [n mp] Hn; simpl in Hn; subst. done.
  - intros w [n mp] Hn; simpl in Hn; subst. done.
Qed.

(** C10.  Decrementing a cursor that has an owner does not throw.  At the
    first entry of a container it yields the past-the-end cursor, and so
    does decrementing the past-the-end cursor of an empty container.  The
    same holds of [const_iterator]. *)
Theorem decrement_without_predecessor :
  (∀ w it e w', iterator.map it ≠ None →
     iterator_pre_decr it w ≠ Throw e w'
     ∧ iterator_post_decr it w ≠ Throw e w')
  ∧ (∀ w it e w', const_iterator.map it ≠ None →
       const_iterator_pre_decr it w ≠ Throw e w'
       ∧ const_iterator_post_decr it w ≠ Throw e w')
  ∧ (∀ w this s a d, Rep w this s → s !! 0%nat = Some (a, d) →
       begin this w = Ok (iterator.mk (Some a) (Some this)) w
       ∧ cbegin this w = Ok (const_iterator.mk (Some a) (Some this)) w
       ∧ iterator_pre_decr (iterator.mk (Some a) (Some this)) w
         = Ok (iterator.mk None (Some this)) w
       ∧ iterator_post_decr (iterator.mk (Some a) (Some this)) w
         = Ok (iterator.mk None (Some this), iterator.mk (Some a) (Some this)) w
       ∧ const_iterator_pre_decr (const_iterator.mk (Some a) (Some this)) w
         = Ok (const_iterator.mk None (Some this)) w
       ∧ const_iterator_post_decr (const_iterator.mk (Some a) (Some this)) w
         = Ok (const_iterator.mk None (Some this),
               const_iterator.mk (Some a) (Some this)) w)
  ∧ (∀ w this, Rep w this [] →
       iterator_pre_decr (iterator.mk None (Some this)) w
       = Ok (iterator.mk None (Some this)) w
       ∧ iterator_post_decr (iterator.mk None (Some this)) w
         = Ok (iterator.mk None (Some this), iterator.mk None (Some this)) w
       ∧ const_iterator_pre_decr (const_iterator.mk None (Some this)) w
         = Ok (const_iterator.mk None (Some this)) w
       ∧ const_iterator_post_decr (const_iterator.mk None (Some this)) w
         = Ok (const_iterator.mk None (Some this),
               const_iterator.mk None (Some this)) w).
Proof.
  split; [|split; [|split]].
  - intros w [n [owner|]] e w' Hm; [|done].
    unfold iterator_pre_decr, iterator_post_decr, bind, load_node, load_map. simpl.
    split; by repeat case_match.
  - intros w [n [owner|]] e w' Hm; [|done].
    unfold const_iterator_pre_decr, const_iterator_post_decr, bind, load_node, load_map.
    simpl. split; by repeat case_match.
  - intros w this s a d Hr Hi.
    destruct (Rep_lookup _ _ _ _ _ _ Hr Hi) as (n & Hn & _ & Hp & _).
    destruct Hr as (m & ch & Hm & Hr).
    assert (head m = Some a) as Hh.
    { rewrite (rep_head _ _ _ _ Hr). destruct s; simplify_eq/=. done. }
    unfold begin, cbegin, iterator_pre_decr, iterator_post_decr,
      const_iterator_pre_decr, const_iterator_post_decr. simpl.
    rewrite !(bind_Ok _ _ _ _ _ (load_map_Ok _ _ _ Hm)).
    rewrite !(bind_Ok _ _ _ _ _ (load_node_Ok _ _ _ Hn)).
    by rewrite Hh, Hp.
  - intros w this (m & ch & Hm & Hr).
    pose proof (rep_tail _ _ _ _ Hr) as Ht. simpl in Ht.
    unfold iterator_pre_decr, iterator_post_decr,
      const_iterator_pre_decr, const_iterator_post_decr. simpl.
    rewrite !(bind_Ok _ _ _ _ _ (load_map_Ok _ _ _ Hm)). by rewrite Ht.
Qed.

Lemma copied_intro w w' this other s' so :
  this ≠ other →
  Rep w other so →
  Rep w' this s' →
  s'.*2 = so.*2 →
  Rep w' other so →
  (∀ x, x ∈ s'.*1 → x ∉ so.*1) →
  capacity w' this = capacity w other →
  capacity w' other = capacity w other →
  copied w w' this other (so.*2).
Proof.
  intros Hne Hro Hrt' Hdata Hro' Hdis Hcap Hcapo.
  split; [by rewrite (traverse_spec _ _ _ Hrt'), Hdata|].
  split; [by apply traverse_spec|]. split; [done|].
  split; [by exists s', so|].
  intros ops Hroom.
  destruct (room_Rep_inv _ _ _ _ Hro Hroom) as (c & Hc & Hb1 & Hb2).
  split.
  - destruct (run_spec laws ops w' this s' Hrt') as (w'' & s'' & Hrun & _ & _ & _ & Hother).
    { eapply room_fresh; [done|by rewrite Hcap|done|].
      by rewrite <- (length_fmap snd s'), Hdata, length_fmap. }
    destruct (Hother other so) as [Hro'' _]; [done..| |].
    { intros x Hx Hx'. by eapply Hdis. }
    exists w''. split; [done|]. by apply traverse_spec.
  - destruct (run_spec laws ops w' other so Hro') as (w'' & s'' & Hrun & _ & _ & _ & Hother).
    { eapply room_fresh; [done|by rewrite Hcapo|done..]. }
    destruct (Hother this s') as [Hrt'' _]; [done..|].
    exists w''. split; [done|]. by rewrite (traverse_spec _ _ _ Hrt''), Hdata.
Qed.

(** C9.  The copy constructor and [operator=] insert the entries of the
    source, from the head of its order list to the tail, into the
    destination, whose table has been given the capacity of the source: for
    a well-formed source (of a size at which the load comparison is exact)
    the destination then iterates to the same entries in the same order and
    has the capacity of the source, it shares no node with the source, and
    no history of calls on one of the two changes what the other iterates
    to.  Self-assignment returns at once and changes nothing. *)
Theorem copy_semantics w this other so :
  this ≠ other →
  Rep w other so →
  room w other 0 →
  traverse other w = Ok (so.*2) w
  ∧ (∃ w', construct_copy this other w = Ok tt w'
           ∧ copied w w' this other (so.*2))
  ∧ (∀ st, Rep w this st → (∀ x, x ∈ st.*1 → x ∉ so.*1) →
       ∃ w', operator_assign this other w = Ok this w'
             ∧ copied w w' this other (so.*2))
  ∧ operator_assign other other w = Ok other w.
Proof.
  intros Hne Hro _. split; [by apply traverse_spec|]. split; [|split].
  - destruct (construct_copy_spec laws w this other so Hne Hro)
      as (w' & s' & Hrun & Hrt' & Hdata & Hro' & Hdis & Hcap & Hcapo).
    exists w'. split; [done|]. by eapply copied_intro.
  - intros st Hrt Hdis0.
    destruct (operator_assign_spec laws w this other st so Hne Hrt Hro Hdis0)
      as (w' & s' & Hrun & Hrt' & Hdata & Hro' & Hdis & Hcap & Hcapo).
    exists w'. split; [done|]. by eapply copied_intro.
  - unfold operator_assign. by rewrite decide_True.
Qed.

End claims.

(** * Further properties of the member functions *)

(** ** The heap apart from the container *)

Lemma outside_nil w x : outside w [] x = nodes w !! x.
Proof. unfold outside. by rewrite decide_False by apply not_elem_of_nil. Qed.

Lemma outside_in w l x : x ∈ l → outside w l x = None.
Proof. intros. unfold outside. by rewrite decide_True. Qed.

Lemma outside_out w l x : x ∉ l → outside w l x = nodes w !! x.
Proof. intros. unfold outside. by rewrite decide_False. Qed.

Lemma outside_Rep w w' this that (s s' so : list entry) :
  Rep w that so →
  (∀ x, x ∈ so.*1 → x ∉ s.*1) →
  Rep w' this s' →
  (∀ x, outside w' (s'.*1) x = outside w (s.*1) x) →
  (∀ x, x ∈ so.*1 → (x ∉ s'.*1) ∧ nodes w' !! x = nodes w !! x).
Proof.
  intros Hro Hdis Hr' Hout x Hx.
  apply list_elem_of_fmap in Hx as Hx'. destruct Hx' as ([x' d] & -> & Hin).
  destruct (Rep_allocated _ _ _ _ _ Hro Hin) as (n & Hn & _). simpl in *.
  specialize (Hout x'). rewrite (outside_out w) in Hout by by apply Hdis.
  unfold outside in Hout. destruct (decide (x' ∈ s'.*1)); [congruence|done].
Qed.

Section further_specs.
Hypothesis laws : lawful.

Lemma insert_new_exact w this s key v :
  Rep w this s →
  locate s key = None →
  can_grow w this →
  ∃ w' a,
    insert this (key, v) w = Ok (iterator.mk (Some a) (Some this), true) w'
    ∧ Rep w' this (s ++ [(a, (key, v))])
    ∧ nodes w !! a = None
    ∧ (∀ that, that ≠ this → maps w' !! that = maps w !! that)
    ∧ (∀ x, outside w' ((s ++ [(a, (key, v))]).*1) x = outside w (s.*1) x)
    ∧ (∀ n, room w this (S n) → room w' this n)
    ∧ (∀ c, capacity w this = Some c →
         capacity w' this
         = Some (if bool_decide (3 * c ≤ 4 * N.of_nat (length s)) then 2 * c else c)).
Proof.
  intros Hr Hloc Hgrow.
  destruct (insert_new_spec_gen laws w this s key v Hr Hloc Hgrow)
    as (w' & a & Hrun & Hr' & Hfr & [Hmaps _] & Hcap & Hroom).
  exists w', a. do 4 (split; [done|]). split; [|done].
  pose proof Hr as (m & ch & Hm & Hrep). destruct w as [h ms]. simpl in *.
  destruct (insert_absent laws h ms this m s ch key v Hm Hrep Hloc)
    as (h' & m' & ch' & Hrun' & _ & _ & _ & Hframe).
  { by apply Hgrow. }
  rewrite Hrun' in Hrun. injection Hrun as <- <-.
  intros x. unfold outside. rewrite fmap_app. simpl.
  destruct (decide (x ∈ s.*1)) as [Hx|Hx].
  - rewrite decide_True; [done|]. apply elem_of_app. by left.
  - destruct (decide (x = fresh (dom h))) as [->|Hne].
    + rewrite decide_True; [done|]. apply elem_of_app. right. left.
    + rewrite decide_False; [by apply Hframe|].
      rewrite elem_of_app, list_elem_of_singleton. tauto.
Qed.

Lemma erase_exact w this s1 a d s2 :
  Rep w this (s1 ++ (a, d) :: s2) →
  ∃ w',
    erase this (iterator.mk (Some a) (Some this)) w = Ok tt w'
    ∧ Rep w' this (s1 ++ s2)
    ∧ (∀ that, that ≠ this → maps w' !! that = maps w !! that)
    ∧ (∀ x, outside w' ((s1 ++ s2).*1) x = outside w ((s1 ++ (a, d) :: s2).*1) x)
    ∧ (∀ n, room w this n → room w' this n).
Proof.
  intros Hr.
  destruct (erase_spec w this s1 a d s2 Hr)
    as (w' & Hrun & Hr' & Hgone & [Hmaps _] & _ & Hroom).
  exists w'. do 3 (split; [done|]). split; [|done].
  pose proof Hr as (m & ch & Hm & Hrep). destruct w as [h ms]. simpl in *.
  destruct (erase_present h ms this m s1 a d s2 ch Hm Hrep)
    as (h' & m' & ch' & Hrun' & _ & _ & _ & Hframe).
  rewrite Hrun' in Hrun. injection Hrun as <-. simpl in Hgone.
  intros x. unfold outside.
  destruct (decide (x ∈ (s1 ++ (a, d) :: s2).*1)) as [Hx|Hx].
  - destruct (decide (x ∈ (s1 ++ s2).*1)) as [|Hx']; [done|].
    simpl. rewrite !fmap_app, !elem_of_app in *. simpl in Hx.
    rewrite elem_of_cons in Hx. destruct Hx as [?|[->|?]]; tauto.
  - rewrite decide_False; [by apply Hframe|].
    rewrite !fmap_app, !elem_of_app in *. simpl in Hx. rewrite elem_of_cons in Hx. tauto.
Qed.

Lemma clear_exact w this s :
  Rep w this s →
  ∃ w',
    clear this w = Ok tt w'
    ∧ Rep w' this []
    ∧ (∀ that, that ≠ this → maps w' !! that = maps w !! that)
    ∧ (∀ x, nodes w' !! x = outside w (s.*1) x)
    ∧ capacity w' this = capacity w this
    ∧ (∀ n, room w this n → room w' this n).
Proof.
  intros Hr.
  destruct (clear_spec w this s Hr) as (w' & Hrun & Hr' & [Hmaps _] & Hcap & Hroom).
  exists w'. do 3 (split; [done|]). split; [|done].
  pose proof Hr as (m & ch & Hm & Hrep). destruct w as [h ms]. simpl in *.
  destruct (clear_run h ms this m s ch Hm Hrep)
    as (h' & m' & Hrun' & _ & _ & Hgone & Hframe).
  rewrite Hrun' in Hrun. injection Hrun as <-. simpl.
  intros x. unfold outside. simpl. case_decide; auto.
Qed.

(** *** The list of entries and the entries with their addresses *)

Lemma has_key_locate s key :
  has_key (s.*2) key = match locate s key with Some _ => true | None => false end.
Proof.
  induction s as [|[a d] s IH]; [done|]. simpl.
  destruct (equal_func (fst d) key); [done|]. apply IH.
Qed.

Lemma remove_key_absent s key :
  locate s key = None → remove_key (s.*2) key = s.*2.
Proof.
  induction s as [|[a d] s IH]; [done|]. simpl.
  destruct (equal_func (fst d) key); [done|]. intros Hl. f_equal. by apply IH.
Qed.

Lemma remove_key_present s1 e s2 key :
  locate s1 key = None → equal_func (fst (snd e)) key = true →
  remove_key ((s1 ++ e :: s2).*2) key = (s1 ++ s2).*2.
Proof.
  intros Hl He. induction s1 as [|[a d] s1 IH]; simpl in *.
  - by rewrite He.
  - destruct (equal_func (fst d) key); [done|]. f_equal. by apply IH.
Qed.

Lemma set_value_absent s key v :
  locate s key = None → set_value (s.*2) key v = s.*2.
Proof.
  induction s as [|[a d] s IH]; [done|]. simpl.
  destruct (equal_func (fst d) key); [done|]. intros Hl. f_equal. by apply IH.
Qed.

Lemma set_value_present s1 a k v0 s2 key v :
  locate s1 key = None → equal_func k key = true →
  set_value ((s1 ++ (a, (k, v0)) :: s2).*2) key v = (s1 ++ (a, (k, v)) :: s2).*2.
Proof.
  intros Hl He. induction s1 as [|[a' d] s1 IH]; simpl in *.
  - by rewrite He.
  - destruct (equal_func (fst d) key); [done|]. f_equal. by apply IH.
Qed.

(** *** Histories, with the list of entries and the heap *)

Lemma run_op_exact o w this s :
  Rep w this s →
  room w this 1 →
  ∃ w' s',
    run_op this o w = Ok tt w'
    ∧ Rep w' this s'
    ∧ s'.*2 = entries_step (s.*2) o
    ∧ (∀ that, that ≠ this → maps w' !! that = maps w !! that)
    ∧ (∀ x, outside w' (s'.*1) x = outside w (s.*1) x)
    ∧ (∀ n, room w this (S n) → room w' this n).
Proof.
  intros Hr Hroom. destruct o as [[key v]|key| |key]; simpl.
  - rewrite has_key_locate. destruct (locate s key) as [e|] eqn:Hl.
    + exists w, s. split; [by erewrite bind_Ok; [|by eapply insert_old_spec]|].
      do 4 (split; [done|]). intros n Hn. eapply room_le; [done|lia].
    + destruct (insert_new_exact w this s key v Hr Hl)
        as (w' & a & Hrun & Hr' & Hfresh & Hmaps & Hout & Hroom' & _).
      { by eapply room_can_grow. }
      exists w', (s ++ [(a, (key, v))]).
      split; [by erewrite bind_Ok; [|exact Hrun]|]. split; [done|].
      split; [by rewrite fmap_app|done].
  - erewrite bind_Ok; [|by apply find_spec].
    erewrite bind_Ok; [|reflexivity].
    destruct (locate s key) as [[a d]|] eqn:Hl; simpl.
    + apply locate_split in Hl as (s1 & s2 & -> & Hl1 & Hd). simpl in Hd.
      destruct (erase_exact w this s1 a d s2 Hr)
        as (w' & Hrun & Hr' & Hmaps & Hout & Hroom').
      exists w', (s1 ++ s2). unfold iterator_ne, iterator_eq. simpl.
      split; [done|]. split; [done|].
      split; [by rewrite remove_key_present|]. split; [done|]. split; [done|].
      intros n Hn. apply Hroom'. eapply room_le; [done|lia].
    + exists w, s. unfold iterator_ne, iterator_eq. simpl.
      rewrite !bool_decide_eq_true_2 by done. simpl.
      split; [done|]. split; [done|].
      split; [by rewrite remove_key_absent|]. do 2 (split; [done|]).
      intros n Hn. eapply room_le; [done|lia].
  - destruct (clear_exact w this s Hr) as (w' & Hrun & Hr' & Hmaps & Hout & _ & Hroom').
    exists w', []. do 4 (split; [done|]). split.
    + intros x. simpl. by rewrite outside_nil.
    + intros n Hn. apply Hroom'. eapply room_le; [done|lia].
  - rewrite has_key_locate. destruct (locate s key) as [e|] eqn:Hl.
    + exists w, s. split; [by erewrite bind_Ok; [|by eapply operator_index_old_spec]|].
      do 4 (split; [done|]). intros n Hn. eapply room_le; [done|lia].
    + destruct (operator_index_new_spec laws w this s key Hr Hl Hroom)
        as (w' & a & Hrun & Hins & _).
      destruct (insert_new_exact w this s key T_default Hr Hl)
        as (w'' & a' & Hrun' & Hr' & Hfresh & Hmaps & Hout & Hroom' & _).
      { by eapply room_can_grow. }
      rewrite Hins in Hrun'. injection Hrun' as <- <-.
      exists w', (s ++ [(a, (key, T_default))]).
      split; [by erewrite bind_Ok; [|exact Hrun]|]. split; [done|].
      split; [by rewrite fmap_app|done].
Qed.

Lemma run_exact ops : ∀ w this s,
  Rep w this s →
  room w this (length ops) →
  ∃ w' s',
    run this ops w = Ok tt w'
    ∧ Rep w' this s'
    ∧ s'.*2 = fold_left entries_step ops (s.*2)
    ∧ (∀ that, that ≠ this → maps w' !! that = maps w !! that)
    ∧ (∀ x, outside w' (s'.*1) x = outside w (s.*1) x).
Proof.
  induction ops as [|o ops IH]; intros w this s Hr Hroom.
  - exists w, s. by repeat split.
  - destruct (run_op_exact o w this s Hr) as (w1 & s1 & Hrun1 & Hr1 & He1 & Hm1 & Ho1 & Hroom1).
    { eapply room_le; [done|simpl; lia]. }
    destruct (IH w1 this s1 Hr1) as (w2 & s2 & Hrun2 & Hr2 & He2 & Hm2 & Ho2).
    { by apply Hroom1. }
    exists w2, s2. split; [by simpl; erewrite bind_Ok; [|exact Hrun1]|].
    split; [done|]. split; [by simpl; rewrite <- He1|].
    split.
    + intros that Hne. by rewrite Hm2, Hm1.
    + intros x. by rewrite Ho2, Ho1.
Qed.

End further_specs.

(** *** The destructor *)

Lemma clear_table_empty w this :
  Rep w this [] →
  ∃ m, maps w !! this = Some m
       ∧ head m = None ∧ tail m = None ∧ element_count m = 0
       ∧ clear_table this w
         = Ok tt (World (nodes w) (<[this := set_hash_table None m]> (maps w))).
Proof.
  intros (m & ch & Hm & Hr).
  destruct (rep_table _ _ _ _ Hr) as (tb & Htb & Hb).
  assert (tb = replicate (length tb) None) as Htbn.
  { apply list_eq. intros i. destruct (decide (i < length tb)%nat) as [Hi|Hi].
    - rewrite lookup_replicate_2 by done.
      pose proof (bk_head _ _ _ _ _ Hb (N.of_nat i)) as Hhd.
      rewrite (bk_length _ _ _ _ _ Hb) in Hi. rewrite Nat2N.id in Hhd.
      rewrite Hhd by lia.
      pose proof (bk_member _ _ _ _ _ Hb (N.of_nat i)) as Hmem.
      destruct (ch (N.of_nat i)) as [|x l]; [done|].
      destruct (proj1 (Hmem x ltac:(lia)) ltac:(left)) as (d & Hin & _).
      by apply elem_of_nil in Hin.
    - rewrite !lookup_ge_None_2; [done|rewrite length_replicate|]; lia. }
  exists m. split; [done|].
  split; [apply (rep_head _ _ _ _ Hr)|]. split; [apply (rep_tail _ _ _ _ Hr)|].
  split; [apply (rep_count _ _ _ _ Hr)|].
  unfold clear_table. erewrite bind_Ok; [|by apply load_map_Ok].
  rewrite Htb. erewrite bind_Ok; [|reflexivity].
  erewrite bind_Ok.
  2:{ eapply (clear_buckets_null _ _ (length tb)); [done|by rewrite <- Htbn| |].
      - rewrite (bk_length _ _ _ _ _ Hb). simpl. lia.
      - rewrite (bk_length _ _ _ _ _ Hb), N2Nat.id. apply (rep_range _ _ _ _ Hr). }
  by apply modify_map_Ok.
Qed.

Lemma destructor_spec w this s :
  Rep w this s →
  ∃ w' m',
    destructor this w = Ok tt w'
    ∧ (∀ x, nodes w' !! x = outside w (s.*1) x)
    ∧ (∀ that, that ≠ this → maps w' !! that = maps w !! that)
    ∧ maps w' !! this = Some m'
    ∧ hash_table m' = None ∧ head m' = None ∧ tail m' = None
    ∧ element_count m' = 0.
Proof.
  intros Hr.
  destruct (clear_exact w this s Hr) as (w1 & Hrun1 & Hr1 & Hmaps1 & Hout1 & _).
  destruct (clear_table_empty w1 this Hr1) as (m & Hm & Hh & Ht & Hc & Hrun2).
  eexists _, (set_hash_table None m).
  split; [unfold destructor; erewrite bind_Ok; [exact Hrun2|exact Hrun1]|].
  split; [done|]. split.
  - intros that Hne. simpl. rewrite lookup_insert_ne by done. by apply Hmaps1.
  - split; [apply lookup_insert_eq|]. by simpl.
Qed.

Lemma Rep_distinct w this s : Rep w this s → distinct_keys (s.*2.*1).
Proof.
  intros (m & ch & _ & Hr) i j k1 k2 Hi Hj He.
  rewrite !list_lookup_fmap in Hi, Hj.
  destruct (s !! i) as [[a1 d1]|] eqn:Hsi; [|done].
  destruct (s !! j) as [[a2 d2]|] eqn:Hsj; [|done].
  simpl in Hi, Hj. simplify_eq.
  assert (a1 = a2) as <-.
  { eapply (rep_keys _ _ _ _ Hr); [by eapply list_elem_of_lookup_2..|done]. }
  eapply (NoDup_lookup _ _ _ a1 (rep_nodup _ _ _ _ Hr)); rewrite list_lookup_fmap.
  - by rewrite Hsi.
  - by rewrite Hsj.
Qed.


(** *** Cursors *)

Lemma Rep_head_tail w this s :
  Rep w this s →
  ∃ m, maps w !! this = Some m
       ∧ head m = fst <$> s !! 0%nat
       ∧ tail m = last (s.*1)
       ∧ element_count m = N.of_nat (length s).
Proof.
  intros (m & ch & Hm & Hr). exists m. split; [done|]. split; [|split].
  - rewrite (rep_head _ _ _ _ Hr). by destruct s.
  - rewrite (rep_tail _ _ _ _ Hr). unfold last_or. by destruct (last (s.*1)).
  - apply (rep_count _ _ _ _ Hr).
Qed.

Lemma step_forward w this s i a d :
  Rep w this s → s !! i = Some (a, d) →
  iterator_pre_incr (iterator.mk (Some a) (Some this)) w
  = Ok (iterator.mk (fst <$> s !! S i) (Some this)) w.
Proof.
  intros Hr Hi. destruct (Rep_lookup _ _ _ _ _ _ Hr Hi) as (n & Hn & _ & _ & Hnx).
  unfold iterator_pre_incr. simpl. erewrite bind_Ok; [|by apply load_node_Ok].
  by rewrite Hnx.
Qed.

Lemma step_back w this s i a d :
  Rep w this s → s !! i = Some (a, d) →
  iterator_pre_decr (iterator.mk (Some a) (Some this)) w
  = Ok (iterator.mk (match i with O => None | S j => fst <$> s !! j end) (Some this)) w.
Proof.
  intros Hr Hi. destruct (Rep_lookup _ _ _ _ _ _ Hr Hi) as (n & Hn & _ & Hp & _).
  unfold iterator_pre_decr. simpl. erewrite bind_Ok; [|by apply load_node_Ok].
  by rewrite Hp.
Qed.

Lemma step_back_end w this s :
  Rep w this s →
  iterator_pre_decr (iterator.mk None (Some this)) w
  = Ok (iterator.mk (last (s.*1)) (Some this)) w.
Proof.
  intros Hr. destruct (Rep_head_tail _ _ _ Hr) as (m & Hm & _ & Ht & _).
  unfold iterator_pre_decr. simpl. erewrite bind_Ok; [|by apply load_map_Ok].
  by rewrite Ht.
Qed.

Lemma begin_spec w this s :
  Rep w this s → begin this w = Ok (iterator.mk (fst <$> s !! 0%nat) (Some this)) w.
Proof.
  intros Hr. destruct (Rep_head_tail _ _ _ Hr) as (m & Hm & Hh & _).
  unfold begin. erewrite bind_Ok; [|by apply load_map_Ok]. by rewrite Hh.
Qed.

Lemma Rep_nodup w this s : Rep w this s → NoDup (s.*1).
Proof. intros (m & ch & _ & Hr). apply (rep_nodup _ _ _ _ Hr). Qed.

Lemma Rep_fuel w this s : Rep w this s → (length s < S (base.size (nodes w)))%nat.
Proof.
  intros Hr. apply Nat.lt_succ_r. rewrite <- (length_fmap fst s).
  apply length_le_size; [by eapply Rep_nodup|].
  intros a Ha. apply list_elem_of_fmap in Ha as ([a' d] & -> & Hin).
  destruct (Rep_allocated _ _ _ _ _ Hr Hin) as (n & ? & _). by eexists.
Qed.

Lemma collect_back_run w this s : ∀ i k,
  Rep w this s → (i ≤ length s)%nat → (i < k)%nat →
  collect_back k this (iterator.mk (fst <$> s !! i) (Some this)) w
  = Ok (rev (take i (s.*2))) w.
Proof.
  intros i k Hr. revert k. induction i as [|j IH]; intros k Hi Hk.
  - destruct k; [lia|]. simpl. erewrite bind_Ok; [|by apply begin_spec].
    unfold iterator_ne, iterator_eq. simpl.
    by rewrite !bool_decide_eq_true_2 by done.
  - destruct k as [|k]; [lia|]. simpl. erewrite bind_Ok; [|by apply begin_spec].
    destruct (lookup_lt_is_Some_2 s j) as [[a d] Hj]; [lia|].
    destruct (lookup_lt_is_Some_2 s 0) as [[a0 d0] H0]; [lia|].
    assert (fst <$> s !! S j ≠ fst <$> s !! 0%nat) as Hne.
    { rewrite H0. simpl. destruct (s !! S j) as [[a' d']|] eqn:HSj; [|done].
      simpl. intros [= ->].
      assert (S j = 0%nat); [|lia].
      eapply (NoDup_lookup _ _ _ a0 (Rep_nodup _ _ _ Hr)); rewrite list_lookup_fmap.
      - by rewrite HSj.
      - by rewrite H0. }
    unfold iterator_ne, iterator_eq. simpl.
    rewrite (bool_decide_eq_false_2 _ Hne). simpl.
    assert (iterator_pre_decr (iterator.mk (fst <$> s !! S j) (Some this)) w
            = Ok (iterator.mk (Some a) (Some this)) w) as Hstep.
    { destruct (s !! S j) as [[a' d']|] eqn:HSj; simpl.
      - erewrite step_back; [|done..]. simpl. by rewrite Hj.
      - erewrite step_back_end; [|done]. do 2 f_equal.
        rewrite last_lookup, length_fmap, list_lookup_fmap.
        apply lookup_ge_None_1 in HSj.
        replace (Nat.pred (length s)) with j by lia. by rewrite Hj. }
    erewrite bind_Ok; [|exact Hstep].
    erewrite bind_Ok; [|reflexivity].
    erewrite bind_Ok; [|eapply read_spec; [done|by eapply list_elem_of_lookup_2]].
    specialize (IH k ltac:(lia) ltac:(lia)). rewrite Hj in IH. simpl in IH.
    erewrite bind_Ok; [|exact IH].
    erewrite take_S_r; [|by rewrite list_lookup_fmap, Hj].
    by rewrite rev_unit.
Qed.

Lemma const_collect_run s2 k h ms this p :
  dll prev next h p (s2.*1) None →
  (∀ a d, (a, d) ∈ s2 → data <$> h !! a = Some d) →
  (length s2 < k)%nat →
  const_collect k this (const_iterator.mk (first_or (s2.*1) None) (Some this)) (World h ms)
  = Ok (s2.*2) (World h ms).
Proof.
  revert k p. induction s2 as [|[a d] s2 IH]; intros k p Hd Hdata Hk.
  - destruct k; simpl; unfold bind, cend, ret, const_iterator_ne, const_iterator_eq; simpl;
      by rewrite !bool_decide_eq_true_2.
  - destruct k as [|k]; [simpl in Hk; lia|].
    simpl in Hd. destruct Hd as (n & Ha & _ & Hn & Hd).
    assert (data n = d) as Hdn.
    { specialize (Hdata a d). rewrite Ha in Hdata. simpl in Hdata.
      assert (Some (data n) = Some d) as [= ?]; [|done]. apply Hdata. left. }
    specialize (IH k (Some a) Hd).
    simpl. unfold bind at 1. unfold cend at 1, ret at 1.
    unfold const_iterator_ne, const_iterator_eq. simpl.
    erewrite bind_Ok; [|reflexivity].
    erewrite bind_Ok; [|unfold read; erewrite bind_Ok; [|by apply load_node_Ok]; reflexivity].
    erewrite bind_Ok.
    2:{ unfold const_iterator_pre_incr. simpl. erewrite bind_Ok; [|by apply load_node_Ok].
        reflexivity. }
    rewrite Hn. erewrite bind_Ok.
    2:{ apply IH; [|simpl in Hk; lia]. intros a' d' Hin. apply Hdata. by right. }
    by rewrite Hdn.
Qed.

Lemma const_traverse_spec w this s :
  Rep w this s → const_traverse this w = Ok (s.*2) w.
Proof.
  intros (m & ch & Hm & Hr). destruct w as [h ms]. simpl in *.
  unfold const_traverse, cbegin.
  erewrite bind_Ok; [|erewrite bind_Ok; [|by apply load_map_Ok]; reflexivity].
  erewrite bind_Ok; [|reflexivity]. cbn [nodes maps].
  rewrite (rep_head _ _ _ _ Hr). eapply const_collect_run.
  - apply (rep_order _ _ _ _ Hr).
  - apply (rep_data _ _ _ _ Hr).
  - apply Nat.lt_succ_r. rewrite <- (length_fmap fst s).
    apply length_le_size; [apply (rep_nodup _ _ _ _ Hr)|].
    intros a Ha. by eapply dll_allocated; [apply (rep_order _ _ _ _ Hr)|].
Qed.

(** *** Computations that leave the memory as it is *)

Lemma pure_ret {A} (a : A) : pure (ret a).
Proof. by intros w. Qed.

Lemma pure_throw {A} e : pure (throw (A:=A) e).
Proof. by intros w. Qed.

Lemma pure_undefined {A} : pure (undefined (A:=A)).
Proof. by intros w. Qed.

Lemma pure_diverge {A} : pure (diverge (A:=A)).
Proof. by intros w. Qed.

Lemma pure_bind {A B} (c : M A) (k : A → M B) :
  pure c → (∀ a, pure (k a)) → pure (bind c k).
Proof.
  intros Hc Hk w. unfold bind. specialize (Hc w).
  destruct (c w) as [a w1|e w1| |]; try done; subst w1. apply Hk.
Qed.

Lemma pure_load_node p : pure (load_node p).
Proof. intros w. unfold load_node. destruct p as [a|]; [|done]. by destruct (nodes w !! a). Qed.

Lemma pure_load_map this : pure (load_map this).
Proof. intros w. unfold load_map. by destruct (maps w !! this). Qed.

Lemma pure_fuel : pure fuel.
Proof. by intros w. Qed.

Lemma pure_bucket key size : pure (bucket key size).
Proof. intros w. unfold bucket. by case_decide. Qed.

Lemma pure_table_get this i : pure (table_get this i).
Proof.
  apply pure_bind; [apply pure_load_map|]. intros m.
  destruct (hash_table m) as [t|]; [|apply pure_undefined].
  destruct (t !! N.to_nat i); [apply pure_ret|apply pure_undefined].
Qed.

Lemma pure_find_loop k key : ∀ current, pure (find_loop k key current).
Proof.
  induction k as [|k IH]; intros [c|]; simpl; try apply pure_ret; try apply pure_diverge.
  apply pure_bind; [apply pure_load_node|]. intros n.
  destruct (equal_func (fst (data n)) key); [apply pure_ret|apply IH].
Qed.

Lemma pure_find_node this key : pure (find_node this key).
Proof.
  apply pure_bind; [apply pure_load_map|]. intros m.
  apply pure_bind; [apply pure_bucket|]. intros index.
  apply pure_bind; [apply pure_table_get|]. intros current.
  apply pure_bind; [apply pure_fuel|]. intros k. apply pure_find_loop.
Qed.

Lemma no_throw_find_loop k key : ∀ current, no_throw (find_loop k key current).
Proof.
  induction k as [|k IH]; intros [c|]; simpl; try apply no_throw_ret; try done.
  apply no_throw_bind; [apply no_throw_load_node|]. intros n.
  destruct (equal_func (fst (data n)) key); [apply no_throw_ret|apply IH].
Qed.

Lemma no_throw_find_node this key : no_throw (find_node this key).
Proof.
  apply no_throw_bind; [apply no_throw_load_map|]. intros m.
  apply no_throw_bind; [apply no_throw_bucket|]. intros index.
  apply no_throw_bind.
  { apply no_throw_bind; [apply no_throw_load_map|]. intros m'.
    destruct (hash_table m') as [t|]; [|apply no_throw_undefined].
    destruct (t !! N.to_nat index); [apply no_throw_ret|apply no_throw_undefined]. }
  intros current. apply no_throw_bind; [done|]. intros k. apply no_throw_find_loop.
Qed.

(** *** Absent keys *)

Lemma count_zero_locate w this s key :
  lawful → Rep w this s → count this key w = Ok 0 w → locate s key = None.
Proof.
  intros laws Hr Hc. rewrite (count_spec laws _ _ _ _ Hr) in Hc.
  by destruct (locate s key).
Qed.

(** *** Writing a value *)

Lemma rep_set_second h m s1 a k v0 s2 ch n v :
  rep h m (s1 ++ (a, (k, v0)) :: s2) ch →
  h !! a = Some n →
  rep (<[a := set_second v n]> h) m (s1 ++ (a, (k, v)) :: s2) ch.
Proof.
  intros Hr Hn.
  assert ((s1 ++ (a, (k, v)) :: s2).*1 = (s1 ++ (a, (k, v0)) :: s2).*1) as Hfst.
  { by rewrite !fmap_app. }
  assert (data n = (k, v0)) as Hdn.
  { destruct (rep_allocated _ _ _ _ a (k, v0) Hr) as (n' & Hn' & Hd); [|congruence].
    apply elem_of_app. right. left. }
  assert (∀ x d, (x, d) ∈ s1 ++ (a, (k, v)) :: s2 →
            ∃ d0, (x, d0) ∈ s1 ++ (a, (k, v0)) :: s2 ∧ fst d0 = fst d
                  ∧ (x ≠ a → d0 = d)) as Hback.
  { intros x d. rewrite !elem_of_app, !elem_of_cons.
    intros [?|[[= -> ->]|?]].
    - exists d. rewrite elem_of_app. auto.
    - exists (k, v0). rewrite elem_of_app, elem_of_cons. split; [auto|]. split; [done|].
      by intros [].
    - exists d. rewrite elem_of_app, elem_of_cons. auto. }
  assert (∀ x d0, (x, d0) ∈ s1 ++ (a, (k, v0)) :: s2 →
            ∃ d, (x, d) ∈ s1 ++ (a, (k, v)) :: s2 ∧ fst d = fst d0) as Hforth.
  { intros x d0. rewrite !elem_of_app, !elem_of_cons.
    intros [?|[[= -> ->]|?]].
    - exists d0. rewrite elem_of_app. auto.
    - exists (k, v). rewrite elem_of_app, elem_of_cons. auto.
    - exists d0. rewrite elem_of_app, elem_of_cons. auto. }
  assert (∀ (gp gn : Node → ptr) p l q,
            (∀ n', gp (set_second v n') = gp n' ∧ gn (set_second v n') = gn n') →
            dll gp gn h p l q → dll gp gn (<[a := set_second v n]> h) p l q) as Hdll.
  { intros gp gn p l q Hg Hd. eapply dll_keep; [exact Hd|].
    intros x nx _ Hx. destruct (decide (x = a)) as [->|Hne].
    - rewrite lookup_insert_eq. eexists. split; [done|]. simplify_eq. apply Hg.
    - rewrite lookup_insert_ne by done. eauto. }
  split.
  - rewrite Hfst. apply (rep_head _ _ _ _ Hr).
  - rewrite Hfst. apply (rep_tail _ _ _ _ Hr).
  - rewrite Hfst. apply (rep_nodup _ _ _ _ Hr).
  - rewrite Hfst. apply Hdll; [done|]. apply (rep_order _ _ _ _ Hr).
  - intros x d Hin. destruct (Hback x d Hin) as (d0 & Hin0 & Hk & Hsame).
    destruct (decide (x = a)) as [->|Hne].
    + rewrite lookup_insert_eq. simpl. rewrite Hdn. simpl.
      assert (d = (k, v)) as ->; [|done].
      eapply (NoDup_fst_agree _ a); [|exact Hin|].
      * rewrite Hfst. apply (rep_nodup _ _ _ _ Hr).
      * apply elem_of_app. right. left.
    + rewrite lookup_insert_ne by done. rewrite <- (Hsame Hne).
      by apply (rep_data _ _ _ _ Hr).
  - intros x1 d1 x2 d2 H1 H2 He.
    destruct (Hback x1 d1 H1) as (d1' & H1' & Hk1 & _).
    destruct (Hback x2 d2 H2) as (d2' & H2' & Hk2 & _).
    eapply (rep_keys _ _ _ _ Hr); [exact H1'|exact H2'|]. by rewrite Hk1, Hk2.
  - rewrite (rep_count _ _ _ _ Hr). by rewrite !length_app.
  - apply (rep_cap _ _ _ _ Hr).
  - apply (rep_range _ _ _ _ Hr).
  - apply (rep_load _ _ _ _ Hr).
  - destruct (rep_table _ _ _ _ Hr) as (t & Ht & Hb). exists t. split; [done|].
    split.
    + apply (bk_length _ _ _ _ _ Hb).
    + apply (bk_head _ _ _ _ _ Hb).
    + intros i Hi. apply Hdll; [done|]. by apply (bk_chain _ _ _ _ _ Hb).
    + apply (bk_nodup _ _ _ _ _ Hb).
    + intros i x Hi. rewrite (bk_member _ _ _ _ _ Hb i x Hi). split.
      * intros (d0 & Hin & Hh). destruct (Hforth x d0 Hin) as (d & Hin' & Hk).
        exists d. split; [done|]. by rewrite Hk.
      * intros (d & Hin & Hh). destruct (Hback x d Hin) as (d0 & Hin' & Hk & _).
        exists d0. split; [done|]. by rewrite Hk.
Qed.

Lemma write_spec w this s1 a k v0 s2 v :
  Rep w this (s1 ++ (a, (k, v0)) :: s2) →
  ∃ w',
    write a v w = Ok tt w'
    ∧ Rep w' this (s1 ++ (a, (k, v)) :: s2)
    ∧ maps w' = maps w
    ∧ (∀ x, x ≠ a → nodes w' !! x = nodes w !! x).
Proof.
  intros (m & ch & Hm & Hr).
  destruct (rep_allocated _ _ _ _ a (k, v0) Hr) as (n & Hn & _).
  { apply elem_of_app. right. left. }
  eexists. split; [by apply modify_node_Ok|]. split; [|split; [done|]].
  - exists m, ch. split; [done|]. simpl. by eapply rep_set_second.
  - intros x Hne. simpl. by rewrite lookup_insert_ne.
Qed.

Lemma locate_member w this s a k v :
  lawful → Rep w this s → (a, (k, v)) ∈ s → locate s k = Some (a, (k, v)).
Proof.
  intros laws (m & ch & _ & Hr) Hin.
  destruct (locate s k) as [[a' [k' v']]|] eqn:Hl.
  - pose proof Hl as (s1 & s2 & Hs & _ & He)%locate_split. simpl in He.
    assert ((a', (k', v')) ∈ s) as Hin'.
    { rewrite Hs. apply elem_of_app. right. left. }
    assert (a' = a) as ->.
    { by eapply (rep_keys _ _ _ _ Hr a' (k', v') a (k, v)). }
    f_equal. f_equal. eapply NoDup_fst_agree; [apply (rep_nodup _ _ _ _ Hr)|done..].
  - exfalso. pose proof (proj1 (locate_None_data s k) Hl (k, v)) as Hno.
    rewrite (equal_refl laws) in Hno. simpl in Hno.
    assert (true = false); [|done]. apply Hno.
    apply list_elem_of_fmap. by exists (a, (k, v)).
Qed.

Lemma locate_set_second s1 a k v0 v s2 key :
  fst <$> locate (s1 ++ (a, (k, v)) :: s2) key
  = fst <$> locate (s1 ++ (a, (k, v0)) :: s2) key.
Proof.
  rewrite !locate_app. destruct (locate s1 key); [done|]. simpl.
  by destruct (equal_func k key).
Qed.

(** *** Copying, with the heap *)

Section copying_exact.
Hypothesis laws : lawful.

Lemma copy_loop_exact s2 : ∀ k w s1 st this other,
  this ≠ other →
  Rep w other (s1 ++ s2) →
  Rep w this st →
  st.*2 = s1.*2 →
  (∀ x, x ∈ (s1 ++ s2).*1 → x ∉ st.*1) →
  capacity w this = capacity w other →
  (length s2 < k)%nat →
  ∃ w' st',
    copy_loop k this (first_or (s2.*1) None) w = Ok tt w'
    ∧ Rep w' this (st ++ st')
    ∧ st'.*2 = s2.*2
    ∧ (∀ that, that ≠ this → maps w' !! that = maps w !! that)
    ∧ (∀ x, outside w' ((st ++ st').*1) x = outside w (st.*1) x).
Proof.
  induction s2 as [|[a [key v]] s2 IH]; intros k w s1 st this other Hne Hro Hrt Hdata Hdis Hcap Hk.
  - exists w, []. rewrite !app_nil_r in *. split; [by destruct k|]. done.
  - destruct k as [|k]; [simpl in Hk; lia|].
    assert ((s1 ++ (a, (key, v)) :: s2) !! length s1 = Some (a, (key, v))) as Hi.
    { by rewrite list_lookup_middle. }
    destruct (Rep_lookup _ _ _ _ _ _ Hro Hi) as (n & Hn & Hdn & _ & Hnext).
    assert (fst <$> (s1 ++ (a, (key, v)) :: s2) !! S (length s1) = first_or (s2.*1) None)
      as Hnext'.
    { rewrite lookup_app_r by lia. replace (S (length s1) - length s1)%nat with 1%nat by lia.
      simpl. by destruct s2. }
    rewrite Hnext' in Hnext. clear Hnext'.
    assert (a ∉ s1.*1) as Ha1.
    { destruct Hro as (mo & cho & _ & Hro). pose proof (rep_nodup _ _ _ _ Hro) as Hnd.
      rewrite fmap_app in Hnd. apply NoDup_app in Hnd as (_ & Hd' & _).
      intros Hin. apply (Hd' a Hin). left. }
    assert (locate st key = None) as Hloc.
    { apply locate_None_data. rewrite Hdata. intros d Hin.
      destruct (equal_func (fst d) key) eqn:He; [|done]. exfalso.
      apply list_elem_of_fmap in Hin as ([a1 d1] & -> & Hin). simpl in He.
      destruct Hro as (mo & cho & _ & Hro).
      assert (a1 = a) as ->.
      { eapply (rep_keys _ _ _ _ Hro a1 d1 a (key, v)); [|apply elem_of_app; right; left|done].
        apply elem_of_app. by left. }
      apply Ha1. apply list_elem_of_fmap. by exists (a, d1). }
    assert (can_grow w this) as Hgrow.
    { intros mt Hmt Hreach. exfalso.
      destruct (Rep_capacity _ _ _ Hro) as (c & e & Hc & _ & Hload).
      rewrite Hc in Hcap. unfold capacity in Hcap. rewrite Hmt in Hcap.
      injection Hcap as Hcap. destruct Hrt as (mt' & cht & Hmt' & Hrt). simplify_eq.
      pose proof (rep_count _ _ _ _ Hrt) as Hcount.
      rewrite <- (length_fmap snd st), Hdata, length_fmap in Hcount.
      rewrite length_app in Hload. simpl in Hload. lia. }
    destruct (insert_new_exact laws w this st key v Hrt Hloc Hgrow)
      as (w1 & a' & Hrun & Hrt1 & Hfresh & Hm1 & Ho1 & _ & Hcap1).
    pose proof (outside_Rep w w1 this other st _ _ Hro Hdis Hrt1 Ho1) as Hkeep.
    assert (Rep w1 other (s1 ++ (a, (key, v)) :: s2)) as Hro1.
    { eapply Rep_frame; [done|by apply Hm1|]. intros x Hx. by apply Hkeep. }
    assert (nodes w1 !! a = Some n) as Hn1.
    { rewrite <- Hn. apply Hkeep. rewrite fmap_app. apply elem_of_app. right. left. }
    assert (capacity w1 other = capacity w other) as Hcapo.
    { unfold capacity. by rewrite Hm1. }
    assert (capacity w1 this = capacity w other) as Hcap1'.
    { destruct (Rep_capacity _ _ _ Hro) as (c & e & Hc & _ & Hload).
      rewrite Hc in Hcap. rewrite (Hcap1 c Hcap), Hc. f_equal.
      rewrite bool_decide_eq_false_2; [done|].
      rewrite <- (length_fmap snd st), Hdata, length_fmap.
      rewrite length_app in Hload. simpl in Hload. lia. }
    destruct (IH k w1 (s1 ++ [(a, (key, v))]) (st ++ [(a', (key, v))]) this other)
      as (w' & st' & Hrun' & Hrt' & Hdata' & Hm' & Ho'); try done.
    + by rewrite <- app_assoc.
    + by rewrite !fmap_app, Hdata.
    + intros x Hx. rewrite <- app_assoc in Hx. by apply Hkeep.
    + congruence.
    + simpl in Hk. lia.
    + exists w', ((a', (key, v)) :: st').
      rewrite <- !app_assoc in *.
      split; [|split; [done|split; [by rewrite !fmap_cons, Hdata'|split]]].
      * simpl. erewrite bind_Ok; [|by apply load_node_Ok].
        rewrite Hdn. erewrite bind_Ok; [|exact Hrun].
        erewrite bind_Ok; [|by apply load_node_Ok].
        rewrite Hnext. exact Hrun'.
      * intros that Hthat. by rewrite Hm', Hm1.
      * intros x. simpl in Ho'. by rewrite Ho', Ho1.
Qed.

Lemma copy_into_exact w this other so :
  this ≠ other →
  Rep w other so →
  Rep w this [] →
  capacity w this = capacity w other →
  ∃ w' s',
    (let* o := load_map other in
     let* k := fuel in
     copy_loop k this (head o)) w = Ok tt w'
    ∧ Rep w' this s'
    ∧ s'.*2 = so.*2
    ∧ (∀ that, that ≠ this → maps w' !! that = maps w !! that)
    ∧ (∀ x, outside w' (s'.*1) x = nodes w !! x).
Proof.
  intros Hne Hro Hrt Hcap.
  destruct (copy_loop_exact so (S (base.size (nodes w))) w [] [] this other)
    as (w' & s' & Hrun & Hrt' & Hdata & Hm & Ho); try done.
  { by intros x _ ?%elem_of_nil. }
  { by eapply Rep_fuel. }
  exists w', s'. simpl in *.
  split; [|split; [done|split; [done|split; [done|]]]].
  - destruct Hro as (mo & cho & Hmo & Hro).
    erewrite bind_Ok; [|by apply load_map_Ok].
    erewrite bind_Ok; [|reflexivity].
    by rewrite (rep_head _ _ _ _ Hro).
  - intros x. by rewrite Ho, outside_nil.
Qed.

Lemma construct_copy_exact w this other so :
  this ≠ other →
  Rep w other so →
  ∃ w' s',
    construct_copy this other w = Ok tt w'
    ∧ Rep w' this s'
    ∧ s'.*2 = so.*2
    ∧ (∀ that, that ≠ this → maps w' !! that = maps w !! that)
    ∧ (∀ x, outside w' (s'.*1) x = nodes w !! x).
Proof.
  intros Hne Hro. destruct w as [h ms].
  set (w0 := World h (<[this := mkMap None None None 0 0]> ms)).
  assert (Rep w0 other so) as Hro0.
  { eapply Rep_frame; [done| |done]. simpl. by rewrite lookup_insert_ne. }
  destruct (copy_start w0 this other so (mkMap None None None 0 0) Hne Hro0)
    as (mo & w1 & Hmo & Hrun1 & Hnodes & Hmaps & Hcap & Hrt); [apply lookup_insert_eq|].
  specialize (Hrt eq_refl eq_refl eq_refl).
  assert (Rep w1 other so) as Hro1.
  { eapply Rep_frame; [done|by apply Hmaps|]. intros x _. by rewrite Hnodes. }
  destruct (copy_into_exact w1 this other so Hne Hro1 Hrt)
    as (w' & s' & Hrun & Hrt' & Hdata & Hm & Ho).
  { rewrite Hcap. unfold capacity. rewrite Hmaps by done. done. }
  exists w', s'. split; [|split; [done|split; [done|split]]].
  - unfold construct_copy. erewrite bind_Ok; [|reflexivity]. fold w0.
    erewrite bind_Ok; [|by apply load_map_Ok].
    erewrite bind_Ok; [|exact Hrun1]. exact Hrun.
  - intros that Hthat. rewrite Hm, Hmaps by done. simpl. by rewrite lookup_insert_ne.
  - intros x. by rewrite Ho, Hnodes.
Qed.

Lemma operator_assign_exact w this other st so :
  this ≠ other →
  Rep w this st →
  Rep w other so →
  (∀ x, x ∈ st.*1 → x ∉ so.*1) →
  ∃ w' s',
    operator_assign this other w = Ok this w'
    ∧ Rep w' this s'
    ∧ s'.*2 = so.*2
    ∧ (∀ that, that ≠ this → maps w' !! that = maps w !! that)
    ∧ (∀ x, outside w' (s'.*1) x = outside w (st.*1) x).
Proof.
  intros Hne Hrt Hro Hdis.
  destruct (clear_exact w this st Hrt) as (w1 & Hrun1 & Hrt1 & Hm1 & Ho1 & _).
  assert (Rep w1 other so) as Hro1.
  { eapply Rep_frame; [done|by apply Hm1|]. intros x Hx.
    rewrite Ho1, outside_out; [done|]. intros Hx'. by eapply Hdis. }
  destruct (clear_table_empty w1 this Hrt1) as (m1 & Hmt1 & Hh & Ht & Hc & Hrun2).
  set (m2 := set_hash_table None m1) in *.
  set (w2 := World (nodes w1) (<[this := m2]> (maps w1))) in *.
  assert (Rep w2 other so) as Hro2.
  { eapply Rep_frame; [done| |done]. simpl. by rewrite lookup_insert_ne. }
  destruct (copy_start w2 this other so m2 Hne Hro2)
    as (mo & w3 & Hmo & Hrun3 & Hnodes & Hmaps & Hcap & Hrt3); [apply lookup_insert_eq|].
  specialize (Hrt3 Hh Ht Hc).
  assert (Rep w3 other so) as Hro3.
  { eapply Rep_frame; [done|by apply Hmaps|]. intros x _. by rewrite Hnodes. }
  destruct (copy_into_exact w3 this other so Hne Hro3 Hrt3)
    as (w' & s' & Hrun & Hrt' & Hdata & Hm & Ho).
  { rewrite Hcap. unfold capacity. by rewrite Hmaps. }
  exists w', s'. split; [|split; [done|split; [done|split]]].
  - unfold operator_assign. rewrite decide_False by done.
    erewrite bind_Ok; [|exact Hrun1].
    erewrite bind_Ok; [|exact Hrun2].
    erewrite bind_Ok; [|by apply load_map_Ok].
    erewrite bind_Ok; [|exact Hrun3].
    unfold bind in Hrun |- *.
    destruct (load_map other w3) as [o3 w3'| | |] eqn:Ho3; try done.
    destruct (fuel w3') as [k w3''| | |] eqn:Hf; try done.
    by rewrite Hrun.
  - intros that Hthat. rewrite Hm, Hmaps by done. simpl.
    rewrite lookup_insert_ne by done. by apply Hm1.
  - intros x. by rewrite Ho, Hnodes, <- Ho1.
Qed.

End copying_exact.

(** *** [clear_table] on a table that holds nodes *)

Lemma clear_chain_run k l h p ms :
  NoDup l →
  dll hash_prev hash_next h p l None →
  (length l < k)%nat →
  ∃ h',
    clear_chain k (first_or l None) (World h ms) = Ok tt (World h' ms)
    ∧ (∀ x, x ∈ l → h' !! x = None)
    ∧ (∀ x, x ∉ l → h' !! x = h !! x).
Proof.
  revert k h p. induction l as [|a l IH]; intros k h p Hnd Hd Hk.
  - exists h. split; [by destruct k|]. split; [by intros x ?%elem_of_nil|done].
  - destruct k as [|k]; [simpl in Hk; lia|].
    apply NoDup_cons in Hnd as [Hna Hnd].
    simpl in Hd. destruct Hd as (n & Ha & _ & Hn & Hd).
    destruct (IH k (delete a h) (Some a)) as (h' & Hrun & Hin & Hout); [done| |simpl in Hk; lia|].
    { eapply dll_keep; [done|]. intros x nx Hx Hnx. exists nx.
      rewrite lookup_delete_ne by (intros ->; done). done. }
    exists h'. split; [|split].
    + simpl. erewrite bind_Ok; [|by apply load_node_Ok].
      erewrite bind_Ok; [|by eapply delete_node_Ok].
      rewrite Hn. exact Hrun.
    + intros x [->|Hx]%elem_of_cons; [|by auto].
      rewrite Hout by done. apply lookup_delete_eq.
    + intros x Hx. apply not_elem_of_cons in Hx as [Hxa Hx].
      rewrite Hout by done. by apply lookup_delete_ne.
Qed.

Lemma clear_buckets_run (h0 : gmap positive Node) ms this m s ch t (k : nat) :
  ms !! this = Some m →
  hash_table m = Some t →
  buckets h0 (table_size m) t ch s →
  NoDup (s.*1) →
  table_size m < SIZE_MAX1 →
  (∀ j, j < table_size m → (length (ch j) < k)%nat) →
  ∀ n i h,
    (N.to_nat i + n)%nat = N.to_nat (table_size m) →
    (∀ j x, i ≤ j → j < table_size m → x ∈ ch j → h !! x = h0 !! x) →
    ∃ h',
      clear_buckets this k n i (World h ms) = Ok tt (World h' ms)
      ∧ (∀ j x, i ≤ j → j < table_size m → x ∈ ch j → h' !! x = None)
      ∧ (∀ x, (∀ j, i ≤ j → j < table_size m → x ∉ ch j) → h' !! x = h !! x).
Proof.
  intros Hm Ht Hb Hnd Hrange Hk. induction n as [|n IH]; intros i h Hin Hkeep.
  - exists h. split; [done|]. split; [|done]. intros j x ? ?. lia.
  - assert (i < table_size m) as Hi by lia.
    destruct (clear_chain_run k (ch i) h None ms) as (h1 & Hrun1 & Hgone1 & Hout1).
    { apply (bk_nodup _ _ _ _ _ Hb). }
    { eapply dll_keep; [by apply (bk_chain _ _ _ _ _ Hb)|].
      intros x nx Hx Hnx. exists nx. split; [|done]. rewrite <- Hnx. by eapply Hkeep. }
    { by apply Hk. }
    destruct (IH (i + 1) h1) as (h' & Hrun & Hgone & Hout); [lia| |].
    { intros j x Hj1 Hj2 Hx. rewrite Hout1; [eapply Hkeep; [|done..]; lia|].
      intros Hxi. assert (i = j); [|lia].
      by eapply (buckets_disjoint _ _ _ _ _ i j x Hb). }
    exists h'. split; [|split].
    + simpl. erewrite bind_Ok.
      2:{ eapply table_get_Ok; [done..|]. by apply (bk_head _ _ _ _ _ Hb). }
      erewrite bind_Ok; [|exact Hrun1].
      rewrite wrap_small by lia. exact Hrun.
    + intros j x Hj1 Hj2 Hx. destruct (decide (j = i)) as [->|Hne].
      * rewrite Hout; [by apply Hgone1|].
        intros j' Hj'1 Hj'2 Hx'. assert (i = j'); [|lia].
        by eapply (buckets_disjoint _ _ _ _ _ i j' x Hb).
      * apply (Hgone j); [lia|done..].
    + intros x Hx. rewrite Hout; [apply Hout1; apply Hx; [lia|done]|].
      intros j Hj1 Hj2. apply Hx; [lia|done].
Qed.

Lemma clear_table_run w this s :
  Rep w this s →
  ∃ m h',
    maps w !! this = Some m
    ∧ clear_table this w = Ok tt (World h' (<[this := set_hash_table None m]> (maps w)))
    ∧ (∀ a, a ∈ s.*1 → h' !! a = None)
    ∧ (∀ x, x ∉ s.*1 → h' !! x = nodes w !! x).
Proof.
  intros (m & ch & Hm & Hr). destruct w as [h ms]. simpl in *.
  destruct (rep_table _ _ _ _ Hr) as (t & Ht & Hb).
  destruct (clear_buckets_run h ms this m s ch t (S (base.size h)) Hm Ht Hb
              (rep_nodup _ _ _ _ Hr) (rep_range _ _ _ _ Hr))
    with (n := N.to_nat (table_size m)) (i := 0) (h := h)
    as (h' & Hrun & Hgone & Hout); [|lia|done|].
  { intros j Hj. apply Nat.lt_succ_r.
    apply length_le_size; [apply (bk_nodup _ _ _ _ _ Hb)|].
    intros a Ha. by eapply rep_chain_allocated. }
  exists m, h'. split; [done|]. split; [|split].
  - unfold clear_table. erewrite bind_Ok; [|by apply load_map_Ok].
    rewrite Ht. erewrite bind_Ok; [|reflexivity]. cbn [nodes maps].
    erewrite bind_Ok; [|exact Hrun]. by apply modify_map_Ok.
  - intros a Ha. apply list_elem_of_fmap in Ha as ([a' d] & -> & Hin). simpl.
    assert (hash_func (fst d) mod table_size m < table_size m) as Hlt.
    { apply N.mod_lt. pose proof (rep_size_pos _ _ _ _ Hr). lia. }
    eapply (Hgone (hash_func (fst d) mod table_size m)); [apply N.le_0_l|done|].
    apply (bk_member _ _ _ _ _ Hb); [done|]. by exists d.
  - intros x Hx. apply Hout. intros j _ Hj Hxj.
    apply (bk_member _ _ _ _ _ Hb) in Hxj as (d & Hin & _); [|done].
    apply Hx. apply list_elem_of_fmap. by exists (x, d).
Qed.
Section further.
Hypothesis laws : lawful.

(** ** Histories of calls *)

(** After any history of calls of [insert], [find]-then-[erase], [clear] and
    [operator[]] on a fresh container, iterating from [begin()] to [end()]
    yields the list of entries that the history builds: an insertion or an
    access of an absent key appends at the end, one of a present key changes
    nothing, an erasure takes the entry out and leaves the others in their
    order.  [size()] is the length of this list, and no two of its keys are
    equal. *)
Theorem iteration_after_history w this ops :
  N.of_nat (length ops) ≤ 2 ^ 51 →
  ∃ w1 w2,
    construct this w = Ok tt w1
    ∧ run this ops w1 = Ok tt w2
    ∧ traverse this w2 = Ok (entries ops) w2
    ∧ size this w2 = Ok (N.of_nat (length (entries ops))) w2
    ∧ distinct_keys ((entries ops).*1).
Proof.
  intros Hlen. destruct (construct_spec w this) as (w1 & Hc & Hr & Hcap & _).
  destruct (run_exact laws ops w1 this [] Hr) as (w2 & s & Hrun & Hr2 & Hs & _).
  { eapply room_fresh; [done..| |]; simpl; size_lia. }
  exists w1, w2. split; [done|]. split; [done|].
  unfold entries. simpl in Hs. rewrite <- Hs.
  split; [by apply traverse_spec|]. split.
  - rewrite length_fmap. by apply Rep_size.
  - by eapply Rep_distinct.
Qed.

(** A container that is constructed, used through any history of calls and
    destroyed leaves the heap of nodes exactly as it was before the
    construction: every node it allocated has been deleted, once, and no
    other node has been touched.  No other container object is changed, and
    [hash_table] of the destroyed object is null. *)
Theorem lifetime_leaves_heap w this ops :
  N.of_nat (length ops) ≤ 2 ^ 51 →
  ∃ w1 w2 w3,
    construct this w = Ok tt w1
    ∧ run this ops w1 = Ok tt w2
    ∧ destructor this w2 = Ok tt w3
    ∧ nodes w3 = nodes w
    ∧ (∀ that, that ≠ this → maps w3 !! that = maps w !! that)
    ∧ hash_table <$> maps w3 !! this = Some None.
Proof.
  intros Hlen. destruct (construct_spec w this) as (w1 & Hc & Hr & Hcap & Hn1 & Hm1).
  destruct (run_exact laws ops w1 this [] Hr) as (w2 & s & Hrun & Hr2 & _ & Hm2 & Ho2).
  { eapply room_fresh; [done..| |]; simpl; size_lia. }
  destruct (destructor_spec w2 this s Hr2) as (w3 & m3 & Hd & Ho3 & Hm3 & Hthis & Ht & _).
  exists w1, w2, w3. do 3 (split; [done|]). split; [|split].
  - apply map_eq. intros x. by rewrite Ho3, Ho2, outside_nil, Hn1.
  - intros that Hne. by rewrite Hm3, Hm2, Hm1.
  - by rewrite Hthis; simpl; rewrite Ht.
Qed.

(** The destructor of a well-formed container returns; it deletes the nodes
    of the container and no other, sets [hash_table] to null, and leaves
    every other container object as it was. *)
Theorem destructor_releases w this s :
  Rep w this s →
  ∃ w',
    destructor this w = Ok tt w'
    ∧ (∀ a, a ∈ s.*1 → nodes w' !! a = None)
    ∧ (∀ x, x ∉ s.*1 → nodes w' !! x = nodes w !! x)
    ∧ (∀ that, that ≠ this → maps w' !! that = maps w !! that)
    ∧ hash_table <$> maps w' !! this = Some None.
Proof.
  intros Hr.
  destruct (destructor_spec w this s Hr) as (w' & m' & Hd & Ho & Hm & Hthis & Ht & _).
  exists w'. split; [done|]. split; [|split; [|split; [done|]]].
  - intros a Ha. by rewrite Ho, outside_in.
  - intros x Hx. by rewrite Ho, outside_out.
  - by rewrite Hthis; simpl; rewrite Ht.
Qed.

(** Two well-formed containers that share no node do not interfere: any
    history of calls on one of them leaves the object and every node of the
    other exactly as they were, so that the other iterates to the same
    entries. *)
Theorem histories_leave_others w this that s so ops :
  that ≠ this →
  Rep w this s →
  Rep w that so →
  (∀ x, x ∈ so.*1 → x ∉ s.*1) →
  room w this (length ops) →
  ∃ w',
    run this ops w = Ok tt w'
    ∧ maps w' !! that = maps w !! that
    ∧ (∀ x, x ∈ so.*1 → nodes w' !! x = nodes w !! x)
    ∧ traverse that w = Ok (so.*2) w
    ∧ traverse that w' = Ok (so.*2) w'.
Proof.
  intros Hne Hr Hro Hdis Hroom.
  destruct (run_exact laws ops w this s Hr Hroom) as (w' & s' & Hrun & Hr' & _ & Hm & Ho).
  pose proof (outside_Rep w w' this that s s' so Hro Hdis Hr' Ho) as Hkeep.
  exists w'. split; [done|]. split; [by apply Hm|].
  split; [intros x Hx; by apply Hkeep|].
  split; [by apply traverse_spec|]. apply traverse_spec.
  eapply Rep_frame; [done|by apply Hm|]. intros x Hx. by apply Hkeep.
Qed.

(** ** Iteration *)

(** Walking a well-formed container backwards, from [end()] with [--] until
    [begin()] is reached, visits the entries that the forward iteration
    yields, in the reverse order. *)
Theorem backward_iteration w this s :
  Rep w this s →
  ∃ l, traverse this w = Ok l w ∧ traverse_back this w = Ok (rev l) w.
Proof.
  intros Hr. exists (s.*2). split; [by apply traverse_spec|].
  unfold traverse_back. erewrite bind_Ok; [|reflexivity].
  erewrite bind_Ok; [|reflexivity].
  pose proof (collect_back_run w this s (length s) (S (base.size (nodes w))) Hr) as Hrun.
  rewrite lookup_ge_None_2 in Hrun by lia.
  change (fst <$> None) with (@None positive) in Hrun.
  rewrite Hrun; [|lia|by eapply Rep_fuel].
  by rewrite <- (length_fmap snd s), firstn_all.
Qed.

(** A cursor at the [i]-th entry of a well-formed container steps forward to
    the entry after it, or to [end()] from the last entry, and backward to
    the entry before it, or to the past-the-end cursor from the first entry.
    Stepping forward and then backward leads back to the entry; stepping
    backward and then forward does so except at the first entry, where the
    forward step throws [invalid_iterator]. *)
Theorem cursor_stepping w this s i a d :
  Rep w this s →
  s !! i = Some (a, d) →
  let it := iterator.mk (Some a) (Some this) in
  iterator_pre_incr it w = Ok (iterator.mk (fst <$> s !! S i) (Some this)) w
  ∧ iterator_pre_decr it w
    = Ok (iterator.mk (match i with O => None | S j => fst <$> s !! j end) (Some this)) w
  ∧ bind (iterator_pre_incr it) iterator_pre_decr w = Ok it w
  ∧ bind (iterator_pre_decr it) iterator_pre_incr w
    = match i with O => Throw invalid_iterator w | S _ => Ok it w end.
Proof.
  intros Hr Hi it. subst it.
  split; [by eapply step_forward|]. split; [by eapply step_back|]. split.
  - erewrite bind_Ok; [|by eapply step_forward].
    destruct (s !! S i) as [[a' d']|] eqn:HSi; simpl.
    + erewrite step_back; [|done..]. simpl. by rewrite Hi.
    + erewrite step_back_end; [|done]. do 2 f_equal.
      rewrite last_lookup, length_fmap, list_lookup_fmap.
      apply lookup_ge_None_1 in HSi. apply lookup_lt_Some in Hi as Hlt.
      replace (Nat.pred (length s)) with i by lia. by rewrite Hi.
  - erewrite bind_Ok; [|by eapply step_back].
    destruct i as [|j]; [done|].
    destruct (lookup_lt_is_Some_2 s j) as [[a' d'] Hj].
    { apply lookup_lt_Some in Hi. lia. }
    rewrite Hj. simpl. erewrite step_forward; [|done..]. by rewrite Hi.
Qed.

(** On a well-formed container [size()] is the number of entries that the
    iteration yields, [empty()] holds exactly when there is none, and
    [begin() == end()] exactly then. *)
Theorem size_and_emptiness w this s :
  Rep w this s →
  ∃ l b e,
    traverse this w = Ok l w
    ∧ size this w = Ok (N.of_nat (length l)) w
    ∧ empty this w = Ok (bool_decide (length l = 0%nat)) w
    ∧ begin this w = Ok b w
    ∧ end_ this w = Ok e w
    ∧ iterator_eq b e = bool_decide (length l = 0%nat).
Proof.
  intros Hr. destruct (Rep_head_tail _ _ _ Hr) as (m & Hm & Hh & _ & Hc).
  exists (s.*2), (iterator.mk (fst <$> s !! 0%nat) (Some this)), (iterator.mk None (Some this)).
  rewrite length_fmap.
  split; [by apply traverse_spec|]. split; [by apply Rep_size|]. split; [|split; [|split]].
  - unfold empty. erewrite bind_Ok; [|by apply load_map_Ok]. unfold ret. f_equal.
    rewrite Hc. by destruct s.
  - by apply begin_spec.
  - done.
  - unfold iterator_eq. simpl. rewrite (bool_decide_eq_true_2 (Some this = Some this)) by done.
    by destruct s as [|[a d] s].
Qed.

(** The [const] interface agrees with the other one.  On a well-formed
    container the loop over [cbegin()], [cend()] and a [const_iterator]
    yields what the loop over [begin()] and [end()] yields.  On any memory
    [cbegin], [cend] and the [const] [find] end as [begin], [end] and [find]
    do and return the conversions of their results; each of the four steps
    ([++it], [it++], [--it], [it--]) and each of the two dereferences of a
    converted cursor ends as that of the cursor does, with the conversions
    of its results; and the comparisons between the two kinds of cursor
    agree with that of [iterator]. *)
Theorem const_interface :
  (∀ w this s,
     Rep w this s →
     ∃ l, traverse this w = Ok l w ∧ const_traverse this w = Ok l w)
  ∧ (∀ w this key,
       as_const (begin this w) = cbegin this w
       ∧ as_const (end_ this w) = cend this w
       ∧ as_const (find this key w) = find_const this key w)
  ∧ (∀ w it,
       as_const (iterator_pre_incr it w) = const_iterator_pre_incr (const_iterator_of it) w
       ∧ as_const (iterator_pre_decr it w)
         = const_iterator_pre_decr (const_iterator_of it) w
       ∧ as_const_pair (iterator_post_incr it w)
         = const_iterator_post_incr (const_iterator_of it) w
       ∧ as_const_pair (iterator_post_decr it w)
         = const_iterator_post_decr (const_iterator_of it) w
       ∧ iterator_deref it w = const_iterator_deref (const_iterator_of it) w
       ∧ iterator_arrow it w = const_iterator_arrow (const_iterator_of it) w)
  ∧ (∀ it it',
       iterator_eq_const it (const_iterator_of it') = iterator_eq it it'
       ∧ const_iterator_eq_iterator (const_iterator_of it) it' = iterator_eq it it'
       ∧ const_iterator_eq (const_iterator_of it) (const_iterator_of it')
         = iterator_eq it it'
       ∧ iterator_ne_const it (const_iterator_of it') = iterator_ne it it'
       ∧ const_iterator_ne_iterator (const_iterator_of it) it' = iterator_ne it it'
       ∧ const_iterator_ne (const_iterator_of it) (const_iterator_of it')
         = iterator_ne it it').
Proof.
  split; [|split; [|split]].
  - intros w this s Hr.
    exists (s.*2). split; [by apply traverse_spec|by apply const_traverse_spec].
  - intros w this key. split; [|split; [done|]].
    + unfold begin, cbegin, bind, load_map. by destruct (maps w !! this).
    + unfold find, find_const, bind.
      destruct (find_node this key w) as [[a|] w'| | |]; done.
  - intros w [[a|] [o|]]; unfold iterator_pre_incr, iterator_pre_decr,
      iterator_post_incr, iterator_post_decr,
      const_iterator_pre_incr, const_iterator_pre_decr,
      const_iterator_post_incr, const_iterator_post_decr, bind, load_node, load_map;
      simpl; repeat split; try done;
      try (by destruct (nodes w !! a)); by destruct (maps w !! o).
  - by intros [n o] [n' o'].
Qed.

(** ** Lookups *)

(** The lookups never write: [find], [count], [at], [size], [empty],
    [begin], [end], their [const] forms and the steps and dereferences of
    cursors leave the memory exactly as it is, whether they return or throw,
    on any memory, well-formed or not.  [find] and [count] never throw, and
    [at] throws nothing but [index_out_of_bound]. *)
Theorem lookups_do_not_write this key :
  pure (find this key) ∧ pure (find_const this key) ∧ pure (count this key)
  ∧ pure (at_ this key) ∧ pure (operator_index_const this key)
  ∧ pure (size this) ∧ pure (empty this)
  ∧ pure (begin this) ∧ pure (end_ this) ∧ pure (cbegin this) ∧ pure (cend this)
  ∧ (∀ it, pure (iterator_pre_incr it) ∧ pure (iterator_post_incr it)
           ∧ pure (iterator_pre_decr it) ∧ pure (iterator_post_decr it)
           ∧ pure (iterator_deref it) ∧ pure (iterator_arrow it))
  ∧ (∀ it, pure (const_iterator_pre_incr it) ∧ pure (const_iterator_post_incr it)
           ∧ pure (const_iterator_pre_decr it) ∧ pure (const_iterator_post_decr it)
           ∧ pure (const_iterator_deref it) ∧ pure (const_iterator_arrow it))
  ∧ no_throw (find this key) ∧ no_throw (find_const this key)
  ∧ no_throw (count this key)
  ∧ (∀ w e w', at_ this key w = Throw e w' → e = index_out_of_bound).
Proof.
  assert (pure (at_ this key)) as Hat.
  { apply pure_bind; [apply pure_find_node|]. intros [a|]; [apply pure_ret|apply pure_throw]. }
  repeat match goal with
         | |- _ ∧ _ => split
         | |- ∀ it : iterator.t, _ => intros it
         | |- ∀ it : const_iterator.t, _ => intros it
         end.
  - apply pure_bind; [apply pure_find_node|]. intros [a|]; apply pure_ret.
  - apply pure_bind; [apply pure_find_node|]. intros [a|]; apply pure_ret.
  - apply pure_bind; [apply pure_find_node|]. intros node. apply pure_ret.
  - done.
  - done.
  - apply pure_bind; [apply pure_load_map|]. intros m. apply pure_ret.
  - apply pure_bind; [apply pure_load_map|]. intros m. apply pure_ret.
  - apply pure_bind; [apply pure_load_map|]. intros m. apply pure_ret.
  - apply pure_ret.
  - apply pure_bind; [apply pure_load_map|]. intros m. apply pure_ret.
  - apply pure_ret.
  - destruct it as [[a|] [o|]]; try apply pure_throw.
    apply pure_bind; [apply pure_load_node|]. intros n. apply pure_ret.
  - destruct it as [[a|] [o|]]; try apply pure_throw.
    apply pure_bind; [apply pure_load_node|]. intros n. apply pure_ret.
  - destruct it as [[a|] [o|]]; try apply pure_throw;
      (apply pure_bind; [first [apply pure_load_node|apply pure_load_map]|]);
      intros n; apply pure_ret.
  - destruct it as [[a|] [o|]]; try apply pure_throw;
      (apply pure_bind; [first [apply pure_load_node|apply pure_load_map]|]);
      intros n; apply pure_ret.
  - destruct it as [[a|] o]; [apply pure_ret|apply pure_throw].
  - destruct it as [[a|] o]; apply pure_ret.
  - destruct it as [[a|] [o|]]; try apply pure_throw.
    apply pure_bind; [apply pure_load_node|]. intros n. apply pure_ret.
  - destruct it as [[a|] [o|]]; try apply pure_throw.
    apply pure_bind; [apply pure_load_node|]. intros n. apply pure_ret.
  - destruct it as [[a|] [o|]]; try apply pure_throw;
      (apply pure_bind; [first [apply pure_load_node|apply pure_load_map]|]);
      intros n; apply pure_ret.
  - destruct it as [[a|] [o|]]; try apply pure_throw;
      (apply pure_bind; [first [apply pure_load_node|apply pure_load_map]|]);
      intros n; apply pure_ret.
  - destruct it as [[a|] o]; [apply pure_ret|apply pure_throw].
  - destruct it as [[a|] o]; apply pure_ret.
  - apply no_throw_bind; [apply no_throw_find_node|]. intros [a|]; apply no_throw_ret.
  - apply no_throw_bind; [apply no_throw_find_node|]. intros [a|]; apply no_throw_ret.
  - apply no_throw_bind; [apply no_throw_find_node|]. intros node. apply no_throw_ret.
  - intros w e w'. unfold at_, bind.
    pose proof (no_throw_find_node this key w) as Hnt.
    destruct (find_node this key w) as [[a|] w1|e1 w1| |]; try done.
    + unfold throw. congruence.
    + by destruct (Hnt e1 w1).
Qed.

(** ** Insertion and erasure *)

(** Inserting an absent key into a well-formed container, whether the table
    grows or not, allocates one node, which was not in use, and leaves every
    entry where it was: a key that was found is found at the same node, with
    the same data, so that iterators and references obtained before the call
    stay good.  The iterator that [insert] returns is the one [find] returns
    for the key afterwards, it is at the pair inserted, which is the last of
    the iteration, and [size()] has grown by one. *)
Theorem insert_keeps_entries_in_place w this s key v :
  Rep w this s →
  room w this 1 →
  count this key w = Ok 0 w →
  ∃ a w',
    insert this (key, v) w = Ok (iterator.mk (Some a) (Some this), true) w'
    ∧ nodes w !! a = None
    ∧ find this key w' = Ok (iterator.mk (Some a) (Some this)) w'
    ∧ read a w' = Ok (key, v) w'
    ∧ traverse this w' = Ok (s.*2 ++ [(key, v)]) w'
    ∧ size this w' = Ok (N.of_nat (length s) + 1) w'
    ∧ (∀ k' a', find this k' w = Ok (iterator.mk (Some a') (Some this)) w →
         find this k' w' = Ok (iterator.mk (Some a') (Some this)) w'
         ∧ ∃ d, read a' w = Ok d w ∧ read a' w' = Ok d w').
Proof.
  intros Hr Hroom Hc. pose proof (count_zero_locate _ _ _ _ laws Hr Hc) as Hl.
  destruct (insert_new_spec laws w this s key v Hr Hl Hroom)
    as (w' & a & Hrun & Hr' & Hfresh & _).
  exists a, w'. split; [done|]. split; [done|].
  split; [|split; [|split; [|split]]].
  - rewrite (find_spec laws _ _ _ _ Hr'), locate_app, Hl. simpl.
    by rewrite (equal_refl laws).
  - eapply read_spec; [done|]. apply elem_of_app. right. left.
  - rewrite (traverse_spec _ _ _ Hr'). by rewrite fmap_app.
  - rewrite (Rep_size _ _ _ Hr'), length_app. simpl. do 2 f_equal. lia.
  - intros k' a' Hf. rewrite (find_spec laws _ _ _ _ Hr) in Hf.
    destruct (locate s k') as [[a1 d1]|] eqn:Hl'; [|done].
    simpl in Hf. injection Hf as ->.
    split.
    + by rewrite (find_spec laws _ _ _ _ Hr'), locate_app, Hl'.
    + pose proof Hl' as (s1 & s2 & -> & _)%locate_split.
      exists d1. split; (eapply read_spec; [done|]).
      * apply elem_of_app. right. left.
      * apply elem_of_app. left. apply elem_of_app. right. left.
Qed.

(** Erasing through the iterator that the insertion of an absent key has
    returned undoes the insertion: the container holds its old entries at
    their old nodes and iterates to them in the old order, the key is absent
    again, and the node is deleted: apart from the nodes of the container
    the heap is as it was.  The capacity may have doubled. *)
Theorem insert_then_erase w this s key v :
  Rep w this s →
  room w this 1 →
  count this key w = Ok 0 w →
  ∃ it w1 w2,
    insert this (key, v) w = Ok (it, true) w1
    ∧ erase this it w1 = Ok tt w2
    ∧ Rep w2 this s
    ∧ traverse this w2 = Ok (s.*2) w2
    ∧ size this w2 = Ok (N.of_nat (length s)) w2
    ∧ count this key w2 = Ok 0 w2
    ∧ (∀ x, x ∉ s.*1 → nodes w2 !! x = nodes w !! x)
    ∧ (∀ c, capacity w this = Some c →
         capacity w2 this = Some c ∨ capacity w2 this = Some (2 * c)).
Proof.
  intros Hr Hroom Hc. pose proof (count_zero_locate _ _ _ _ laws Hr Hc) as Hl.
  destruct (insert_new_exact laws w this s key v Hr Hl)
    as (w1 & a & Hrun1 & Hr1 & Hfresh & Hm1 & Ho1 & _).
  { by eapply room_can_grow. }
  destruct (insert_new_spec laws w this s key v Hr Hl Hroom)
    as (w1' & a' & Hrun1' & _ & _ & _ & Hcap1 & _).
  rewrite Hrun1 in Hrun1'. injection Hrun1' as <- <-.
  destruct (erase_exact w1 this s a (key, v) [] Hr1) as (w2 & Hrun2 & Hr2 & Hm2 & Ho2 & _).
  destruct (erase_spec w1 this s a (key, v) [] Hr1) as (w2' & Hrun2' & _ & _ & _ & Hcap2 & _).
  rewrite Hrun2 in Hrun2'. injection Hrun2' as <-.
  rewrite app_nil_r in Hr2, Ho2.
  exists (iterator.mk (Some a) (Some this)), w1, w2.
  split; [done|]. split; [done|]. split; [done|].
  split; [by apply traverse_spec|]. split; [by apply Rep_size|].
  split; [by rewrite (count_spec laws _ _ _ _ Hr2), Hl|]. split.
  - intros x Hx. specialize (Ho2 x). specialize (Ho1 x).
    rewrite outside_out in Ho2 by done. rewrite (outside_out w) in Ho1 by done.
    congruence.
  - intros c Hcap. rewrite Hcap2, (Hcap1 c Hcap). case_bool_decide; auto.
Qed.

(** Once an entry is erased the container forgets it, and the iterator
    dangles: erasing through it again, stepping it in either direction or
    reading through it is undefined behaviour, not an [invalid_iterator]
    exception. *)
Theorem erased_iterator_dangles w this s i a d :
  Rep w this s →
  s !! i = Some (a, d) →
  let it := iterator.mk (Some a) (Some this) in
  ∃ w',
    erase this it w = Ok tt w'
    ∧ nodes w' !! a = None
    ∧ erase this it w' = Undefined
    ∧ iterator_pre_incr it w' = Undefined
    ∧ iterator_post_incr it w' = Undefined
    ∧ iterator_pre_decr it w' = Undefined
    ∧ iterator_post_decr it w' = Undefined
    ∧ bind (iterator_deref it) read w' = Undefined.
Proof.
  intros Hr Hi it. subst it.
  rewrite <- (take_drop_middle s i (a, d) Hi) in Hr.
  destruct (erase_spec w this _ a d _ Hr) as (w' & Hrun & _ & Hgone & _).
  exists w'. split; [done|]. split; [done|].
  unfold erase, remove_from_hash, iterator_pre_incr, iterator_post_incr,
    iterator_pre_decr, iterator_post_decr, iterator_deref, read, bind, ret, load_node.
  simpl. rewrite Hgone. rewrite decide_True by done. by rewrite Hgone.
Qed.

(** [clear()] on a well-formed container returns and empties it: [size()]
    is 0, [empty()] holds, [begin()] is [end()], the iteration yields
    nothing and no key is found.  Its nodes are deleted and no other node is
    touched, the capacity stays, and the container is well-formed. *)
Theorem clear_empties w this s :
  Rep w this s →
  ∃ w',
    clear this w = Ok tt w'
    ∧ size this w' = Ok 0 w'
    ∧ empty this w' = Ok true w'
    ∧ begin this w' = end_ this w'
    ∧ traverse this w' = Ok [] w'
    ∧ (∀ key, count this key w' = Ok 0 w' ∧ find this key w' = end_ this w')
    ∧ (∀ a, a ∈ s.*1 → nodes w' !! a = None)
    ∧ (∀ x, x ∉ s.*1 → nodes w' !! x = nodes w !! x)
    ∧ capacity w' this = capacity w this
    ∧ Rep w' this [].
Proof.
  intros Hr.
  destruct (clear_exact w this s Hr) as (w' & Hrun & Hr' & _ & Ho & Hcap & _).
  destruct (Rep_head_tail _ _ _ Hr') as (m & Hm & Hh & _ & Hc).
  exists w'. split; [done|]. split; [by apply (Rep_size _ _ _ Hr')|].
  split; [|split; [|split; [|split; [|split; [|split; [|split]]]]]]; try done.
  - unfold empty. erewrite bind_Ok; [|by apply load_map_Ok]. by rewrite Hc.
  - by rewrite (begin_spec _ _ _ Hr').
  - by apply (traverse_spec _ _ _ Hr').
  - intros key. by rewrite (count_spec laws _ _ _ _ Hr'), (find_spec laws _ _ _ _ Hr').
  - intros a Ha. by rewrite Ho, outside_in.
  - intros x Hx. by rewrite Ho, outside_out.
Qed.

(** [rehash()] on a well-formed container whose doubled capacity fits
    [size_t] returns with the capacity doubled and nothing else changed for
    a client: every [find] returns what it returned before, the iteration
    and [size()] are the same, and no node is allocated, deleted or moved;
    nodes of other containers are untouched. *)
Theorem rehash_keeps_lookups w this s :
  Rep w this s →
  (∀ c, capacity w this = Some c → 2 * c < SIZE_MAX1) →
  ∃ w',
    rehash this w = Ok tt w'
    ∧ (∀ c, capacity w this = Some c → capacity w' this = Some (2 * c))
    ∧ (∀ key it, find this key w = Ok it w → find this key w' = Ok it w')
    ∧ traverse this w' = Ok (s.*2) w'
    ∧ size this w' = Ok (N.of_nat (length s)) w'
    ∧ dom (nodes w') = dom (nodes w)
    ∧ (∀ x, x ∉ s.*1 → nodes w' !! x = nodes w !! x)
    ∧ (∀ that, that ≠ this → maps w' !! that = maps w !! that)
    ∧ Rep w' this s.
Proof.
  intros Hr Hfit. pose proof Hr as (m & ch & Hm & Hrep). destruct w as [h ms]. simpl in *.
  destruct (rehash_run h ms this m s ch Hm Hrep)
    as (h' & m' & ch' & Hrun & Hrep' & Hts & Hec & Hord & Hframe).
  { specialize (Hfit (table_size m)). unfold capacity in Hfit. simpl in Hfit.
    rewrite Hm in Hfit. specialize (Hfit eq_refl). lia. }
  assert (Rep (World h' (<[this := m']> ms)) this s) as Hr'.
  { exists m', ch'. split; [apply lookup_insert_eq|done]. }
  eexists. split; [exact Hrun|]. split; [|split; [|split; [|split; [|split; [|split; [|split]]]]]].
  - intros c. unfold capacity. simpl. rewrite lookup_insert_eq, Hm. simpl.
    intros [= <-]. by rewrite Hts.
  - intros key it Hf. rewrite (find_spec laws _ _ _ _ Hr) in Hf.
    injection Hf as <-. by apply find_spec.
  - by apply traverse_spec.
  - by apply Rep_size.
  - simpl. by apply order_part_dom.
  - done.
  - intros that Hne. simpl. by rewrite lookup_insert_ne.
  - done.
Qed.

(** ** Writing through a reference *)

(** The reference to the [i]-th entry is what [at] returns for its key and
    what [operator*] and [operator->] of a cursor at the entry return.
    Assigning to the value through it changes that value and nothing else:
    the iteration yields the old entries with the value of the [i]-th
    replaced, every [find] returns what it returned before, and no other
    node and no container object is written. *)
Theorem assign_through_reference w this s i a k v0 v :
  Rep w this s →
  s !! i = Some (a, (k, v0)) →
  at_ this k w = Ok a w
  ∧ iterator_deref (iterator.mk (Some a) (Some this)) w = Ok a w
  ∧ iterator_arrow (iterator.mk (Some a) (Some this)) w = Ok (Some a) w
  ∧ ∃ w',
      write a v w = Ok tt w'
      ∧ read a w' = Ok (k, v) w'
      ∧ at_ this k w' = Ok a w'
      ∧ traverse this w' = Ok (<[i := (k, v)]> (s.*2)) w'
      ∧ size this w' = Ok (N.of_nat (length s)) w'
      ∧ (∀ key it, find this key w = Ok it w → find this key w' = Ok it w')
      ∧ (∀ x, x ≠ a → nodes w' !! x = nodes w !! x)
      ∧ maps w' = maps w.
Proof.
  intros Hr Hi.
  assert (locate s k = Some (a, (k, v0))) as Hl.
  { eapply locate_member; [done..|]. by eapply list_elem_of_lookup_2. }
  split; [by rewrite (at_spec laws _ _ _ _ Hr), Hl|]. split; [done|]. split; [done|].
  pose proof (take_drop_middle s i _ Hi) as Hs. rewrite <- Hs in Hr.
  destruct (write_spec w this _ a k v0 _ v Hr) as (w' & Hrun & Hr' & Hmaps & Hnodes).
  assert (take i s ++ (a, (k, v)) :: drop (S i) s = <[i := (a, (k, v))]> s) as Hs'.
  { rewrite insert_take_drop; [done|]. by eapply lookup_lt_Some. }
  exists w'. split; [done|]. split; [|split; [|split; [|split; [|split; [|done]]]]].
  - eapply read_spec; [done|]. apply elem_of_app. right. left.
  - rewrite (at_spec laws _ _ _ _ Hr').
    erewrite (locate_member _ _ _ a k v laws Hr'); [done|].
    apply elem_of_app. right. left.
  - rewrite (traverse_spec _ _ _ Hr'), Hs'. by rewrite list_fmap_insert.
  - rewrite (Rep_size _ _ _ Hr'), Hs'. by rewrite length_insert.
  - intros key it Hf. rewrite (find_spec laws _ _ _ _ Hr) in Hf. injection Hf as <-.
    rewrite (find_spec laws _ _ _ _ Hr'). by rewrite (locate_set_second _ _ _ v0).
Qed.

(** [operator[]] followed by an assignment to the reference it returns
    stores the value for the key on any well-formed container: the value
    of a present key is replaced where the entry stands, an absent key is
    appended with the value.  Afterwards [at] returns the same reference,
    the key is counted once, and the entry reads as the value. *)
Theorem index_then_assign w this s key v :
  Rep w this s →
  room w this 1 →
  ∃ a w1 w2,
    operator_index this key w = Ok a w1
    ∧ write a v w1 = Ok tt w2
    ∧ at_ this key w2 = Ok a w2
    ∧ count this key w2 = Ok 1 w2
    ∧ (∃ k0, read a w2 = Ok (k0, v) w2 ∧ equal_func k0 key = true)
    ∧ traverse this w2
      = Ok (if has_key (s.*2) key then set_value (s.*2) key v
            else s.*2 ++ [(key, v)]) w2.
Proof.
  intros Hr Hroom. rewrite has_key_locate.
  destruct (locate s key) as [[a [k0 v0]]|] eqn:Hl.
  - pose proof Hl as (s1 & s2 & -> & Hl1 & He)%locate_split. simpl in He.
    destruct (write_spec w this s1 a k0 v0 s2 v Hr) as (w2 & Hrun & Hr2 & _).
    assert (locate (s1 ++ (a, (k0, v)) :: s2) key = Some (a, (k0, v))) as Hl2.
    { rewrite locate_app, Hl1. simpl. by rewrite He. }
    exists a, w, w2.
    split; [exact (operator_index_old_spec laws w this _ key (a, (k0, v0)) Hr Hl)|].
    split; [done|].
    split; [by rewrite (at_spec laws _ _ _ _ Hr2), Hl2|].
    split; [by rewrite (count_spec laws _ _ _ _ Hr2), Hl2|]. split.
    + exists k0. split; [|done]. eapply read_spec; [done|]. apply elem_of_app. right. left.
    + rewrite (traverse_spec _ _ _ Hr2). by rewrite set_value_present.
  - destruct (operator_index_new_spec laws w this s key Hr Hl Hroom)
      as (w1 & a & Hrun1 & _ & Hr1).
    destruct (write_spec w1 this s a key T_default [] v Hr1) as (w2 & Hrun & Hr2 & _).
    assert (locate (s ++ [(a, (key, v))]) key = Some (a, (key, v))) as Hl2.
    { rewrite locate_app, Hl. simpl. by rewrite (equal_refl laws). }
    exists a, w1, w2. split; [done|]. split; [done|].
    split; [by rewrite (at_spec laws _ _ _ _ Hr2), Hl2|].
    split; [by rewrite (count_spec laws _ _ _ _ Hr2), Hl2|]. split.
    + exists key. split; [|by apply (equal_refl laws)].
      eapply read_spec; [done|]. apply elem_of_app. right. left.
    + rewrite (traverse_spec _ _ _ Hr2). by rewrite fmap_app.
Qed.

(** ** Copying and the heap *)

(** The copy constructor allocates one node for each entry of the source,
    at addresses that were not in use, and writes nowhere else: the source
    object, its nodes and every other node are exactly as they were.  The
    new container iterates to the entries of the source. *)
Theorem copy_constructor_allocates w this other so :
  this ≠ other →
  Rep w other so →
  room w other 0 →
  ∃ w' l,
    construct_copy this other w = Ok tt w'
    ∧ traverse this w' = Ok (so.*2) w'
    ∧ traverse other w' = Ok (so.*2) w'
    ∧ length l = length so
    ∧ NoDup l
    ∧ (∀ a, a ∈ l → nodes w !! a = None ∧ is_Some (nodes w' !! a))
    ∧ (∀ x, x ∉ l → nodes w' !! x = nodes w !! x)
    ∧ (∀ that, that ≠ this → maps w' !! that = maps w !! that).
Proof.
  intros Hne Hro _.
  destruct (construct_copy_exact laws w this other so Hne Hro)
    as (w' & s' & Hrun & Hr' & Hdata & Hm & Ho).
  exists w', (s'.*1). split; [done|].
  split; [by rewrite (traverse_spec _ _ _ Hr'), Hdata|].
  assert (∀ a, a ∈ s'.*1 → nodes w !! a = None ∧ is_Some (nodes w' !! a)) as Hnew.
  { intros a Ha. split; [by rewrite <- Ho, outside_in|].
    apply list_elem_of_fmap in Ha as ([a' d] & -> & Hin).
    destruct (Rep_allocated _ _ _ _ _ Hr' Hin) as (n & ? & _). by eexists. }
  assert (∀ x, x ∉ s'.*1 → nodes w' !! x = nodes w !! x) as Hold.
  { intros x Hx. by rewrite <- Ho, outside_out. }
  split; [|split; [|split; [by eapply Rep_nodup|done]]].
  - apply traverse_spec. eapply Rep_frame; [done|by apply Hm|].
    intros x Hx. apply Hold. intros Hx'.
    apply list_elem_of_fmap in Hx as ([x' d] & -> & Hin).
    destruct (Rep_allocated _ _ _ _ _ Hro Hin) as (n & Hn & _).
    destruct (Hnew _ Hx') as [Hnone _]. simpl in *. congruence.
  - by rewrite <- (length_fmap snd so), <- Hdata, !length_fmap.
Qed.

(** Assignment from another container deletes the nodes that the
    destination held and allocates one node for each entry of the source;
    it writes nowhere else: apart from the new nodes, the heap is the old
    heap without the old nodes of the destination, so that nothing leaks and
    the source is exactly as it was.  The destination iterates to the
    entries of the source. *)
Theorem assignment_releases_old_entries w this other st so :
  this ≠ other →
  Rep w this st →
  Rep w other so →
  (∀ x, x ∈ st.*1 → x ∉ so.*1) →
  room w other 0 →
  ∃ w' l,
    operator_assign this other w = Ok this w'
    ∧ traverse this w' = Ok (so.*2) w'
    ∧ traverse other w' = Ok (so.*2) w'
    ∧ length l = length so
    ∧ NoDup l
    ∧ (∀ a, a ∈ l → is_Some (nodes w' !! a) ∧ (a ∈ st.*1 ∨ nodes w !! a = None))
    ∧ (∀ x, x ∉ l → x ∈ st.*1 → nodes w' !! x = None)
    ∧ (∀ x, x ∉ l → x ∉ st.*1 → nodes w' !! x = nodes w !! x)
    ∧ (∀ that, that ≠ this → maps w' !! that = maps w !! that).
Proof.
  intros Hne Hrt Hro Hdis _.
  destruct (operator_assign_exact laws w this other st so Hne Hrt Hro Hdis)
    as (w' & s' & Hrun & Hr' & Hdata & Hm & Ho).
  exists w', (s'.*1). split; [done|].
  split; [by rewrite (traverse_spec _ _ _ Hr'), Hdata|].
  assert (∀ a, a ∈ s'.*1 →
            is_Some (nodes w' !! a) ∧ (a ∈ st.*1 ∨ nodes w !! a = None)) as Hnew.
  { intros a Ha. split.
    - apply list_elem_of_fmap in Ha as ([a' d] & -> & Hin).
      destruct (Rep_allocated _ _ _ _ _ Hr' Hin) as (n & ? & _). by eexists.
    - specialize (Ho a). rewrite outside_in in Ho by done.
      unfold outside in Ho. case_decide; auto. }
  assert (∀ x, x ∉ s'.*1 → x ∉ st.*1 → nodes w' !! x = nodes w !! x) as Hold.
  { intros x Hx Hx'. specialize (Ho x).
    by rewrite outside_out, (outside_out w) in Ho. }
  split; [|split; [|split; [by eapply Rep_nodup|split; [done|split; [|done]]]]].
  - apply traverse_spec. eapply Rep_frame; [done|by apply Hm|].
    intros x Hx.
    assert (x ∉ st.*1) as Hxt by (intros ?; by eapply Hdis).
    apply Hold; [|done]. intros Hx'.
    apply list_elem_of_fmap in Hx as ([x' d] & -> & Hin).
    destruct (Rep_allocated _ _ _ _ _ Hro Hin) as (n & Hn & _).
    destruct (Hnew _ Hx') as [_ [?|Hnone]]; [done|]. simpl in *. congruence.
  - by rewrite <- (length_fmap snd so), <- Hdata, !length_fmap.
  - intros x Hx Hx'. specialize (Ho x).
    by rewrite outside_out, (outside_in w) in Ho.
Qed.

(** ** Lookup and iteration *)

(** On a well-formed container the lookups agree with the iteration and
    with each other.  If the iteration yields an entry whose key is equal to
    the key asked for, [find] returns a cursor at such an entry, [count]
    returns 1 and [at] returns the reference to it; if it yields none,
    [find] returns [end()], [count] returns 0 and [at] throws
    [index_out_of_bound].  A key that is equal to the key asked for gets the
    same answers. *)
Theorem lookups_agree w this s key :
  Rep w this s →
  ∃ l node,
    traverse this w = Ok l w
    ∧ find this key w = Ok (iterator.mk node (Some this)) w
    ∧ count this key w = Ok (match node with Some _ => 1 | None => 0 end) w
    ∧ at_ this key w = match node with
                       | Some a => Ok a w
                       | None => Throw index_out_of_bound w
                       end
    ∧ match node with
      | Some a => ∃ k0 v, read a w = Ok (k0, v) w ∧ equal_func k0 key = true
                          ∧ (k0, v) ∈ l
      | None => ∀ d, d ∈ l → equal_func (fst d) key = false
      end
    ∧ (∀ key', equal_func key key' = true →
         find this key' w = Ok (iterator.mk node (Some this)) w).
Proof.
  intros Hr. exists (s.*2), (fst <$> locate s key).
  split; [by apply traverse_spec|]. split; [by apply find_spec|].
  rewrite (count_spec laws _ _ _ _ Hr), (at_spec laws _ _ _ _ Hr).
  split; [by destruct (locate s key)|]. split; [by destruct (locate s key)|]. split.
  - destruct (locate s key) as [[a [k0 v]]|] eqn:Hl; simpl.
    + pose proof Hl as (s1 & s2 & Hs & _ & He)%locate_split. simpl in He.
      assert ((a, (k0, v)) ∈ s) as Hin by (rewrite Hs; apply elem_of_app; right; left).
      exists k0, v. split; [by eapply read_spec|]. split; [done|].
      apply list_elem_of_fmap. by exists (a, (k0, v)).
    + by apply locate_None_data.
  - intros key' He. rewrite (find_spec laws _ _ _ _ Hr).
    by rewrite (locate_equal laws s key key' He).
Qed.

(** ** Growth *)

(** The table grows on the insertion of an absent key exactly when, before
    the call, the number of entries has reached three quarters of the
    capacity; it then doubles.  The insertion of a present key never grows
    it. *)
Theorem growth_at_three_quarters w this s c key v :
  Rep w this s →
  room w this 1 →
  capacity w this = Some c →
  size this w = Ok (N.of_nat (length s)) w
  ∧ ∃ it b w',
      insert this (key, v) w = Ok (it, b) w'
      ∧ capacity w' this
        = Some (if b && bool_decide (3 * c ≤ 4 * N.of_nat (length s)) then 2 * c else c)
      ∧ (b = false ↔ count this key w = Ok 1 w).
Proof.
  intros Hr Hroom Hcap. split; [by apply Rep_size|].
  rewrite (count_spec laws _ _ _ _ Hr).
  destruct (locate s key) as [e|] eqn:Hl.
  - exists (iterator.mk (Some (fst e)) (Some this)), false, w.
    split; [by eapply insert_old_spec|]. by split.
  - destruct (insert_new_spec laws w this s key v Hr Hl Hroom)
      as (w' & a & Hrun & _ & _ & _ & Hcap' & _).
    exists (iterator.mk (Some a) (Some this)), true, w'.
    split; [done|]. split; [by rewrite (Hcap' c Hcap)|].
    split; [done|]. by intros [= ?].
Qed.

(** ** What a history leaves *)

(** Every memory that a history of calls on a fresh container leads to
    satisfies the representation invariant, with the entries that the
    history builds: the order list and the chains of the buckets are well
    linked and hold the same nodes, [head], [tail] and the count agree with
    them, the capacity is 16 times a power of two and at least four thirds
    of the number of entries. *)
Theorem invariant_after_history w this ops :
  N.of_nat (length ops) ≤ 2 ^ 51 →
  ∃ w1 w2 s,
    construct this w = Ok tt w1
    ∧ run this ops w1 = Ok tt w2
    ∧ Rep w2 this s
    ∧ s.*2 = entries ops
    ∧ ∃ c e, capacity w2 this = Some c ∧ c = 16 * 2 ^ e
             ∧ 4 * N.of_nat (length s) ≤ 3 * c.
Proof.
  intros Hlen. destruct (construct_spec w this) as (w1 & Hc & Hr & Hcap & _).
  destruct (run_exact laws ops w1 this [] Hr) as (w2 & s & Hrun & Hr2 & Hs & _).
  { eapply room_fresh; [done..| |]; simpl; size_lia. }
  exists w1, w2, s. do 4 (split; [done|]). by eapply Rep_capacity.
Qed.

(** While a container is in use the heap holds exactly one node for each of
    its entries: after any history of calls on a fresh container, the nodes
    allocated since the construction are as many as [size()] says, at
    addresses that were free, and every node that was there before is as it
    was. *)
Theorem one_node_per_entry w this ops :
  N.of_nat (length ops) ≤ 2 ^ 51 →
  ∃ w1 w2 l,
    construct this w = Ok tt w1
    ∧ run this ops w1 = Ok tt w2
    ∧ size this w2 = Ok (N.of_nat (length l)) w2
    ∧ NoDup l
    ∧ (∀ a, a ∈ l → nodes w !! a = None ∧ is_Some (nodes w2 !! a))
    ∧ (∀ x, x ∉ l → nodes w2 !! x = nodes w !! x).
Proof.
  intros Hlen. destruct (construct_spec w this) as (w1 & Hc & Hr & Hcap & Hn1 & _).
  destruct (run_exact laws ops w1 this [] Hr) as (w2 & s & Hrun & Hr2 & _ & _ & Ho).
  { eapply room_fresh; [done..| |]; simpl; size_lia. }
  exists w1, w2, (s.*1). do 2 (split; [done|]).
  split; [rewrite length_fmap; by apply Rep_size|].
  split; [by eapply Rep_nodup|]. split.
  - intros a Ha. split.
    + specialize (Ho a). rewrite outside_in, outside_nil, Hn1 in Ho by done. done.
    + apply list_elem_of_fmap in Ha as ([a' d] & -> & Hin).
      destruct (Rep_allocated _ _ _ _ _ Hr2 Hin) as (n & ? & _). by eexists.
  - intros x Hx. specialize (Ho x). by rewrite outside_out, outside_nil, Hn1 in Ho.
Qed.

(** Erasing an entry of a well-formed container leaves every other entry
    where it was: a key that was found at another node is found there, with
    the same data, so that iterators and references to other entries stay
    good.  A step forward from a surviving entry leads to its old successor,
    or past the erased entry if that was the successor. *)
Theorem erase_keeps_other_entries_in_place w this s i a d :
  Rep w this s →
  s !! i = Some (a, d) →
  ∃ w',
    erase this (iterator.mk (Some a) (Some this)) w = Ok tt w'
    ∧ (∀ k' a', a' ≠ a →
         find this k' w = Ok (iterator.mk (Some a') (Some this)) w →
         find this k' w' = Ok (iterator.mk (Some a') (Some this)) w')
    ∧ (∀ j a' d', j ≠ i → s !! j = Some (a', d') →
         read a' w' = Ok d' w'
         ∧ iterator_pre_incr (iterator.mk (Some a') (Some this)) w'
           = Ok (iterator.mk (fst <$> s !! (if decide (S j = i) then S (S j) else S j))
                   (Some this)) w').
Proof.
  intros Hr Hi. pose proof (take_drop_middle s i _ Hi) as Hs.
  pose proof Hr as Hr0. rewrite <- Hs in Hr0.
  destruct (erase_spec w this _ a d _ Hr0) as (w' & Hrun & Hr' & _).
  assert (take i s ++ drop (S i) s = delete i s) as Hdel.
  { by rewrite delete_take_drop. }
  rewrite Hdel in Hr'.
  exists w'. split; [done|]. split.
  - intros k' a' Hne Hf. rewrite (find_spec laws _ _ _ _ Hr) in Hf.
    rewrite (find_spec laws _ _ _ _ Hr'), <- Hdel.
    destruct (locate s k') as [[a1 d1]|] eqn:Hl; [|done].
    simpl in Hf. injection Hf as ->.
    assert (locate (take i s ++ drop (S i) s) k' = Some (a', d1)) as ->; [|done].
    rewrite <- Hs in Hl. rewrite locate_app in Hl |- *.
    destruct (locate (take i s) k'); [done|].
    simpl in Hl. by destruct (equal_func (fst d) k'); simplify_eq.
  - intros j a' d' Hne Hj.
    set (j' := if decide (j < i)%nat then j else Nat.pred j).
    assert (delete i s !! j' = Some (a', d')) as Hj'.
    { subst j'. case_decide.
      - by rewrite list_lookup_delete_lt.
      - rewrite list_lookup_delete_ge by lia. by replace (S (Nat.pred j)) with j by lia. }
    split; [eapply read_spec; [done|by eapply list_elem_of_lookup_2]|].
    erewrite step_forward; [|done..]. do 3 f_equal.
    subst j'. repeat case_decide; try lia.
    + by rewrite list_lookup_delete_ge by lia.
    + by rewrite list_lookup_delete_lt by lia.
    + rewrite list_lookup_delete_ge by lia. by replace (S (Nat.pred j)) with j by lia.
Qed.

(** ** The table *)

(** [clear_table()] alone on a well-formed container walks the chains of
    the buckets and deletes every node of the container, each once, and no
    other node; it sets [hash_table] to null and changes no other member, so
    that [head] and [tail] of a container that held entries are left
    dangling: [clear()] after it is undefined behaviour, which is why the
    destructor and the assignment call [clear()] first.  Once [hash_table]
    is null a second [clear_table()] does nothing. *)
Theorem clear_table_deletes_chains w this s :
  Rep w this s →
  ∃ w' m,
    clear_table this w = Ok tt w'
    ∧ (∀ a, a ∈ s.*1 → nodes w' !! a = None)
    ∧ (∀ x, x ∉ s.*1 → nodes w' !! x = nodes w !! x)
    ∧ maps w !! this = Some m
    ∧ maps w' !! this = Some (set_hash_table None m)
    ∧ (∀ that, that ≠ this → maps w' !! that = maps w !! that)
    ∧ clear_table this w' = Ok tt w'
    ∧ (s ≠ [] → clear this w' = Undefined).
Proof.
  intros Hr. destruct (clear_table_run w this s Hr) as (m & h' & Hm & Hrun & Hgone & Hout).
  eexists _, m. split; [exact Hrun|]. cbn [nodes maps].
  do 3 (split; [done|]). split; [apply lookup_insert_eq|]. split; [|split].
  - intros that Hne. by rewrite lookup_insert_ne.
  - unfold clear_table. erewrite bind_Ok; [|apply load_map_Ok; apply lookup_insert_eq].
    done.
  - intros Hs. destruct (Rep_head_tail _ _ _ Hr) as (m' & Hm' & Hh & _). simplify_eq.
    destruct s as [|[a d] s]; [done|]. simpl in Hh.
    unfold clear. erewrite bind_Ok; [|apply load_map_Ok; apply lookup_insert_eq].
    erewrite bind_Ok; [|reflexivity]. cbn [head set_hash_table]. rewrite Hh.
    unfold bind at 1. cbn [clear_loop]. unfold bind at 1, load_node. cbn [nodes].
    rewrite Hgone; [done|]. left.
Qed.

End further.
End linked_hashmap.

Arguments Ok {Key T A} a w.
Arguments Throw {Key T A} e w.
Arguments Undefined {Key T A}.
Arguments Diverge {Key T A}.

(** * A concrete instantiation

    Keys and values are numbers; the hash keeps two bits of the key, so that
    keys collide; [Equal] is equality; [T()] is 0. *)
Definition hash4 (k : N) : N := k mod 4.

Lemma lawful_hash4 : lawful hash4 N.eqb.
Proof.
  split.
  - apply N.eqb_refl.
  - intros k1 k2 ?%N.eqb_eq. by apply N.eqb_eq.
  - intros k1 k2 k3 ?%N.eqb_eq ?%N.eqb_eq. apply N.eqb_eq. congruence.
  - intros k1 k2 ?%N.eqb_eq. congruence.
Qed.

Lemma NoDup_distinct_keys (keys : list N) : NoDup keys → distinct_keys N.eqb keys.
Proof.
  intros Hnd i j k1 k2 Hi Hj He. apply N.eqb_eq in He. subst k2.
  by eapply NoDup_lookup.
Qed.

Definition empty_world : world (Key:=N) (T:=N) := World ∅ ∅.

Definition three_values : list (N * N) := [(5, 50); (9, 90); (2, 20)].

Lemma three_values_distinct : distinct_keys N.eqb (three_values.*1).
Proof. apply NoDup_distinct_keys. by apply (bool_decide_unpack (NoDup _)). Qed.

(** The memory after [linked_hashmap m; m.insert({5,50}); m.insert({9,90});
    m.insert({2,20});] with [m] at address 1, and its entries. *)
Definition three_world : world (Key:=N) (T:=N) :=
  match bind (construct 1%positive)
          (λ _, insert_all hash4 N.eqb 1%positive three_values) empty_world with
  | Ok _ w => w
  | _ => empty_world
  end.

Definition three_entries : list (positive * (N * N)) :=
  [(1%positive, (5, 50)); (2%positive, (9, 90)); (3%positive, (2, 20))].

Lemma three_world_Rep : Rep hash4 N.eqb three_world 1%positive three_entries.
Proof.
  destruct (built hash4 N.eqb lawful_hash4 empty_world 1%positive three_values)
    as (w1 & w2 & s & Hc & Hrun & Hr & Hd & _).
  { exact three_values_distinct. }
  { by vm_compute. }
  assert (w2 = three_world) as ->.
  { unfold three_world, bind. rewrite Hc, Hrun. done. }
  destruct s as [|[a1 d1] [|[a2 d2] [|[a3 d3] [|? ?]]]]; try done.
  injection Hd as -> -> ->.
  pose proof (find_spec hash4 N.eqb lawful_hash4 _ _ _ 5 Hr) as H5.
  pose proof (find_spec hash4 N.eqb lawful_hash4 _ _ _ 9 Hr) as H9.
  pose proof (find_spec hash4 N.eqb lawful_hash4 _ _ _ 2 Hr) as H2.
  vm_compute in H5, H9, H2.
  injection H5 as <-. injection H9 as <-. injection H2 as <-. exact Hr.
Qed.

Lemma three_world_room : room three_world 1%positive 1.
Proof.
  eexists. split; [by vm_compute|]. split; by vm_compute.
Qed.

(** The memory after [linked_hashmap m2(m);], with the copy at address 2,
    and the entries of the copy. *)
Definition two_world : world (Key:=N) (T:=N) :=
  match construct_copy hash4 N.eqb 2%positive 1%positive three_world with
  | Ok _ w => w
  | _ => three_world
  end.

Definition two_entries : list (positive * (N * N)) :=
  [(4%positive, (5, 50)); (5%positive, (9, 90)); (6%positive, (2, 20))].

Lemma two_world_Rep :
  Rep hash4 N.eqb two_world 2%positive two_entries
  ∧ Rep hash4 N.eqb two_world 1%positive three_entries.
Proof.
  destruct (construct_copy_spec hash4 N.eqb lawful_hash4 three_world 2%positive 1%positive
              three_entries ltac:(done) three_world_Rep)
    as (w' & s' & Hrun & Hr' & Hd & Hro & _).
  assert (w' = two_world) as ->.
  { unfold two_world. by rewrite Hrun. }
  split; [|done].
  assert (∃ a1 a2 a3, s' = [(a1, (5, 50)); (a2, (9, 90)); (a3, (2, 20))])
    as (a1 & a2 & a3 & ->).
  { clear -Hd. destruct s' as [|[a1 d1] [|[a2 d2] [|[a3 d3] [|? ?]]]]; try done.
    injection Hd as -> -> ->. eauto. }
  pose proof (find_spec hash4 N.eqb lawful_hash4 _ _ _ 5 Hr') as H5.
  pose proof (find_spec hash4 N.eqb lawful_hash4 _ _ _ 9 Hr') as H9.
  pose proof (find_spec hash4 N.eqb lawful_hash4 _ _ _ 2 Hr') as H2.
  vm_compute in H5, H9, H2.
  injection H5 as <-. injection H9 as <-. injection H2 as <-. exact Hr'.
Qed.

Lemma two_world_apart (x : positive) : x ∈ three_entries.*1 → x ∉ two_entries.*1.
Proof.
  simpl. rewrite !elem_of_cons, !elem_of_nil. intros [->|[->|[->|[]]]]; intros Hx;
    repeat destruct Hx as [Hx|Hx]; done.
Qed.

Lemma two_world_apart' (x : positive) : x ∈ two_entries.*1 → x ∉ three_entries.*1.
Proof. intros Hx Hx'. by eapply two_world_apart. Qed.

Lemma two_world_room n : (n ≤ 1000)%nat → room two_world 2%positive n.
Proof.
  intros Hn. eexists. split; [by vm_compute|]. cbn [table_size element_count].
  split; [by vm_compute|].
  change (2 ^ 54) with 18014398509481984. lia.
Qed.

Lemma two_world_room_source : room two_world 1%positive 0.
Proof. eexists. split; [by vm_compute|]. split; by vm_compute. Qed.

(** ** Witnesses *)

Lemma insertion_order_preserved_witness :
  ∃ w1 w2,
    construct 1%positive empty_world = Ok tt w1
    ∧ insert_all hash4 N.eqb 1%positive three_values w1 = Ok tt w2
    ∧ traverse 1%positive w2 = Ok three_values w2.
Proof.
  apply (proj1 (insertion_order_preserved hash4 N.eqb lawful_hash4)).
  - exact three_values_distinct.
  - by vm_compute.
Defined.

Definition history : list (op (Key:=N) (T:=N)) :=
  [Insert (5, 50); Insert (9, 90); EraseKey 5; Insert (9, 99); Index 7].

Lemma lookup_correct_witness :
  ∃ w1 w2,
    construct 1%positive empty_world = Ok tt w1
    ∧ run hash4 N.eqb 0 1%positive history w1 = Ok tt w2
    ∧ ∃ a k0,
        find hash4 N.eqb 1%positive 9 w2 = Ok (iterator.mk (Some a) (Some 1%positive)) w2
        ∧ read a w2 = Ok (k0, 90) w2
        ∧ N.eqb k0 9 = true
        ∧ count hash4 N.eqb 1%positive 9 w2 = Ok 1 w2.
Proof.
  apply (lookup_correct hash4 N.eqb 0 lawful_hash4 empty_world 1%positive history 9).
  by vm_compute.
Defined.


Definition thirteen_values : list (N * N) :=
  [(0, 100); (1, 101); (2, 102); (3, 103); (4, 104); (5, 105); (6, 106);
   (7, 107); (8, 108); (9, 109); (10, 110); (11, 111); (12, 112)].

Lemma growth_invariant_witness :
  (∃ w0 w13,
    construct 1%positive empty_world = Ok tt w0
    ∧ capacity w0 1%positive = Some 16
    ∧ (∀ n, (n ≤ 12)%nat →
         ∃ wn, insert_all hash4 N.eqb 1%positive (take n thirteen_values) w0 = Ok tt wn
               ∧ capacity wn 1%positive = Some 16)
    ∧ insert_all hash4 N.eqb 1%positive thirteen_values w0 = Ok tt w13
    ∧ capacity w13 1%positive = Some 32
    ∧ size 1%positive w13 = Ok 13 w13
    ∧ ∀ value, value ∈ thirteen_values →
        ∃ a, find hash4 N.eqb 1%positive (fst value) w13
             = Ok (iterator.mk (Some a) (Some 1%positive)) w13
             ∧ read a w13 = Ok value w13)
  ∧ (∃ w', operator_assign hash4 N.eqb 2%positive 1%positive two_world = Ok 2%positive w'
           ∧ capacity w' 2%positive = capacity two_world 1%positive
           ∧ capacity w' 1%positive = capacity two_world 1%positive).
Proof.
  pose proof (growth_invariant hash4 N.eqb 0 lawful_hash4)
    as (_ & _ & _ & _ & H13 & _ & Hassign & _).
  split.
  - apply H13.
    + apply NoDup_distinct_keys. by apply (bool_decide_unpack (NoDup _)).
    + reflexivity.
  - exact (Hassign two_world 2%positive 1%positive two_entries three_entries ltac:(done)
             (proj1 two_world_Rep) (proj2 two_world_Rep) two_world_apart'
             two_world_room_source).
Defined.

Lemma erase_consistent_witness :
  ∃ w',
    erase hash4 1%positive (iterator.mk (Some 2%positive) (Some 1%positive)) three_world
    = Ok tt w'
    ∧ count hash4 N.eqb 1%positive 9 w' = Ok 0 w'
    ∧ size 1%positive three_world = Ok 3 three_world
    ∧ size 1%positive w' = Ok 2 w'
    ∧ traverse 1%positive three_world = Ok [(5, 50); (9, 90); (2, 20)] three_world
    ∧ traverse 1%positive w' = Ok [(5, 50); (2, 20)] w'
    ∧ Rep hash4 N.eqb w' 1%positive [(1%positive, (5, 50)); (3%positive, (2, 20))].
Proof.
  exact (erase_consistent hash4 N.eqb lawful_hash4 three_world 1%positive three_entries
           1 2%positive 9 90 three_world_Rep eq_refl).
Defined.

Lemma erase_errors_witness :
  (erase hash4 1%positive (iterator.mk None (Some 1%positive)) three_world
   = Throw invalid_iterator three_world
   ↔ @None positive = None ∨ Some 1%positive ≠ Some 1%positive)
  ∧ ∃ w', erase hash4 1%positive (iterator.mk (Some 3%positive) (Some 1%positive))
            three_world = Ok tt w'.
Proof.
  split.
  - exact (proj1 (erase_errors hash4 N.eqb three_world 1%positive
                    (iterator.mk None (Some 1%positive)))).
  - exact (proj2 (proj2 (proj2 (proj2
             (erase_errors hash4 N.eqb three_world 1%positive
                (iterator.mk (Some 3%positive) (Some 1%positive))))))
             three_entries 2%nat 3%positive (2, 20) three_world_Rep eq_refl eq_refl).
Defined.

Lemma access_errors_witness :
  (count hash4 N.eqb 1%positive 7 three_world = Ok 0 three_world
   ↔ at_ hash4 N.eqb 1%positive 7 three_world = Throw index_out_of_bound three_world)
  ∧ ∃ a w',
      operator_index hash4 N.eqb 0 1%positive 7 three_world = Ok a w'
      ∧ read a w' = Ok (7, 0) w'
      ∧ traverse 1%positive w' = Ok [(5, 50); (9, 90); (2, 20); (7, 0)] w'
      ∧ at_ hash4 N.eqb 1%positive 7 w' = Ok a w'.
Proof.
  pose proof (access_errors hash4 N.eqb 0 lawful_hash4 three_world 1%positive
                three_entries 7 three_world_Rep three_world_room) as (H1 & H2 & _).
  split; [exact H1|]. apply H2. by vm_compute.
Defined.

Lemma cursor_errors_witness :
  iterator_pre_decr (iterator.mk None (Some 1%positive)) three_world
  = Ok (iterator.mk (Some 3%positive) (Some 1%positive)) three_world
  ∧ iterator_deref (iterator.mk None (Some 1%positive)) three_world
    = Throw invalid_iterator three_world
  ∧ iterator_arrow (iterator.mk None (Some 1%positive)) three_world
    = Ok None three_world.
Proof.
  pose proof (cursor_errors (T:=N) hash4 N.eqb) as (H1 & _ & _ & H4 & _).
  split; [exact (proj1 (H1 three_world 1%positive three_entries three_world_Rep))|].
  exact (H4 three_world (iterator.mk None (Some 1%positive)) eq_refl).
Defined.

Lemma decrement_without_predecessor_witness :
  begin 1%positive three_world
  = Ok (iterator.mk (Some 1%positive) (Some 1%positive)) three_world
  ∧ iterator_pre_decr (iterator.mk (Some 1%positive) (Some 1%positive)) three_world
    = Ok (iterator.mk None (Some 1%positive)) three_world.
Proof.
  pose proof (decrement_without_predecessor (T:=N) hash4 N.eqb) as (_ & _ & H3 & _).
  destruct (H3 three_world 1%positive three_entries 1%positive (5, 50)
              three_world_Rep eq_refl) as (Hb & _ & Hd & _).
  exact (conj Hb Hd).
Defined.

Lemma copy_semantics_witness :
  traverse 1%positive three_world = Ok three_values three_world
  ∧ (∃ w', construct_copy hash4 N.eqb 2%positive 1%positive three_world = Ok tt w'
           ∧ copied hash4 N.eqb 0 three_world w' 2%positive 1%positive three_values)
  ∧ operator_assign hash4 N.eqb 1%positive 1%positive three_world
    = Ok 1%positive three_world.
Proof.
  pose proof (copy_semantics hash4 N.eqb 0 lawful_hash4 three_world 2%positive 1%positive
                three_entries ltac:(done) three_world_Rep
                (room_le three_world 1%positive 1 0 three_world_room ltac:(lia))) as (H1 & H2 & _ & H4).
  exact (conj H1 (conj H2 H4)).
Defined.

(** ** Counterexamples *)

(** An iterator to an entry that has been erased keeps its node and its
    owner: a second [erase] through it does not throw, it reads the freed
    node. *)
Lemma erase_twice_is_not_detected :
  ∃ w1 it w2 w3,
    construct 1%positive empty_world = Ok tt w1
    ∧ insert hash4 N.eqb 1%positive (5, 50) w1 = Ok (it, true) w2
    ∧ erase hash4 1%positive it w2 = Ok tt w3
    ∧ erase hash4 1%positive it w3 = Undefined
    ∧ erase hash4 1%positive it w3 ≠ Throw invalid_iterator w3.
Proof.
  eexists _, _, _, _.
  split; [by vm_compute|]. split; [by vm_compute|]. split; [by vm_compute|].
  split; by vm_compute.
Qed.

(** Assignment shrinks the capacity: a container that has grown to 32
    buckets is assigned a fresh one and has 16 afterwards. *)
Lemma assignment_shrinks_capacity :
  ∃ w1 w2 w3 w4,
    construct 1%positive empty_world = Ok tt w1
    ∧ insert_all hash4 N.eqb 1%positive thirteen_values w1 = Ok tt w2
    ∧ construct 2%positive w2 = Ok tt w3
    ∧ capacity w3 1%positive = Some 32
    ∧ capacity w3 2%positive = Some 16
    ∧ operator_assign hash4 N.eqb 1%positive 2%positive w3 = Ok 1%positive w4
    ∧ capacity w4 1%positive = Some 16
    ∧ ¬ (32 ≤ 16).
Proof.
  eexists _, _, _, _.
  split; [by vm_compute|]. split; [by vm_compute|]. split; [by vm_compute|].
  split; [by vm_compute|]. split; [by vm_compute|]. split; [by vm_compute|].
  split; [by vm_compute|]. lia.
Qed.

(** [operator->] on the past-the-end cursor returns the null pointer. *)
Lemma arrow_at_end_does_not_throw :
  iterator_arrow (iterator.mk None (Some 1%positive)) empty_world = Ok None empty_world
  ∧ iterator_arrow (iterator.mk None (Some 1%positive)) empty_world
    ≠ Throw invalid_iterator empty_world.
Proof. split; by vm_compute. Qed.

(** * The further properties on the instantiation *)

(** ** The hash function *)

(** What a client observes does not depend on the hash function: the same
    history of calls on two fresh containers that hash differently leads to
    the same iteration and to the same answer of [count] for every key. *)
Theorem hash_is_not_observable {Key T : Type} (hash1 hash2 : Key → N)
    (equal_func : Key → Key → bool) (T_default : T) w this ops :
  lawful hash1 equal_func →
  lawful hash2 equal_func →
  N.of_nat (length ops) ≤ 2 ^ 51 →
  ∃ w0 w1 w2 l,
    construct this w = Ok tt w0
    ∧ run hash1 equal_func T_default this ops w0 = Ok tt w1
    ∧ run hash2 equal_func T_default this ops w0 = Ok tt w2
    ∧ traverse this w1 = Ok l w1
    ∧ traverse this w2 = Ok l w2
    ∧ ∀ key, ∃ n, count hash1 equal_func this key w1 = Ok n w1
                  ∧ count hash2 equal_func this key w2 = Ok n w2.
Proof.
  intros laws1 laws2 Hlen.
  destruct (construct_spec hash1 equal_func w this) as (w0 & Hc & Hr1 & Hcap & _).
  destruct (construct_spec hash2 equal_func w this) as (w0' & Hc' & Hr2 & _).
  rewrite Hc in Hc'. injection Hc' as <-.
  assert (room w0 this (length ops)) as Hroom.
  { eapply room_fresh; [exact Hr1|exact Hcap| |]; simpl.
    - by vm_compute.
    - change (2 ^ 54) with 18014398509481984. change (2 ^ 51) with 2251799813685248 in Hlen.
      lia. }
  destruct (run_exact hash1 equal_func T_default laws1 ops w0 this [] Hr1 Hroom)
    as (w1 & s1 & Hrun1 & Hr1' & Hs1 & _).
  destruct (run_exact hash2 equal_func T_default laws2 ops w0 this [] Hr2 Hroom)
    as (w2 & s2 & Hrun2 & Hr2' & Hs2 & _).
  exists w0, w1, w2, (s1.*2). do 3 (split; [done|]).
  split; [by eapply traverse_spec|].
  split; [rewrite Hs1, <- Hs2; by eapply traverse_spec|].
  intros key. exists (if has_key equal_func (s1.*2) key then 1 else 0). split.
  - rewrite (count_spec hash1 equal_func laws1 _ _ _ _ Hr1'), has_key_locate.
    by destruct (locate equal_func s1 key).
  - rewrite (count_spec hash2 equal_func laws2 _ _ _ _ Hr2'), Hs1, <- Hs2, has_key_locate.
    by destruct (locate equal_func s2 key).
Qed.

(** ** Witnesses *)

Lemma iteration_after_history_witness :
  ∃ w1 w2,
    construct 1%positive empty_world = Ok tt w1
    ∧ run hash4 N.eqb 0 1%positive history w1 = Ok tt w2
    ∧ traverse 1%positive w2 = Ok [(9, 90); (7, 0)] w2
    ∧ size 1%positive w2 = Ok 2 w2
    ∧ distinct_keys N.eqb [9; 7].
Proof.
  apply (iteration_after_history hash4 N.eqb 0 lawful_hash4 empty_world 1%positive history).
  by vm_compute.
Defined.

Lemma lifetime_leaves_heap_witness :
  ∃ w1 w2 w3,
    construct 1%positive empty_world = Ok tt w1
    ∧ run hash4 N.eqb 0 1%positive history w1 = Ok tt w2
    ∧ destructor 1%positive w2 = Ok tt w3
    ∧ nodes w3 = nodes empty_world
    ∧ (∀ that, that ≠ 1%positive → maps w3 !! that = maps empty_world !! that)
    ∧ hash_table <$> maps w3 !! 1%positive = Some None.
Proof.
  apply (lifetime_leaves_heap hash4 N.eqb 0 lawful_hash4 empty_world 1%positive history).
  by vm_compute.
Defined.

Lemma destructor_releases_witness :
  ∃ w',
    destructor 1%positive three_world = Ok tt w'
    ∧ (∀ a, a ∈ three_entries.*1 → nodes w' !! a = None)
    ∧ (∀ x, x ∉ three_entries.*1 → nodes w' !! x = nodes three_world !! x)
    ∧ (∀ that, that ≠ 1%positive → maps w' !! that = maps three_world !! that)
    ∧ hash_table <$> maps w' !! 1%positive = Some None.
Proof.
  exact (destructor_releases hash4 N.eqb three_world 1%positive three_entries
           three_world_Rep).
Defined.

Lemma histories_leave_others_witness :
  ∃ w',
    run hash4 N.eqb 0 2%positive history two_world = Ok tt w'
    ∧ maps w' !! 1%positive = maps two_world !! 1%positive
    ∧ (∀ x, x ∈ three_entries.*1 → nodes w' !! x = nodes two_world !! x)
    ∧ traverse 1%positive two_world = Ok (three_entries.*2) two_world
    ∧ traverse 1%positive w' = Ok (three_entries.*2) w'.
Proof.
  apply (histories_leave_others hash4 N.eqb 0 lawful_hash4 two_world 2%positive 1%positive
           two_entries three_entries history).
  - done.
  - exact (proj1 two_world_Rep).
  - exact (proj2 two_world_Rep).
  - exact two_world_apart.
  - apply two_world_room. simpl. lia.
Defined.

Lemma backward_iteration_witness :
  ∃ l, traverse 1%positive three_world = Ok l three_world
       ∧ traverse_back 1%positive three_world = Ok (rev l) three_world.
Proof.
  exact (backward_iteration hash4 N.eqb three_world 1%positive three_entries
           three_world_Rep).
Defined.

Lemma cursor_stepping_witness :
  let it := iterator.mk (Some 1%positive) (Some 1%positive) in
  iterator_pre_incr it three_world
  = Ok (iterator.mk (Some 2%positive) (Some 1%positive)) three_world
  ∧ iterator_pre_decr it three_world
    = Ok (iterator.mk None (Some 1%positive)) three_world
  ∧ bind (iterator_pre_incr it) iterator_pre_decr three_world = Ok it three_world
  ∧ bind (iterator_pre_decr it) iterator_pre_incr three_world
    = Throw invalid_iterator three_world.
Proof.
  exact (cursor_stepping hash4 N.eqb three_world 1%positive three_entries 0%nat 1%positive
           (5, 50) three_world_Rep eq_refl).
Defined.

Lemma size_and_emptiness_witness :
  ∃ l b e,
    traverse 1%positive three_world = Ok l three_world
    ∧ size 1%positive three_world = Ok (N.of_nat (length l)) three_world
    ∧ empty 1%positive three_world = Ok (bool_decide (length l = 0%nat)) three_world
    ∧ begin 1%positive three_world = Ok b three_world
    ∧ end_ 1%positive three_world = Ok e three_world
    ∧ iterator_eq b e = bool_decide (length l = 0%nat).
Proof.
  exact (size_and_emptiness hash4 N.eqb three_world 1%positive three_entries
           three_world_Rep).
Defined.

Lemma const_interface_witness :
  ∃ l, traverse 1%positive three_world = Ok l three_world
       ∧ const_traverse 1%positive three_world = Ok l three_world.
Proof.
  exact (proj1 (const_interface hash4 N.eqb) three_world 1%positive three_entries
           three_world_Rep).
Defined.

Lemma lookups_do_not_write_witness :
  at_ hash4 N.eqb 1%positive 7 three_world = Throw index_out_of_bound three_world
  ∧ index_out_of_bound = index_out_of_bound.
Proof.
  assert (at_ hash4 N.eqb 1%positive 7 three_world
          = Throw index_out_of_bound three_world) as Hat by (by vm_compute).
  split; [exact Hat|].
  pose proof (lookups_do_not_write (T:=N) hash4 N.eqb 1%positive 7) as H.
  do 16 destruct H as [_ H].
  exact (H three_world index_out_of_bound three_world Hat).
Defined.

Lemma insert_keeps_entries_in_place_witness :
  ∃ a w',
    insert hash4 N.eqb 1%positive (7, 70) three_world
    = Ok (iterator.mk (Some a) (Some 1%positive), true) w'
    ∧ nodes three_world !! a = None
    ∧ find hash4 N.eqb 1%positive 7 w' = Ok (iterator.mk (Some a) (Some 1%positive)) w'
    ∧ read a w' = Ok (7, 70) w'
    ∧ traverse 1%positive w' = Ok [(5, 50); (9, 90); (2, 20); (7, 70)] w'
    ∧ size 1%positive w' = Ok 4 w'
    ∧ (∀ k' a',
         find hash4 N.eqb 1%positive k' three_world
         = Ok (iterator.mk (Some a') (Some 1%positive)) three_world →
         find hash4 N.eqb 1%positive k' w' = Ok (iterator.mk (Some a') (Some 1%positive)) w'
         ∧ ∃ d, read a' three_world = Ok d three_world ∧ read a' w' = Ok d w').
Proof.
  apply (insert_keeps_entries_in_place hash4 N.eqb lawful_hash4 three_world 1%positive
           three_entries 7 70 three_world_Rep three_world_room).
  by vm_compute.
Defined.

Lemma insert_then_erase_witness :
  ∃ it w1 w2,
    insert hash4 N.eqb 1%positive (7, 70) three_world = Ok (it, true) w1
    ∧ erase hash4 1%positive it w1 = Ok tt w2
    ∧ Rep hash4 N.eqb w2 1%positive three_entries
    ∧ traverse 1%positive w2 = Ok [(5, 50); (9, 90); (2, 20)] w2
    ∧ size 1%positive w2 = Ok 3 w2
    ∧ count hash4 N.eqb 1%positive 7 w2 = Ok 0 w2
    ∧ (∀ x, x ∉ three_entries.*1 → nodes w2 !! x = nodes three_world !! x)
    ∧ (∀ c, capacity three_world 1%positive = Some c →
         capacity w2 1%positive = Some c ∨ capacity w2 1%positive = Some (2 * c)).
Proof.
  apply (insert_then_erase hash4 N.eqb lawful_hash4 three_world 1%positive
           three_entries 7 70 three_world_Rep three_world_room).
  by vm_compute.
Defined.

Lemma erased_iterator_dangles_witness :
  let it := iterator.mk (Some 2%positive) (Some 1%positive) in
  ∃ w',
    erase hash4 1%positive it three_world = Ok tt w'
    ∧ nodes w' !! 2%positive = None
    ∧ erase hash4 1%positive it w' = Undefined
    ∧ iterator_pre_incr it w' = Undefined
    ∧ iterator_post_incr it w' = Undefined
    ∧ iterator_pre_decr it w' = Undefined
    ∧ iterator_post_decr it w' = Undefined
    ∧ bind (iterator_deref it) read w' = Undefined.
Proof.
  exact (erased_iterator_dangles hash4 N.eqb three_world 1%positive three_entries 1%nat
           2%positive (9, 90) three_world_Rep eq_refl).
Defined.

Lemma clear_empties_witness :
  ∃ w',
    clear 1%positive three_world = Ok tt w'
    ∧ size 1%positive w' = Ok 0 w'
    ∧ empty 1%positive w' = Ok true w'
    ∧ begin 1%positive w' = end_ 1%positive w'
    ∧ traverse 1%positive w' = Ok [] w'
    ∧ (∀ key, count hash4 N.eqb 1%positive key w' = Ok 0 w'
              ∧ find hash4 N.eqb 1%positive key w' = end_ 1%positive w')
    ∧ (∀ a, a ∈ three_entries.*1 → nodes w' !! a = None)
    ∧ (∀ x, x ∉ three_entries.*1 → nodes w' !! x = nodes three_world !! x)
    ∧ capacity w' 1%positive = capacity three_world 1%positive
    ∧ Rep hash4 N.eqb w' 1%positive [].
Proof.
  exact (clear_empties hash4 N.eqb lawful_hash4 three_world 1%positive three_entries
           three_world_Rep).
Defined.

Lemma rehash_keeps_lookups_witness :
  ∃ w',
    rehash hash4 1%positive three_world = Ok tt w'
    ∧ (∀ c, capacity three_world 1%positive = Some c →
         capacity w' 1%positive = Some (2 * c))
    ∧ (∀ key it, find hash4 N.eqb 1%positive key three_world = Ok it three_world →
         find hash4 N.eqb 1%positive key w' = Ok it w')
    ∧ traverse 1%positive w' = Ok [(5, 50); (9, 90); (2, 20)] w'
    ∧ size 1%positive w' = Ok 3 w'
    ∧ dom (nodes w') = dom (nodes three_world)
    ∧ (∀ x, x ∉ three_entries.*1 → nodes w' !! x = nodes three_world !! x)
    ∧ (∀ that, that ≠ 1%positive → maps w' !! that = maps three_world !! that)
    ∧ Rep hash4 N.eqb w' 1%positive three_entries.
Proof.
  apply (rehash_keeps_lookups hash4 N.eqb lawful_hash4 three_world 1%positive
           three_entries three_world_Rep).
  intros c Hc. vm_compute in Hc. injection Hc as <-. by vm_compute.
Defined.

Lemma assign_through_reference_witness :
  at_ hash4 N.eqb 1%positive 9 three_world = Ok 2%positive three_world
  ∧ ∃ w',
      write 2%positive 91 three_world = Ok tt w'
      ∧ read 2%positive w' = Ok (9, 91) w'
      ∧ at_ hash4 N.eqb 1%positive 9 w' = Ok 2%positive w'
      ∧ traverse 1%positive w' = Ok [(5, 50); (9, 91); (2, 20)] w'.
Proof.
  destruct (assign_through_reference hash4 N.eqb lawful_hash4 three_world 1%positive
              three_entries 1%nat 2%positive 9 90 91 three_world_Rep eq_refl)
    as (Hat & _ & _ & w' & Hw & Hr & Hat' & Ht & _).
  split; [exact Hat|]. exists w'. exact (conj Hw (conj Hr (conj Hat' Ht))).
Defined.

Lemma index_then_assign_witness :
  ∃ a w1 w2,
    operator_index hash4 N.eqb 0 1%positive 9 three_world = Ok a w1
    ∧ write a 91 w1 = Ok tt w2
    ∧ at_ hash4 N.eqb 1%positive 9 w2 = Ok a w2
    ∧ count hash4 N.eqb 1%positive 9 w2 = Ok 1 w2
    ∧ (∃ k0, read a w2 = Ok (k0, 91) w2 ∧ N.eqb k0 9 = true)
    ∧ traverse 1%positive w2 = Ok [(5, 50); (9, 91); (2, 20)] w2.
Proof.
  exact (index_then_assign hash4 N.eqb 0 lawful_hash4 three_world 1%positive
           three_entries 9 91 three_world_Rep three_world_room).
Defined.

Lemma copy_constructor_allocates_witness :
  ∃ w' l,
    construct_copy hash4 N.eqb 2%positive 1%positive three_world = Ok tt w'
    ∧ traverse 2%positive w' = Ok [(5, 50); (9, 90); (2, 20)] w'
    ∧ traverse 1%positive w' = Ok [(5, 50); (9, 90); (2, 20)] w'
    ∧ length l = 3%nat
    ∧ NoDup l
    ∧ (∀ a, a ∈ l → nodes three_world !! a = None ∧ is_Some (nodes w' !! a))
    ∧ (∀ x, x ∉ l → nodes w' !! x = nodes three_world !! x)
    ∧ (∀ that, that ≠ 2%positive → maps w' !! that = maps three_world !! that).
Proof.
  exact (copy_constructor_allocates hash4 N.eqb lawful_hash4 three_world 2%positive
           1%positive three_entries ltac:(done) three_world_Rep
           (room_le three_world 1%positive 1 0 three_world_room ltac:(lia))).
Defined.

Lemma assignment_releases_old_entries_witness :
  ∃ w' l,
    operator_assign hash4 N.eqb 2%positive 1%positive two_world = Ok 2%positive w'
    ∧ traverse 2%positive w' = Ok [(5, 50); (9, 90); (2, 20)] w'
    ∧ traverse 1%positive w' = Ok [(5, 50); (9, 90); (2, 20)] w'
    ∧ length l = 3%nat
    ∧ NoDup l
    ∧ (∀ a, a ∈ l →
         is_Some (nodes w' !! a) ∧ (a ∈ two_entries.*1 ∨ nodes two_world !! a = None))
    ∧ (∀ x, x ∉ l → x ∈ two_entries.*1 → nodes w' !! x = None)
    ∧ (∀ x, x ∉ l → x ∉ two_entries.*1 → nodes w' !! x = nodes two_world !! x)
    ∧ (∀ that, that ≠ 2%positive → maps w' !! that = maps two_world !! that).
Proof.
  exact (assignment_releases_old_entries hash4 N.eqb lawful_hash4 two_world 2%positive
           1%positive two_entries three_entries ltac:(done) (proj1 two_world_Rep)
           (proj2 two_world_Rep) two_world_apart' two_world_room_source).
Defined.

Lemma lookups_agree_witness :
  ∃ l node,
    traverse 1%positive three_world = Ok l three_world
    ∧ find hash4 N.eqb 1%positive 9 three_world
      = Ok (iterator.mk node (Some 1%positive)) three_world
    ∧ count hash4 N.eqb 1%positive 9 three_world
      = Ok (match node with Some _ => 1 | None => 0 end) three_world
    ∧ at_ hash4 N.eqb 1%positive 9 three_world
      = match node with
        | Some a => Ok a three_world
        | None => Throw index_out_of_bound three_world
        end
    ∧ match node with
      | Some a => ∃ k0 v, read a three_world = Ok (k0, v) three_world
                          ∧ N.eqb k0 9 = true ∧ (k0, v) ∈ l
      | None => ∀ d, d ∈ l → N.eqb (fst d) 9 = false
      end
    ∧ (∀ key', N.eqb 9 key' = true →
         find hash4 N.eqb 1%positive key' three_world
         = Ok (iterator.mk node (Some 1%positive)) three_world).
Proof.
  exact (lookups_agree hash4 N.eqb lawful_hash4 three_world 1%positive three_entries 9
           three_world_Rep).
Defined.

Lemma growth_at_three_quarters_witness :
  size 1%positive three_world = Ok 3 three_world
  ∧ ∃ it b w',
      insert hash4 N.eqb 1%positive (7, 70) three_world = Ok (it, b) w'
      ∧ capacity w' 1%positive
        = Some (if b && bool_decide (3 * 16 ≤ 4 * 3) then 2 * 16 else 16)
      ∧ (b = false ↔ count hash4 N.eqb 1%positive 7 three_world = Ok 1 three_world).
Proof.
  apply (growth_at_three_quarters hash4 N.eqb lawful_hash4 three_world 1%positive
           three_entries 16 7 70 three_world_Rep three_world_room).
  by vm_compute.
Defined.

Lemma invariant_after_history_witness :
  ∃ w1 w2 s,
    construct 1%positive empty_world = Ok tt w1
    ∧ run hash4 N.eqb 0 1%positive history w1 = Ok tt w2
    ∧ Rep hash4 N.eqb w2 1%positive s
    ∧ s.*2 = [(9, 90); (7, 0)]
    ∧ ∃ c e, capacity w2 1%positive = Some c ∧ c = 16 * 2 ^ e
             ∧ 4 * N.of_nat (length s) ≤ 3 * c.
Proof.
  apply (invariant_after_history hash4 N.eqb 0 lawful_hash4 empty_world 1%positive history).
  by vm_compute.
Defined.

Lemma one_node_per_entry_witness :
  ∃ w1 w2 l,
    construct 1%positive empty_world = Ok tt w1
    ∧ run hash4 N.eqb 0 1%positive history w1 = Ok tt w2
    ∧ size 1%positive w2 = Ok (N.of_nat (length l)) w2
    ∧ NoDup l
    ∧ (∀ a, a ∈ l → nodes empty_world !! a = None ∧ is_Some (nodes w2 !! a))
    ∧ (∀ x, x ∉ l → nodes w2 !! x = nodes empty_world !! x).
Proof.
  apply (one_node_per_entry hash4 N.eqb 0 lawful_hash4 empty_world 1%positive history).
  by vm_compute.
Defined.

Lemma erase_keeps_other_entries_in_place_witness :
  ∃ w',
    erase hash4 1%positive (iterator.mk (Some 2%positive) (Some 1%positive)) three_world
    = Ok tt w'
    ∧ (∀ k' a', a' ≠ 2%positive →
         find hash4 N.eqb 1%positive k' three_world
         = Ok (iterator.mk (Some a') (Some 1%positive)) three_world →
         find hash4 N.eqb 1%positive k' w'
         = Ok (iterator.mk (Some a') (Some 1%positive)) w')
    ∧ (∀ j a' d', j ≠ 1%nat → three_entries !! j = Some (a', d') →
         read a' w' = Ok d' w'
         ∧ iterator_pre_incr (iterator.mk (Some a') (Some 1%positive)) w'
           = Ok (iterator.mk
                   (fst <$> three_entries !! (if decide (S j = 1%nat) then S (S j) else S j))
                   (Some 1%positive)) w').
Proof.
  exact (erase_keeps_other_entries_in_place hash4 N.eqb lawful_hash4 three_world 1%positive
           three_entries 1%nat 2%positive (9, 90) three_world_Rep eq_refl).
Defined.

(** A second hash function: the key itself. *)
Definition hash_key (k : N) : N := k.

Lemma lawful_hash_key : lawful hash_key N.eqb.
Proof.
  split.
  - apply N.eqb_refl.
  - intros k1 k2 ?%N.eqb_eq. by apply N.eqb_eq.
  - intros k1 k2 k3 ?%N.eqb_eq ?%N.eqb_eq. apply N.eqb_eq. congruence.
  - intros k1 k2 ?%N.eqb_eq. congruence.
Qed.

Lemma hash_is_not_observable_witness :
  ∃ w0 w1 w2 l,
    construct 1%positive empty_world = Ok tt w0
    ∧ run hash4 N.eqb 0 1%positive history w0 = Ok tt w1
    ∧ run hash_key N.eqb 0 1%positive history w0 = Ok tt w2
    ∧ traverse 1%positive w1 = Ok l w1
    ∧ traverse 1%positive w2 = Ok l w2
    ∧ ∀ key, ∃ n, count hash4 N.eqb 1%positive key w1 = Ok n w1
                  ∧ count hash_key N.eqb 1%positive key w2 = Ok n w2.
Proof.
  apply (hash_is_not_observable hash4 hash_key N.eqb 0 empty_world 1%positive history
           lawful_hash4 lawful_hash_key).
  by vm_compute.
Defined.

Lemma clear_table_deletes_chains_witness :
  ∃ w' m,
    clear_table 1%positive three_world = Ok tt w'
    ∧ (∀ a, a ∈ three_entries.*1 → nodes w' !! a = None)
    ∧ (∀ x, x ∉ three_entries.*1 → nodes w' !! x = nodes three_world !! x)
    ∧ maps three_world !! 1%positive = Some m
    ∧ maps w' !! 1%positive = Some (set_hash_table None m)
    ∧ (∀ that, that ≠ 1%positive → maps w' !! that = maps three_world !! that)
    ∧ clear_table 1%positive w' = Ok tt w'
    ∧ (three_entries ≠ [] → clear 1%positive w' = Undefined).
Proof.
  exact (clear_table_deletes_chains hash4 N.eqb three_world 1%positive three_entries
           three_world_Rep).
Defined.
